(** * mbjs: the module lifecycle orchestrator

    A shallow embedding of the [Application] class of
    [lib/mbjs-module/index.js] (constructor, [throwError], [require], [init],
    [_start], [_stop], [module], [signalInterrupt]) and of the SIGINT handler
    of [lib/bin.js], together with the part of the JavaScript host that the
    class relies on: objects with their key order and what they inherit
    from [Object.prototype], promises joined by [Promise.all] and
    [Promise.allSettled], timers, [console.error] and uncaught exceptions. *)

From Stdlib Require Import Ascii String.
From stdpp Require Import gmap strings list pretty sorting.

Open Scope string_scope.
Open Scope list_scope.

(** ** JavaScript values and errors *)

(** An [Error] object: the constructor that made it, its message and the
    [code] property when one was assigned. *)
Record error := Err {
  err_name : string;
  err_message : string;
  err_code : option string
}.

(** The values that cross the boundary between the orchestrator and its
    modules.  [VPromise] is a promise made by a module (returned by its
    [start()] or [stop()]); the host decides later how it settles. *)
Inductive value :=
  | VUndefined
  | VBool (b : bool)
  | VNum (n : nat)
  | VStr (s : string)
  | VError (e : error)
  | VPromise.

(** A synchronous call either returns or throws. *)
Inductive result (A : Type) :=
  | Return (a : A)
  | Throw (e : error).
Arguments Return {A} a.
Arguments Throw {A} e.

Definition TypeError (msg : string) : error := Err "TypeError" msg None.

(** ** Strings: [split], [join]

    A string is the sequence of the bytes of its UTF-8 form. *)

(** [s.split(sep)] for a one-character separator; the empty string splits
    into one empty piece. *)
Fixpoint split (sep : ascii) (s : string) : list string :=
  match s with
  | EmptyString => [EmptyString]
  | String c s' =>
      if Ascii.eqb c sep then EmptyString :: split sep s'
      else match split sep s' with
           | [] => [String c EmptyString]
           | piece :: rest => String c piece :: rest
           end
  end.

(** [pieces.join(sep)] *)
Definition join (sep : string) (pieces : list string) : string :=
  String.concat sep pieces.

(** Upper-casing of one ASCII character: only the letters a-z change. *)
Definition upper_char (c : ascii) : ascii :=
  if (Ascii.leb "a" c && Ascii.leb c "z")%bool
  then ascii_of_nat (nat_of_ascii c - 32)
  else c.

(** What [s.toUpperCase()] is on a string of ASCII characters.  (On other
    strings the host follows the Unicode case mapping, see [Host].) *)
Fixpoint upper (s : string) : string :=
  match s with
  | EmptyString => EmptyString
  | String c s' => String (upper_char c) (upper s')
  end.

Fixpoint string_chars (s : string) : list ascii :=
  match s with
  | EmptyString => []
  | String c s' => c :: string_chars s'
  end.

(** Every character of [s] is an ASCII character. *)
Definition ascii_only (s : string) : Prop :=
  Forall (fun c => nat_of_ascii c < 128) (string_chars s).

(** ** Objects

    An object made by an object literal or by [JSON.parse] is the list of
    its own properties in the order of their creation, one entry per key;
    its prototype is [Object.prototype]. *)

(** The names every such object inherits from [Object.prototype]. *)
Definition Object_prototype : list string :=
  ["constructor"; "__defineGetter__"; "__defineSetter__"; "hasOwnProperty";
   "__lookupGetter__"; "__lookupSetter__"; "isPrototypeOf";
   "propertyIsEnumerable"; "toString"; "valueOf"; "__proto__";
   "toLocaleString"].

Definition inherited (k : string) : bool := bool_decide (k ∈ Object_prototype).

(** What a plain read [o[k]] gives: the own property, else the value
    inherited under that name (a built-in function, or [Object.prototype]
    itself for ["__proto__"]), else [undefined]. *)
Inductive read (A : Type) :=
  | Own (a : A)
  | Inherited (k : string)
  | Undefined.
Arguments Own {A} a.
Arguments Inherited {A} k.
Arguments Undefined {A}.

Definition plain_read {A} (own : option A) (k : string) : read A :=
  match own with
  | Some a => Own a
  | None => if inherited k then Inherited k else Undefined
  end.

(** The number a string of decimal digits spells. *)
Fixpoint digits (s : string) (acc : N) : option N :=
  match s with
  | EmptyString => Some acc
  | String c s' =>
      let d := N_of_ascii c in
      if ((48 <=? d) && (d <=? 57))%N
      then digits s' (10 * acc + (d - 48))%N
      else None
  end.

(** A key is an array index when it is the canonical spelling of a number
    below 2^32 - 1. *)
Definition array_index (k : string) : option N :=
  match k with
  | EmptyString => None
  | String c rest =>
      if (Ascii.eqb c "0" && negb (String.eqb rest ""))%bool then None
      else match digits k 0 with
           | Some n => if (n <? 4294967295)%N then Some n else None
           | None => None
           end
  end.

Definition index_order (a b : string) : Prop :=
  (default 0 (array_index a) <= default 0 (array_index b))%N.

#[global] Instance index_order_dec : RelDecision index_order.
Proof. intros a b. unfold index_order. apply _. Defined.

Section Obj.
Context {V : Type}.

Fixpoint obj_get (o : list (string * V)) (k : string) : option V :=
  match o with
  | [] => None
  | (k', v) :: o' => if String.eqb k' k then Some v else obj_get o' k
  end.

(** [Object.hasOwnProperty.call(o, k)] *)
Definition hasOwnProperty (o : list (string * V)) (k : string) : bool :=
  match obj_get o k with Some _ => true | None => false end.

(** [o[k] = v] as a definition of the own property [k]: an existing key
    keeps its place, a new key is created last. *)
Fixpoint obj_set (o : list (string * V)) (k : string) (v : V)
  : list (string * V) :=
  match o with
  | [] => [(k, v)]
  | (k', v') :: o' =>
      if String.eqb k' k then (k', v) :: o' else (k', v') :: obj_set o' k v
  end.

(** [o[k] = v].  The name ["__proto__"], unless it is an own property, is
    an accessor inherited from [Object.prototype]: the assignment runs its
    setter, which creates no property and makes [o] inherit from [v].  That
    link is not recorded: the reads below are those of an object that still
    inherits from [Object.prototype]. *)
Definition obj_assign (o : list (string * V)) (k : string) (v : V)
  : list (string * V) :=
  if (String.eqb k "__proto__" && negb (hasOwnProperty o k))%bool then o
  else obj_set o k v.

(** [Object.keys(o)]: the array indices in ascending order, then the other
    keys in the order of their creation. *)
Definition Object_keys (o : list (string * V)) : list string :=
  let ks := map fst o in
  merge_sort index_order (filter (fun k => is_Some (array_index k)) ks)
  ++ filter (fun k => array_index k = None) ks.
End Obj.

(** The same assignment on a registry, an object made by [{}] whose own
    properties are a finite map. *)
Definition assign {A} (o : gmap string A) (k : string) (v : A) : gmap string A :=
  if (String.eqb k "__proto__" && negb (bool_decide (is_Some (o !! k))))%bool then o
  else <[k := v]> o.

(** A per-module configuration object. *)
Definition cfg := list (string * value).

(** ** Modules *)

(** A function-valued property of a module instance, called with the
    dispatcher's parameters. *)
Definition method := list value -> result value.

(** A live module instance, seen through the property reads the orchestrator
    performs: [typeof inst[f] === 'function'] holds exactly when [methods f]
    is defined, and [stopTimeout] is [None] for [undefined]. *)
Record instance := Instance {
  methods : string -> option method;
  stopTimeout : option nat
}.

(** A module class.  Its constructor receives what [this.config[sec]] reads
    and the application; of the application the module base classes keep
    the bound [throwError], which is represented by the error-code prefix it
    closes over. *)
Record class := Class {
  construct : read cfg -> string -> result instance
}.

(** What [allModules[sec]] holds: the application itself or a module. *)
Inductive inst_ref :=
  | SelfApp
  | Mod (i : instance).

(** ** The host

    What the class takes from the JavaScript engine beyond the objects
    above: [String.prototype.toUpperCase], which follows the Unicode case
    mapping and is the function [upper] on ASCII strings, and the built-in
    [Object], which is what a registry reads under ["constructor"] when it
    has no such property.  [Object_new x] is the object [new Object(x, app)]
    returns (the configuration object [x] itself, or the function [Object]
    when [x] is the inherited ["constructor"]), seen through the property
    reads the orchestrator performs on a module. *)
Class Host := {
  toUpperCase : string -> string;
  toUpperCase_ascii : forall s, ascii_only s -> toUpperCase s = upper s;
  Object_new : read cfg -> instance
}.

(** ** The Application object *)

Definition mainAppName : string := "mbjs-app".

Record Application := App {
  config : list (string * cfg);
  srcdir : string;
  appConfig : option cfg;
  mainModuleCodeUpper : string;
  modules : list string;
  AllModules : gmap string class;
  allModules : gmap string inst_ref
}.

(** [new Application(config, srcdir)] *)
Definition Application_new `{Host} (config0 : list (string * cfg)) (srcdir0 : string)
  : result Application :=
  match obj_get config0 mainAppName with
  | None => Throw (TypeError "Cannot read properties of undefined (reading 'name')")
  | Some main =>
      match obj_get main "name" with
      | Some (VStr name) =>
          Return {| config := config0;
                    srcdir := srcdir0;
                    appConfig := Some main;
                    mainModuleCodeUpper := toUpperCase (join "_" (split "-" name));
                    modules := Object_keys config0;
                    AllModules := ∅;
                    allModules := ∅ |}
      | _ => Throw (TypeError "config[Application.mainAppName].name.split is not a function")
      end
  end.

(** [throwError(errCode, msg = 'Error', justReturn = false)]: [Return er]
    hands the error object back, [Throw er] raises it. *)
Definition throwError (app : Application) (errCode : string)
    (msg : option string) (justReturn : option bool) : result error :=
  let er := Err "Error" (default "Error" msg) None in
  let er := Err (err_name er) (err_message er)
                (Some (mainModuleCodeUpper app +:+ "_" +:+ errCode)) in
  if default false justReturn then Return er else Throw er.

(** ** Mutating methods: state and exceptions

    A method that mutates the application and may throw is a function from
    the application to the mutated application and [Return tt] or the error
    thrown; mutations made before a throw stay. *)
Definition action := Application -> Application * result unit.

(** [list.forEach(body)]: stops at the first throw. *)
Fixpoint forEach (body : string -> action) (l : list string) : action :=
  fun app =>
    match l with
    | [] => (app, Return tt)
    | sec :: l' =>
        match body sec app with
        | (app', Return _) => forEach body l' app'
        | (app', Throw e) => (app', Throw e)
        end
    end.

(** [modules || this.modules]: an array is always truthy. *)
Definition names_or_all (names : option (list string)) (app : Application)
  : list string :=
  match names with Some l => l | None => modules app end.

Section Loading.

(** [require(resolve(srcdir, sec))]: Node's module loader. *)
Variable loader : string -> string -> result class.

(** The body of the loop of [require]. *)
Definition require_step (conf : cfg) (sec : string) : action :=
  fun app =>
    let app1 :=
      if negb (hasOwnProperty (config app) sec)
      then {| config := obj_assign (config app) sec conf;
              srcdir := srcdir app;
              appConfig := appConfig app;
              mainModuleCodeUpper := mainModuleCodeUpper app;
              modules := modules app ++ [sec];
              AllModules := AllModules app;
              allModules := allModules app |}
      else app in
    match loader (srcdir app1) sec with
    | Throw e => (app1, Throw e)
    | Return cls =>
        ({| config := config app1;
            srcdir := srcdir app1;
            appConfig := appConfig app1;
            mainModuleCodeUpper := mainModuleCodeUpper app1;
            modules := modules app1;
            AllModules := assign (AllModules app1) sec cls;
            allModules := allModules app1 |}, Return tt)
    end.

(** [require(modules, conf = {})] *)
Definition require (names : option (list string)) (conf : option cfg) : action :=
  fun app => forEach (require_step (default [] conf)) (names_or_all names app) app.

End Loading.

(** [this.allModules[sec] = r] *)
Definition set_instance (app : Application) (sec : string) (r : inst_ref)
  : Application :=
  {| config := config app;
     srcdir := srcdir app;
     appConfig := appConfig app;
     mainModuleCodeUpper := mainModuleCodeUpper app;
     modules := modules app;
     AllModules := AllModules app;
     allModules := assign (allModules app) sec r |}.

(** The body of the loop of [init].  Without a class of its own under
    [sec], the registry reads what it inherits: the built-in [Object] under
    ["constructor"], which [new] accepts, and otherwise nothing that [new]
    can construct. *)
Definition init_step `{Host} (sec : string) : action :=
  fun app =>
    let slice := plain_read (obj_get (config app) sec) sec in
    if String.eqb sec mainAppName then (set_instance app sec SelfApp, Return tt)
    else
      match AllModules app !! sec with
      | None =>
          if String.eqb sec "constructor"
          then (set_instance app sec (Mod (Object_new slice)), Return tt)
          else (app, Throw (TypeError "this.AllModules[sec] is not a constructor"))
      | Some cls =>
          match construct cls slice (mainModuleCodeUpper app) with
          | Throw e => (app, Throw e)
          | Return i => (set_instance app sec (Mod i), Return tt)
          end
      end.

(** [init(modules)] *)
Definition init `{Host} (names : option (list string)) : action :=
  fun app => forEach init_step (names_or_all names app) app.

(** ** Promises *)

(** A promise is pending, fulfilled with a value or rejected with a reason. *)
Inductive pstate (A : Type) :=
  | Pending
  | Fulfilled (a : A)
  | Rejected (reason : value).
Arguments Pending {A}.
Arguments Fulfilled {A} a.
Arguments Rejected {A} reason.

Definition is_pending {A} (p : pstate A) : bool :=
  match p with Pending => true | _ => false end.

Definition is_fulfilled {A} (p : pstate A) : bool :=
  match p with Fulfilled _ => true | _ => false end.

Definition is_rejected {A} (p : pstate A) : bool :=
  match p with Rejected _ => true | _ => false end.

(** The resolving functions of a promise act once: a settled promise keeps
    its state. *)
Definition settle_once {A} (new old : pstate A) : pstate A :=
  match old with Pending => new | _ => old end.

(** How the host settles a promise made by a module. *)
Inductive outcome :=
  | Resolve (v : value)
  | Reject (reason : value).

Definition pstate_of (o : outcome) : pstate value :=
  match o with Resolve v => Fulfilled v | Reject r => Rejected r end.

(** An entry of the array [Promise.allSettled] fulfils with:
    [{status: 'fulfilled', value}] or [{status: 'rejected', reason}]. *)
Inductive settled :=
  | StatusFulfilled (v : value)
  | StatusRejected (reason : value).

Definition status (pm : settled) : string :=
  match pm with StatusFulfilled _ => "fulfilled" | StatusRejected _ => "rejected" end.

(** The bookkeeping of [Promise.all] and [Promise.allSettled]: the count of
    elements still awaited, the array being filled and the promise handed
    to the caller. *)
Record joining (A : Type) := Joining {
  remaining : nat;
  gathered : list (option A);
  joined : pstate (list A)
}.
Arguments Joining {A} _ _ _.
Arguments remaining {A} _.
Arguments gathered {A} _.
Arguments joined {A} _.

Section Join.
Context {A : Type} (hole : A).

(** The join right after its loop over [n] elements: the count starts at
    one, grows by one per element and drops by one when the loop ends; a
    count of zero fulfils the join. *)
Definition join_close (j : joining A) : joining A :=
  let r := remaining j - 1 in
  {| remaining := r;
     gathered := gathered j;
     joined := if decide (r = 0)
               then settle_once (Fulfilled (map (default hole) (gathered j))) (joined j)
               else joined j |}.

Definition join_open (n : nat) : joining A :=
  join_close {| remaining := 1 + n; gathered := replicate n None; joined := Pending |}.

(** The element callback: store at the index, count down, fulfil at zero. *)
Definition join_store (i : nat) (a : A) (j : joining A) : joining A :=
  join_close {| remaining := remaining j;
                gathered := <[i := Some a]> (gathered j);
                joined := joined j |}.

(** The rejection callback of [Promise.all]. *)
Definition join_reject (reason : value) (j : joining A) : joining A :=
  {| remaining := remaining j;
     gathered := gathered j;
     joined := settle_once (Rejected reason) (joined j) |}.
End Join.

(** What [Promise.all] does when its [i]-th element has reached state [st]. *)
Definition all_notify (i : nat) (st : pstate value) (j : joining value) : joining value :=
  match st with
  | Pending => j
  | Fulfilled v => join_store VUndefined i v j
  | Rejected r => join_reject r j
  end.

(** What [Promise.allSettled] does when its [i]-th element has reached [st]. *)
Definition allSettled_notify (i : nat) (st : pstate value) (j : joining settled)
  : joining settled :=
  match st with
  | Pending => j
  | Fulfilled v => join_store (StatusFulfilled VUndefined) i (StatusFulfilled v) j
  | Rejected r => join_store (StatusFulfilled VUndefined) i (StatusRejected r) j
  end.

(** Notifying a join of the elements that are settled already, in index
    order from [i]. *)
Fixpoint notify_from {A} (notify : nat -> pstate value -> joining A -> joining A)
    (i : nat) (elems : list (pstate value)) (j : joining A) : joining A :=
  match elems with
  | [] => j
  | st :: elems' => notify_from notify (S i) elems' (notify i st j)
  end.

(** [Promise.all(elems)] *)
Definition Promise_all (elems : list (pstate value)) : joining value :=
  notify_from all_notify 0 elems (join_open VUndefined (length elems)).

(** [Promise.allSettled(elems)] *)
Definition Promise_allSettled (elems : list (pstate value)) : joining settled :=
  notify_from allSettled_notify 0 elems
    (join_open (StatusFulfilled VUndefined) (length elems)).

(** [Promise.resolve(x)] for what a module call returned: a module's promise
    is awaited, any other value is a fulfilled promise. *)
Definition Promise_resolve (x : value) : pstate value :=
  match x with VPromise => Pending | _ => Fulfilled x end.

(** ** Property reads on [allModules[sec]] *)

Section Lifecycle.

(** The application's own function-valued properties, as a module reference
    to it sees them ([typeof this[f] === 'function'] when defined). *)
Variable own : string -> option method.

Definition lookup_method (r : inst_ref) (f : string) : option method :=
  match r with SelfApp => own f | Mod i => methods i f end.

(** [allModules[sec].stopTimeout]; the application has no such property. *)
Definition timeout_of (r : inst_ref) : option nat :=
  match r with SelfApp => None | Mod i => stopTimeout i end.

Definition is_some {A} (o : option A) : bool :=
  match o with Some _ => true | None => false end.

(** ** [_start] *)

(** The promises handed to [Promise.all] and the promise it returned. *)
Record starting := Starting {
  elements : list (pstate value);
  all : joining value
}.

(** The filter callback of [_start].  A name without an instance of its own
    reads what the registry inherits, a built-in without a [start]
    property, or [undefined], whose property read throws. *)
Definition start_wanted (app : Application) (sec : string) : result bool :=
  if negb (String.eqb sec mainAppName) then
    match allModules app !! sec with
    | None =>
        if inherited sec then Return false
        else Throw (TypeError "Cannot read properties of undefined (reading 'start')")
    | Some r => Return (is_some (lookup_method r "start"))
    end
  else Return false.

(** [list.filter(keep)] with a callback that may throw. *)
Fixpoint filter_names (keep : string -> result bool) (l : list string)
  : result (list string) :=
  match l with
  | [] => Return []
  | sec :: l' =>
      match keep sec with
      | Throw e => Throw e
      | Return b =>
          match filter_names keep l' with
          | Throw e => Throw e
          | Return kept => Return (if b then sec :: kept else kept)
          end
      end
  end.

(** The callee of [allModules[sec].start()]: evaluating it throws when
    nothing can be read under [sec] or what is read has no [start]
    function. *)
Definition start_of (app : Application) (sec : string) : result method :=
  match allModules app !! sec with
  | None =>
      if inherited sec
      then Throw (TypeError "this.allModules[sec].start is not a function")
      else Throw (TypeError "Cannot read properties of undefined (reading 'start')")
  | Some r =>
      match lookup_method r "start" with
      | None => Throw (TypeError "this.allModules[sec].start is not a function")
      | Some m => Return m
      end
  end.

(** [allModules[sec].start()] *)
Definition call_start (app : Application) (sec : string) : result value :=
  match start_of app sec with
  | Throw e => Throw e
  | Return m => m []
  end.

(** [list.map(sec => allModules[sec].start())]: the names whose [start()]
    was entered, in call order, and the array of returned values unless a
    call threw.  A call whose callee cannot be evaluated enters nothing. *)
Fixpoint map_start (app : Application) (l : list string)
  : list string * result (list value) :=
  match l with
  | [] => ([], Return [])
  | sec :: l' =>
      match start_of app sec with
      | Throw e => ([], Throw e)
      | Return m =>
          match m [] with
          | Throw e => ([sec], Throw e)
          | Return v =>
              match map_start app l' with
              | (called, Throw e) => (sec :: called, Throw e)
              | (called, Return vs) => (sec :: called, Return (v :: vs))
              end
          end
      end
  end.

(** [_start(modules)]: the [start()] calls made, and the join unless the
    synchronous part threw. *)
Definition _start (app : Application) (names : option (list string))
  : list string * result starting :=
  match filter_names (start_wanted app) (names_or_all names app) with
  | Throw e => ([], Throw e)
  | Return secs =>
      match map_start app secs with
      | (called, Throw e) => (called, Throw e)
      | (called, Return vs) =>
          let elems := map Promise_resolve vs in
          (called, Return {| elements := elems; all := Promise_all elems |})
      end
  end.

(** The host settles the promise returned by the [i]-th [start()] call. *)
Definition start_settles (i : nat) (o : outcome) (s : starting) : starting :=
  match elements s !! i with
  | Some Pending =>
      {| elements := <[i := pstate_of o]> (elements s);
         all := all_notify i (pstate_of o) (all s) |}
  | _ => s
  end.

Definition run_start (evs : list (nat * outcome)) (s : starting) : starting :=
  fold_left (fun s ev => start_settles (fst ev) (snd ev) s) evs s.

(** ** [_stop] *)

(** A timer made by [setTimeout(tmFunc, tm)]: its handle, and what the
    callback closes over (the module name, the duration and the [reject] of
    the promise at index [timer_slot]). *)
Record timer := Timer {
  timer_id : nat;
  timer_sec : string;
  timer_ms : nat;
  timer_slot : nat
}.

(** One promise handed to [Promise.allSettled]; [slot_awaiting] tells that
    its [then] handlers sit on a module promise that has not settled. *)
Record slot := Slot {
  slot_sec : string;
  slot_state : pstate value;
  slot_awaiting : bool
}.

(** The process while modules are being stopped. *)
Record stopping := Stopping {
  slots : list slot;
  timers : list timer;
  next_timer : nat;
  stderr : list (list value);
  stop_calls : list string;
  allSettled : option (joining settled);
  uncaught : option error
}.

Definition stopping_init : stopping :=
  {| slots := []; timers := []; next_timer := 0; stderr := [];
     stop_calls := []; allSettled := None; uncaught := None |}.

Definition nl : string := String "010"%char EmptyString.

(** [console.error(...args)] *)
Definition console_error (args : list value) (p : stopping) : stopping :=
  {| slots := slots p; timers := timers p; next_timer := next_timer p;
     stderr := stderr p ++ [args];
     stop_calls := stop_calls p; allSettled := allSettled p;
     uncaught := uncaught p |}.

(** [setTimeout(tmFunc, tm)]; the handle it returns is dropped by [_stop]. *)
Definition setTimeout (sec : string) (tm : nat) (i : nat) (p : stopping) : stopping :=
  {| slots := slots p;
     timers := timers p ++ [Timer (next_timer p) sec tm i];
     next_timer := S (next_timer p);
     stderr := stderr p;
     stop_calls := stop_calls p; allSettled := allSettled p;
     uncaught := uncaught p |}.

(** What [clearTimeout] is given: a handle returned by [setTimeout], or
    something else, here the callback function. *)
Inductive timeout_arg :=
  | Handle (id : nat)
  | Callback.

(** [clearTimeout(arg)]: only a handle names a timer. *)
Definition clearTimeout (arg : timeout_arg) (p : stopping) : stopping :=
  match arg with
  | Callback => p
  | Handle id =>
      {| slots := slots p;
         timers := filter (fun t => timer_id t ≠ id) (timers p);
         next_timer := next_timer p;
         stderr := stderr p;
         stop_calls := stop_calls p; allSettled := allSettled p;
         uncaught := uncaught p |}
  end.

Definition set_slots (l : list slot) (j : option (joining settled)) (p : stopping)
  : stopping :=
  {| slots := l; timers := timers p; next_timer := next_timer p;
     stderr := stderr p; stop_calls := stop_calls p; allSettled := j;
     uncaught := uncaught p |}.

(** The promise of the next module joins the array being mapped. *)
Definition push_slot (s : slot) (p : stopping) : stopping :=
  set_slots (slots p ++ [s]) (allSettled p) p.

Definition record_stop (sec : string) (p : stopping) : stopping :=
  {| slots := slots p; timers := timers p; next_timer := next_timer p;
     stderr := stderr p; stop_calls := stop_calls p ++ [sec];
     allSettled := allSettled p; uncaught := uncaught p |}.

(** [resolve(v)] or [reject(r)] of the promise at index [i]: acts once, and
    the join hears of it. *)
Definition settle_slot (i : nat) (st : pstate value) (p : stopping) : stopping :=
  match slots p !! i with
  | Some s =>
      if is_pending (slot_state s)
      then set_slots (<[i := Slot (slot_sec s) st (slot_awaiting s)]> (slots p))
                     (allSettled_notify i st <$> allSettled p) p
      else p
  | None => p
  end.

(** The receiver of a [function () {...}] is chosen by its caller: the timer
    machinery calls its callback on the [Timeout] object, which has no
    [throwError] property. *)
Inductive receiver :=
  | ThisApplication (app : Application)
  | ThisTimeout.

(** [tmFunc], the callback handed to [setTimeout], run on the receiver
    [this]; [i] is the index of the promise whose [reject] it closes over. *)
Definition tmFunc (this : receiver) (sec : string) (tm : nat) (i : nat)
    (p : stopping) : stopping * result unit :=
  let msg := "Stopping of " +:+ sec +:+ " timed out after " +:+ pretty tm +:+ " ms!" in
  let p1 := console_error [VStr (msg +:+ nl)] p in
  match this with
  | ThisTimeout => (p1, Throw (TypeError "this.throwError is not a function"))
  | ThisApplication app =>
      match throwError app "STOP_TIMED_OUT" (Some msg) (Some true) with
      | Throw e => (p1, Throw e)
      | Return er => (settle_slot i (Rejected (VError er)) p1, Return tt)
      end
  end.

(** The fulfilment handler given to [stop().then]. *)
Definition on_stopped (i : nat) (v : value) (p : stopping) : stopping :=
  settle_slot i (Fulfilled v) (clearTimeout Callback p).

(** The rejection handler given to [stop().then]. *)
Definition on_stop_failed (sec : string) (i : nat) (er : value) (p : stopping)
  : stopping :=
  let p1 := clearTimeout Callback p in
  let p2 := console_error [VStr (sec +:+ " could not be stopped!" +:+ nl)] p1 in
  let p3 := console_error [er; VStr nl] p2 in
  settle_slot i (Rejected er) p3.

(** The map callback of [_stop]: the promise made for one module.  An
    exception inside the promise executor rejects that promise; one outside
    it leaves [_stop].  A name without an instance of its own reads what
    the registry inherits, a built-in without a [stop] property, or
    [undefined], whose property read throws. *)
Definition stop_one (app : Application) (sec : string) (p : stopping)
  : stopping * result unit :=
  match allModules app !! sec with
  | None =>
      if inherited sec
      then (push_slot (Slot sec (Fulfilled (VStr "stop MODULE_FUNCTION_NOT_FOUND")) false) p,
            Return tt)
      else (p, Throw (TypeError "Cannot read properties of undefined (reading 'stop')"))
  | Some r =>
      match lookup_method r "stop" with
      | None =>
          (push_slot (Slot sec (Fulfilled (VStr "stop MODULE_FUNCTION_NOT_FOUND")) false) p,
           Return tt)
      | Some stop =>
          let tm := match timeout_of r with None => 2000 | Some t => t end in
          let i := length (slots p) in
          let p1 := record_stop sec (setTimeout sec tm i p) in
          match stop [] with
          | Throw e => (push_slot (Slot sec (Rejected (VError e)) false) p1, Return tt)
          | Return VPromise => (push_slot (Slot sec Pending true) p1, Return tt)
          | Return _ =>
              (push_slot (Slot sec (Rejected (VError (TypeError
                 "this.allModules[sec].stop(...).then is not a function"))) false) p1,
               Return tt)
          end
      end
  end.

Fixpoint map_stop (app : Application) (l : list string) (p : stopping)
  : stopping * result unit :=
  match l with
  | [] => (p, Return tt)
  | sec :: l' =>
      match stop_one app sec p with
      | (p', Throw e) => (p', Throw e)
      | (p', Return _) => map_stop app l' p'
      end
  end.

(** [_stop(modules)]: what the call leaves in the process (promises, timers,
    [stop()] calls entered); on [Return] the field [allSettled] holds the
    returned promise. *)
Definition _stop (app : Application) (names : option (list string))
  : stopping * result unit :=
  let secs := filter (fun sec => sec ≠ mainAppName) (names_or_all names app) in
  match map_stop app secs stopping_init with
  | (p', Throw e) => (p', Throw e)
  | (p', Return _) =>
      (set_slots (slots p') (Some (Promise_allSettled (map slot_state (slots p')))) p',
       Return tt)
  end.

(** ** The event loop while stopping *)

Inductive event :=
  | Settles (i : nat) (o : outcome)
  | TimerDue (id : nat).

Definition heard (i : nat) (p : stopping) : stopping :=
  match slots p !! i with
  | Some s => set_slots (<[i := Slot (slot_sec s) (slot_state s) false]> (slots p))
                        (allSettled p) p
  | None => p
  end.

Definition crash (e : error) (p : stopping) : stopping :=
  {| slots := slots p; timers := timers p; next_timer := next_timer p;
     stderr := stderr p; stop_calls := stop_calls p;
     allSettled := allSettled p; uncaught := Some e |}.

Definition find_timer (id : nat) (p : stopping) : option timer :=
  List.find (fun t => Nat.eqb (timer_id t) id) (timers p).

(** One turn of the event loop.  [Settles i o]: the promise returned by the
    [stop()] call behind slot [i] settles, and the handler given to [then]
    runs.  [TimerDue id]: the timer [id], if still set, leaves the timer
    list and its callback runs on the [Timeout] object; an exception it
    throws is uncaught and ends the process, after which nothing runs. *)
Definition step (ev : event) (p : stopping) : stopping :=
  match uncaught p with
  | Some _ => p
  | None =>
      match ev with
      | Settles i o =>
          match slots p !! i with
          | Some s =>
              if slot_awaiting s then
                match o with
                | Resolve v => on_stopped i v (heard i p)
                | Reject er => on_stop_failed (slot_sec s) i er (heard i p)
                end
              else p
          | None => p
          end
      | TimerDue id =>
          match find_timer id p with
          | None => p
          | Some t =>
              match tmFunc ThisTimeout (timer_sec t) (timer_ms t) (timer_slot t)
                           (clearTimeout (Handle id) p) with
              | (p', Throw e) => crash e p'
              | (p', Return _) => p'
              end
          end
      end
  end.

Definition run (evs : list event) (p : stopping) : stopping :=
  fold_left (fun p ev => step ev p) evs p.

(** ** [module(name, func, ...params)] *)

(** The first argument: one name or an array of names. *)
Inductive name_arg :=
  | One (name : string)
  | Many (names : list string).

Definition isArray (name : name_arg) : bool :=
  match name with One _ => false | Many _ => true end.

(** What the dispatcher returns: [results] or [results.pop()]. *)
Inductive dispatched :=
  | Results (results : list value)
  | Popped (v : value).

(** The body of the loop of [module]; [results] is the array so far. *)
Definition module_step (app : Application) (isAr : bool) (func : string)
    (params : list value) (sec : string) (results : list value)
  : result (list value) :=
  match allModules app !! sec with
  | None =>
      match throwError app "MODULE_NOT_FOUND" None None with
      | Throw e => Throw e
      | Return _ => Throw (TypeError "Cannot read properties of undefined")
      end
  | Some r =>
      match lookup_method r func with
      | Some m =>
          match m params with
          | Throw e => Throw e
          | Return v => Return (results ++ [v])
          end
      | None =>
          if negb isAr then
            match throwError app "MODULE_FUNCTION_NOT_FOUND" None None with
            | Throw e => Throw e
            | Return _ => Return results
            end
          else Return results
      end
  end.

Fixpoint module_loop (app : Application) (isAr : bool) (func : string)
    (params : list value) (nn : list string) (results : list value)
  : result (list value) :=
  match nn with
  | [] => Return results
  | sec :: nn' =>
      match module_step app isAr func params sec results with
      | Throw e => Throw e
      | Return results' => module_loop app isAr func params nn' results'
      end
  end.

Definition module (app : Application) (name : name_arg) (func : string)
    (params : list value) : result dispatched :=
  let isAr := isArray name in
  let nn := match name with One n => [n] | Many l => l end in
  match module_loop app isAr func params nn [] with
  | Throw e => Throw e
  | Return results =>
      Return (if isAr then Results results
              else Popped (default VUndefined (last results)))
  end.

End Lifecycle.

(** ** The exit status after an interrupt *)

(** [results.find(pm => pm.status !== 'fulfilled')] *)
Definition find_unfulfilled (results : list settled) : option settled :=
  List.find (fun pm => negb (String.eqb (status pm) "fulfilled")) results.

(** Truthiness of what [find] returned: an entry is an object, and a miss is
    [undefined]. *)
Definition truthy (found : option settled) : bool :=
  match found with Some _ => true | None => false end.

(** The argument of [process.exit] in the handler given to [stop().then],
    in [signalInterrupt] and in the SIGINT handler of [bin.js] alike. *)
Definition exit_code (results : list settled) : nat :=
  let successExit := find_unfulfilled results in
  if truthy successExit then 0 else 1.

(** [signalInterrupt], once the event loop has run: the status the process
    was exited with, if the promise returned by [stop()] has been fulfilled. *)
Definition signalInterrupt (p : stopping) : option nat :=
  match allSettled p with
  | Some j =>
      match joined j with
      | Fulfilled results => Some (exit_code results)
      | _ => None
      end
  | None => None
  end.

(** ** Notions used to state the properties *)

(** The entry [Promise.allSettled] records for a settled promise. *)
Definition entry_of (st : pstate value) : option settled :=
  match st with
  | Pending => None
  | Fulfilled v => Some (StatusFulfilled v)
  | Rejected r => Some (StatusRejected r)
  end.

Fixpoint pending_count (l : list (pstate value)) : nat :=
  match l with
  | [] => 0
  | st :: l' => (if is_pending st then 1 else 0) + pending_count l'
  end.

(** The bookkeeping of [Promise.allSettled] as a function of the states of
    its elements. *)
Definition settled_view (l : list (pstate value)) : joining settled :=
  {| remaining := pending_count l;
     gathered := map entry_of l;
     joined := if decide (pending_count l = 0)
               then Fulfilled (map (default (StatusFulfilled VUndefined)) (map entry_of l))
               else Pending |}.

(** [typeof allModules[sec][f] === 'function'], false when nothing is
    registered under [sec]. *)
Definition has_function (own : string -> option method) (app : Application)
    (sec f : string) : bool :=
  match allModules app !! sec with
  | Some r => is_some (lookup_method own r f)
  | None => false
  end.

(** Every slot has settled. *)
Definition all_slots_settled (p : stopping) : Prop :=
  Forall (fun s => is_pending (slot_state s) = false) (slots p).

(** The promise returned by [_stop] is the one [Promise.allSettled] keeps for
    the current states of the slots. *)
Definition coherent (p : stopping) : Prop :=
  allSettled p = Some (settled_view (map slot_state (slots p))).

(** [p] has the slots of [q], module by module, and every slot settled in
    [q] has the same state in [p]. *)
Definition extends (q p : stopping) : Prop :=
  map slot_sec (slots p) = map slot_sec (slots q) /\
  forall i s, slots q !! i = Some s -> is_pending (slot_state s) = false ->
    exists s', slots p !! i = Some s' /\ slot_state s' = slot_state s.

(** Something is registered under [sec] in the instance registry. *)
Definition registered (app : Application) (sec : string) : Prop :=
  is_Some (allModules app !! sec).

(** The plain read [allModules[sec]] gives something: an instance of the
    registry's own, or a value inherited from [Object.prototype]. *)
Definition reads (app : Application) (sec : string) : Prop :=
  registered app sec \/ inherited sec = true.

(** The slots of modules without a [stop] function hold the benign value. *)
Definition unstoppable_fulfilled (own : string -> option method)
    (app : Application) (p : stopping) : Prop :=
  forall i s, slots p !! i = Some s ->
    has_function own app (slot_sec s) "stop" = false ->
    slot_state s = Fulfilled (VStr "stop MODULE_FUNCTION_NOT_FOUND").

Definition value_of (st : pstate value) : option value :=
  match st with Fulfilled v => Some v | _ => None end.

Fixpoint unfulfilled_count (l : list (pstate value)) : nat :=
  match l with
  | [] => 0
  | st :: l' => (if is_fulfilled st then 0 else 1) + unfulfilled_count l'
  end.

(** The bookkeeping of [Promise.all] over elements none of which is rejected,
    as a function of their states. *)
Definition all_view (l : list (pstate value)) : joining value :=
  {| remaining := unfulfilled_count l;
     gathered := map value_of l;
     joined := if decide (unfulfilled_count l = 0)
               then Fulfilled (map (default VUndefined) (map value_of l))
               else Pending |}.

(** What [Promise.all] maintains while the promises of the modules settle. *)
Definition all_coherent (s : starting) : Prop :=
  remaining (all s) = unfulfilled_count (elements s) /\
  gathered (all s) = map value_of (elements s) /\
  match joined (all s) with
  | Pending =>
      0 < unfulfilled_count (elements s) /\
      Forall (fun st => is_rejected st = false) (elements s)
  | Fulfilled vs =>
      unfulfilled_count (elements s) = 0 /\
      vs = map (default VUndefined) (map value_of (elements s))
  | Rejected r => Rejected r ∈ elements s
  end.

(** The first settlement the host makes of the promise returned by the
    [i]-th [start()] call. *)
Definition settlement (evs : list (nat * outcome)) (i : nat) : option outcome :=
  snd <$> List.find (fun ev => Nat.eqb (fst ev) i) evs.

(** The state of the promise [Promise.all] awaits for the [i]-th module,
    whose [start()] returned [v], after the settlements [evs]: a promise of
    the module is pending until the host settles it and keeps its first
    settlement; any other value counts as a promise fulfilled with it. *)
Definition started_state (evs : list (nat * outcome)) (i : nat) (v : value)
  : pstate value :=
  match v with
  | VPromise =>
      match settlement evs i with
      | Some (Resolve w) => Fulfilled w
      | Some (Reject r) => Rejected r
      | None => Pending
      end
  | _ => Fulfilled v
  end.

(** The modules [_start] is meant to start: every name but the main
    application's whose instance has a [start] function. *)
Definition start_target (own : string -> option method) (app : Application)
    (sec : string) : Prop :=
  sec ≠ mainAppName /\ has_function own app sec "start" = true.

(** The name with every hyphen replaced by an underscore, as the
    specification words the first half of the prefix. *)
Fixpoint hyphens_to_underscores (s : string) : string :=
  match s with
  | EmptyString => EmptyString
  | String c s' =>
      String (if Ascii.eqb c "-" then "_"%char else c) (hyphens_to_underscores s')
  end.

(** The error-code prefix in those words. *)
Definition code_prefix `{Host} (name : string) : string :=
  toUpperCase (hyphens_to_underscores name).

(** The module-name set has no duplicates and names only keys of the
    configuration. *)
Definition modules_known (app : Application) : Prop :=
  NoDup (modules app) /\
  Forall (fun sec => hasOwnProperty (config app) sec = true) (modules app).

(** The registry refers to the application itself under no name but the
    main application's. *)
Definition self_only_at_main (app : Application) : Prop :=
  forall sec, allModules app !! sec = Some SelfApp -> sec = mainAppName.

(** The duration [_stop] gives the timer of a module. *)
Definition timeout_for (app : Application) (sec : string) : nat :=
  match allModules app !! sec with
  | Some r => default 2000 (timeout_of r)
  | None => 2000
  end.

(** ** A sample application *)

(** A function that returns a promise of the module. *)
Definition returns_promise : method := fun _ => Return VPromise.

(** A module with [start] and [stop], and no [stopTimeout]. *)
Definition sample_db : instance :=
  {| methods := fun f =>
       if String.eqb f "start" then Some returns_promise
       else if String.eqb f "stop" then Some returns_promise
       else None;
     stopTimeout := None |}.

(** A module with [stop] only, and a [stopTimeout] of 500 ms. *)
Definition sample_cache : instance :=
  {| methods := fun f => if String.eqb f "stop" then Some returns_promise else None;
     stopTimeout := Some 500 |}.

(** A module with neither [start] nor [stop]. *)
Definition sample_log : instance :=
  {| methods := fun _ => None; stopTimeout := None |}.

Definition sample_loader (dir sec : string) : result class :=
  if String.eqb sec "mbjs-app" then Return (Class (fun _ _ => Return sample_log))
  else if String.eqb sec "db" then Return (Class (fun _ _ => Return sample_db))
  else if String.eqb sec "cache" then Return (Class (fun _ _ => Return sample_cache))
  else if String.eqb sec "log" then Return (Class (fun _ _ => Return sample_log))
  else Throw (Err "Error" ("Cannot find module " +:+ sec) (Some "MODULE_NOT_FOUND")).

(** The methods of the [Application] class. *)
Definition sample_own (f : string) : option method :=
  if bool_decide (f ∈ ["setCli"; "throwError"; "require"; "init"; "start";
                       "_start"; "stop"; "_stop"; "module"; "signalInterrupt"])
  then Some (fun _ => Return VUndefined)
  else None.

(** A host for the sample.  The names of the sample are ASCII strings.
    The sample registers nothing under ["constructor"]; of the functions of
    an object made by [new Object], this host gives the one the sample
    could print it with, [toString]. *)
Definition sample_host : Host :=
  {| toUpperCase := upper;
     toUpperCase_ascii := fun s _ => eq_refl;
     Object_new := fun x =>
       {| methods := fun f =>
            if String.eqb f "toString"
            then Some (fun _ =>
                   Return (VStr match x with
                                | Inherited _ => "function Object() { [native code] }"
                                | _ => "[object Object]"
                                end))
            else None;
          stopTimeout := None |} |}.

Definition sample_config : list (string * cfg) :=
  [("mbjs-app", [("name", VStr "my-app")]); ("db", []); ("cache", []); ("log", [])].

(** The application built from [sample_config] by the constructor, [require]
    and [init]. *)
Definition sample_app : Application :=
  {| config := sample_config;
     srcdir := "/srv/lib";
     appConfig := Some [("name", VStr "my-app")];
     mainModuleCodeUpper := "MY_APP";
     modules := ["mbjs-app"; "db"; "cache"; "log"];
     AllModules :=
       <["log" := Class (fun _ _ => Return sample_log)]>
       (<["cache" := Class (fun _ _ => Return sample_cache)]>
       (<["db" := Class (fun _ _ => Return sample_db)]>
       (<["mbjs-app" := Class (fun _ _ => Return sample_log)]> ∅)));
     allModules :=
       <["log" := Mod sample_log]>
       (<["cache" := Mod sample_cache]>
       (<["db" := Mod sample_db]>
       (<["mbjs-app" := SelfApp]> ∅))) |}.

(** The application the constructor makes from a configuration that has
    the main application's entry alone. *)
Definition sample_app_fresh : Application :=
  {| config := [("mbjs-app", [("name", VStr "my-app")])];
     srcdir := "/srv/lib";
     appConfig := Some [("name", VStr "my-app")];
     mainModuleCodeUpper := "MY_APP";
     modules := ["mbjs-app"];
     AllModules := ∅;
     allModules := ∅ |}.

(** The process right after [sample_app.stop()]. *)
Definition sample_stopping : stopping := fst (_stop sample_own sample_app None).

(** ** [start] and [Application.main] *)

(** The SIGINT listeners of the process are counted: [process.on] adds one
    registration of [signalIntFunc]. *)
Definition process_on (listeners : nat) : nat := S listeners.

(** [start()] *)
Definition start (own : string -> option method) (app : Application)
    (listeners : nat) : nat * (list string * result starting) :=
  (process_on listeners, _start own app None).

(** The synchronous part of [Application.main(srcdir, conf)] for a [conf]
    that is an object, in a process without SIGINT listeners: the [start()]
    calls entered, the listeners left, and the application with the promise
    of [app.start()], or the exception that rejects the promise of [main].
    [yargs] is the value handed to every [setCli]. *)
Definition main `{Host} (loader : string -> string -> result class)
    (own : string -> option method) (srcdir0 : string)
    (conf : list (string * cfg)) (yargs : value)
  : list string * nat * result (Application * starting) :=
  match Application_new conf srcdir0 with
  | Throw e => ([], 0, Throw e)
  | Return app0 =>
      match require loader None None app0 with
      | (_, Throw e) => ([], 0, Throw e)
      | (app1, Return _) =>
          match init None app1 with
          | (_, Throw e) => ([], 0, Throw e)
          | (app2, Return _) =>
              match module own app2 (Many (modules app2)) "setCli" [yargs] with
              | Throw e => ([], 0, Throw e)
              | Return _ =>
                  match start own app2 0 with
                  | (n, (called, Throw e)) => (called, n, Throw e)
                  | (n, (called, Return s)) => (called, n, Return (app2, s))
                  end
              end
          end
      end
  end.

(** ** The older [Application] (the variant whose module-name set leaves the
    main application out) *)

(** [typeof v] *)
Definition typeof (v : value) : string :=
  match v with
  | VUndefined => "undefined"
  | VBool _ => "boolean"
  | VNum _ => "number"
  | VStr _ => "string"
  | VError _ => "object"
  | VPromise => "object"
  end.

(** The error thrown by a failed [assert.strictEqual(..., message)]. *)
Definition AssertionError (msg : string) : error :=
  Err "AssertionError" msg (Some "ERR_ASSERTION").

(** [assert.strictEqual(actual, expected, message)] on strings. *)
Definition assert_strictEqual (actual expected msg : string) : result unit :=
  if String.eqb actual expected then Return tt else Throw (AssertionError msg).

Module Legacy.

Definition mainAppName : string := "app".

(** [new Application(config, srcdir)]; this class has no [appConfig]. *)
Definition Application_new `{Host} (config0 : list (string * cfg)) (srcdir0 : string)
  : result Application :=
  match obj_get config0 mainAppName with
  | None => Throw (TypeError "Cannot read properties of undefined (reading 'name')")
  | Some main =>
      match obj_get main "name" with
      | Some (VStr name) =>
          Return {| config := config0;
                    srcdir := srcdir0;
                    appConfig := None;
                    mainModuleCodeUpper := toUpperCase (join "_" (split "-" name));
                    modules := filter (fun nm => nm ≠ mainAppName) (Object_keys config0);
                    AllModules := ∅;
                    allModules := ∅ |}
      | _ => Throw (TypeError "config[Application.mainAppName].name.split is not a function")
      end
  end.

(** The body of the loop of [require]: the assertion compares [typeof sec]
    with ['sec']; what follows it is the body of the newer [require]. *)
Definition require_body (loader : string -> string -> result class)
    (conf : cfg) (sec : string) : action :=
  fun app =>
    match assert_strictEqual (typeof (VStr sec)) "sec" "modules MUST_BE_STRING" with
    | Throw e => (app, Throw e)
    | Return _ => require_step loader conf sec app
    end.

(** [require(modules, conf = {})] *)
Definition require (loader : string -> string -> result class)
    (names : option (list string)) (conf : option cfg) : action :=
  fun app => forEach (require_body loader (default [] conf)) (names_or_all names app) app.

(** [start(modules)]: every name is mapped, without a filter. *)
Definition start (own : string -> option method) (app : Application)
    (names : option (list string)) : list string * result starting :=
  match map_start own app (names_or_all names app) with
  | (called, Throw e) => (called, Throw e)
  | (called, Return vs) =>
      let elems := map Promise_resolve vs in
      (called, Return {| elements := elems; all := Promise_all elems |})
  end.

(** The map callback of [stop]: everything happens inside the promise
    executor, so that every exception rejects the promise.  A name without
    an instance of its own reads what the registry inherits, a built-in
    without [stopTimeout] and without a [stop] function (the timer is set
    before the call of [stop] fails), or [undefined], whose first property
    read throws. *)
Definition stop_one (own : string -> option method) (app : Application)
    (sec : string) (p : stopping) : stopping :=
  match allModules app !! sec with
  | None =>
      if inherited sec
      then push_slot (Slot sec (Rejected (VError (TypeError
             "this.allModules[sec].stop is not a function"))) false)
             (setTimeout sec 2000 (length (slots p)) p)
      else push_slot (Slot sec (Rejected (VError (TypeError
             "Cannot read properties of undefined (reading 'stopTimeout')"))) false) p
  | Some r =>
      let tm := match timeout_of r with None => 2000 | Some t => t end in
      let i := length (slots p) in
      let p1 := setTimeout sec tm i p in
      match lookup_method own r "stop" with
      | None =>
          push_slot (Slot sec (Rejected (VError (TypeError
            "this.allModules[sec].stop is not a function"))) false) p1
      | Some stop_f =>
          let p2 := record_stop sec p1 in
          match stop_f [] with
          | Throw e => push_slot (Slot sec (Rejected (VError e)) false) p2
          | Return VPromise => push_slot (Slot sec Pending true) p2
          | Return _ =>
              push_slot (Slot sec (Rejected (VError (TypeError
                "this.allModules[sec].stop(...).then is not a function"))) false) p2
          end
      end
  end.

(** [stop(modules)] *)
Definition stop (own : string -> option method) (app : Application)
    (names : option (list string)) : stopping :=
  let p := fold_left (fun p sec => stop_one own app sec p)
                     (names_or_all names app) stopping_init in
  set_slots (slots p) (Some (Promise_allSettled (map slot_state (slots p)))) p.

End Legacy.

(** ** Further notions used to state the properties *)

(** Every key of the configuration is in the module-name set. *)
Definition modules_cover (app : Application) : Prop :=
  forall sec, hasOwnProperty (config app) sec = true -> sec ∈ modules app.

(** Every name with a class in the registry has a configuration. *)
Definition classes_configured (app : Application) : Prop :=
  forall sec, is_Some (AllModules app !! sec) ->
    hasOwnProperty (config app) sec = true.

(** The instance [init] makes for a name other than the main application's:
    what the class of that name constructs from what the configuration
    reads under the name, or, without a class of its own and under the name
    ["constructor"], what the built-in [Object] makes of it. *)
Definition made_by_init `{Host} (app : Application) (sec : string) (i : instance)
  : Prop :=
  match AllModules app !! sec with
  | Some cls =>
      construct cls (plain_read (obj_get (config app) sec) sec) (mainModuleCodeUpper app)
      = Return i
  | None =>
      sec = "constructor" /\
      i = Object_new (plain_read (obj_get (config app) sec) sec)
  end.

(** What the dispatcher collects for one name: the value its function
    returns, nothing when the instance has no such function. *)
Definition call_value (own : string -> option method) (app : Application)
    (func : string) (params : list value) (sec : string) : option value :=
  match allModules app !! sec with
  | Some r =>
      match lookup_method own r func with
      | Some m => match m params with Return v => Some v | Throw _ => None end
      | None => None
      end
  | None => None
  end.

(** The state in which [_stop] leaves the promise of a module that has a
    [stop] function, by what [stop()] did. *)
Definition first_slot_state (called : result value) : pstate value * bool :=
  match called with
  | Throw e => (Rejected (VError e), false)
  | Return VPromise => (Pending, true)
  | Return _ =>
      (Rejected (VError (TypeError
         "this.allModules[sec].stop(...).then is not a function")), false)
  end.

(** A character that upper-casing and the replacement of hyphens leave in
    a prefix: neither a hyphen nor one of a-z. *)
Definition prefix_char (c : ascii) : Prop :=
  c <> "-"%char /\ (Ascii.leb "a" c && Ascii.leb c "z")%bool = false.

(** What [require] keeps of an application [a] in the application [a'] it
    leaves: the source directory, the prefix, the instances, the
    configuration of every key [a] has, and the module names of [a] as the
    first names of [a']. *)
Definition require_keeps (a a' : Application) : Prop :=
  srcdir a' = srcdir a /\
  appConfig a' = appConfig a /\
  mainModuleCodeUpper a' = mainModuleCodeUpper a /\
  allModules a' = allModules a /\
  (forall k, hasOwnProperty (config a) k = true ->
     obj_get (config a') k = obj_get (config a) k) /\
  modules a `prefix_of` modules a'.

(** The promises, timers and handles [_stop] has made so far fit together:
    the handles are 0, 1, ... in the order of the timers, and every timer
    closes over the [reject] of the promise of its own module. *)
Definition timers_fit (p : stopping) : Prop :=
  map timer_id (timers p) = seq 0 (next_timer p) /\
  Forall (fun t => exists s, slots p !! timer_slot t = Some s /\
                             slot_sec s = timer_sec t /\
                             slot_awaiting s = is_pending (slot_state s))
         (timers p).

(** What the state of the promise of [sec] must be right after [_stop]. *)
Definition slot_as_made (own : string -> option method) (app : Application)
    (s : slot) : Prop :=
  match allModules app !! slot_sec s with
  | Some r =>
      match lookup_method own r "stop" with
      | None => slot_state s = Fulfilled (VStr "stop MODULE_FUNCTION_NOT_FOUND") /\
                slot_awaiting s = false
      | Some m => (slot_state s, slot_awaiting s) = first_slot_state (m [])
      end
  | None => slot_state s = Fulfilled (VStr "stop MODULE_FUNCTION_NOT_FOUND") /\
            slot_awaiting s = false
  end.

(** A module whose [start()] and [stop()] throw synchronously. *)
Definition sample_faulty : instance :=
  {| methods := fun f =>
       if String.eqb f "start" then Some (fun _ => Throw (Err "Error" "no route" None))
       else if String.eqb f "stop" then Some (fun _ => Throw (Err "Error" "no route" None))
       else None;
     stopTimeout := None |}.

(** [sample_app] with the faulty module registered last, under ["net"]. *)
Definition sample_app_faulty : Application :=
  set_instance sample_app "net" (Mod sample_faulty).

(** [sample_config] with one more module, which [sample_loader] cannot
    find. *)
Definition sample_config_missing : list (string * cfg) :=
  sample_config ++ [("queue", [])].

(** A configuration for the older class. *)
Definition sample_config_legacy : list (string * cfg) :=
  [("app", [("name", VStr "my-app")]); ("db", [])].

(** * Properties *)

Section Properties.
Context `{host : Host}.

(** ** [Promise.allSettled] *)

Lemma pending_count_app l1 l2 :
  pending_count (l1 ++ l2) = pending_count l1 + pending_count l2.
Proof. induction l1 as [|st l1 IH]; simpl; [done | rewrite IH; lia]. Qed.

Lemma notify_from_settled_view pre suf :
  notify_from allSettled_notify (length pre) suf
    {| remaining := pending_count pre + length suf;
       gathered := map entry_of pre ++ replicate (length suf) None;
       joined := if decide (pending_count pre + length suf = 0)
                 then Fulfilled (map (default (StatusFulfilled VUndefined))
                                     (map entry_of pre ++ replicate (length suf) None))
                 else Pending |}
  = settled_view (pre ++ suf).
Proof.
  revert pre. induction suf as [|st suf IH]; intros pre.
  - simpl. rewrite !app_nil_r, Nat.add_0_r. reflexivity.
  - assert (Hstore : forall x : settled,
      <[length pre := Some x]> (map entry_of pre ++ replicate (length (st :: suf)) None)
      = map entry_of (pre ++ [match x with
                              | StatusFulfilled v => Fulfilled v
                              | StatusRejected r => Rejected r
                              end]) ++ replicate (length suf) None).
    { intros x. rewrite map_app, <- app_assoc. simpl.
      replace (length pre) with (length (map entry_of pre) + 0)
        by (rewrite length_map; lia).
      rewrite insert_app_r. simpl. by destruct x. }
    specialize (IH (pre ++ [st])).
    rewrite length_app, pending_count_app in IH. simpl in IH.
    rewrite <- app_assoc in IH. simpl in IH.
    replace (length pre + 1) with (S (length pre)) in IH by lia.
    rewrite <- IH. clear IH. cbn [notify_from]. f_equal.
    destruct st as [|v|r]; cbn [allSettled_notify is_pending].
    + f_equal; [simpl; lia | by rewrite map_app, <- app_assoc | ].
      repeat case_decide; simpl in *; try lia; done.
    + unfold join_store, join_close. cbn [remaining gathered joined].
      rewrite (Hstore (StatusFulfilled v)).
      f_equal; [simpl; lia | ].
      repeat case_decide; simpl in *; try lia; done.
    + unfold join_store, join_close. cbn [remaining gathered joined].
      rewrite (Hstore (StatusRejected r)).
      f_equal; [simpl; lia | ].
      repeat case_decide; simpl in *; try lia; done.
Qed.

Lemma Promise_allSettled_view l : Promise_allSettled l = settled_view l.
Proof.
  unfold Promise_allSettled, join_open, join_close. cbn [remaining gathered joined].
  replace (1 + length l - 1) with (pending_count [] + length l) by (simpl; lia).
  exact (notify_from_settled_view [] l).
Qed.

Lemma pending_count_insert l i st :
  l !! i = Some Pending -> is_pending st = false ->
  S (pending_count (<[i := st]> l)) = pending_count l.
Proof.
  revert i. induction l as [|x l IH]; intros [|i] Hi Hst; simplify_eq/=.
  - rewrite Hst. simpl. lia.
  - rewrite <- (IH i Hi Hst). lia.
Qed.

Lemma entry_of_insert l i st :
  <[i := entry_of st]> (map entry_of l) = map entry_of (<[i := st]> l).
Proof. symmetry. apply (list_fmap_insert entry_of). Qed.

(** Settling a pending element moves the bookkeeping to that of the new
    states. *)
Lemma allSettled_notify_view l i st :
  l !! i = Some Pending -> is_pending st = false ->
  allSettled_notify i st (settled_view l) = settled_view (<[i := st]> l).
Proof.
  intros Hi Hst. pose proof (pending_count_insert l i st Hi Hst) as Hc.
  destruct st as [|v|r]; [done | |];
    unfold allSettled_notify, join_store, join_close, settled_view;
    cbn [remaining gathered joined].
  - pose proof (entry_of_insert l i (Fulfilled v)) as He.
    cbn [entry_of] in He. rewrite He.
    f_equal; [lia | ]. repeat case_decide; simpl; try lia; done.
  - pose proof (entry_of_insert l i (Rejected r)) as He.
    cbn [entry_of] in He. rewrite He.
    f_equal; [lia | ]. repeat case_decide; simpl; try lia; done.
Qed.

(** ** Invariants of the event loop *)

(** A property kept by the five ways the handlers touch the process is kept
    by every turn of the event loop. *)
Lemma step_preserves (P : stopping -> Prop) :
  (forall args p, P p -> P (console_error args p)) ->
  (forall arg p, P p -> P (clearTimeout arg p)) ->
  (forall i p, P p -> P (heard i p)) ->
  (forall i st p, is_pending st = false -> P p -> P (settle_slot i st p)) ->
  (forall e p, P p -> P (crash e p)) ->
  forall ev p, P p -> P (step ev p).
Proof.
  intros Hlog Hclear Hheard Hsettle Hcrash ev p Hp.
  unfold step. destruct (uncaught p); [done | ].
  destruct ev as [i o | id].
  - destruct (slots p !! i) as [s|]; [ | done].
    destruct (slot_awaiting s); [ | done].
    destruct o as [v | er]; unfold on_stopped, on_stop_failed; auto 10.
  - destruct (find_timer id p) as [t|]; [ | done].
    unfold tmFunc. apply Hcrash. auto.
Qed.

Lemma run_preserves (P : stopping -> Prop) :
  (forall ev p, P p -> P (step ev p)) ->
  forall evs p, P p -> P (run evs p).
Proof.
  intros Hstep evs. unfold run.
  induction evs as [|ev evs IH]; intros p Hp; simpl; auto.
Qed.

Lemma settle_slot_coherent i st p :
  is_pending st = false -> coherent p -> coherent (settle_slot i st p).
Proof.
  unfold coherent, settle_slot. intros Hst Hp.
  destruct (slots p !! i) as [s|] eqn:Hi; [ | done].
  destruct (is_pending (slot_state s)) eqn:Hs; [ | done].
  cbn [set_slots allSettled slots]. rewrite Hp. simpl. f_equal.
  rewrite (list_fmap_insert slot_state). cbn [slot_state].
  apply allSettled_notify_view; [ | done].
  rewrite list_lookup_fmap, Hi. simpl.
  by destruct (slot_state s).
Qed.

Lemma heard_states i p : map slot_state (slots (heard i p)) = map slot_state (slots p).
Proof.
  unfold heard. destruct (slots p !! i) as [s|] eqn:Hi; [ | done].
  cbn [set_slots slots]. rewrite (list_fmap_insert slot_state). cbn [slot_state].
  apply list_insert_id. by rewrite list_lookup_fmap, Hi.
Qed.

Lemma step_coherent ev p : coherent p -> coherent (step ev p).
Proof.
  apply step_preserves; try done.
  - by intros [] ?.
  - intros i q Hq. unfold coherent in *. rewrite heard_states.
    unfold heard. by destruct (slots q !! i).
  - intros. by apply settle_slot_coherent.
Qed.

Lemma run_coherent evs p : coherent p -> coherent (run evs p).
Proof. apply run_preserves. apply step_coherent. Qed.

(** ** What [_stop] leaves behind *)

Section Stop.
Variable own : string -> option method.
Variable app : Application.

Local Abbreviation stoppable := (fun sec => has_function own app sec "stop" = true).

Lemma stop_one_spec sec p p' :
  stop_one own app sec p = (p', Return tt) ->
  map slot_sec (slots p') = map slot_sec (slots p) ++ [sec] /\
  stop_calls p' = stop_calls p ++ filter stoppable [sec] /\
  allSettled p' = allSettled p /\
  uncaught p' = uncaught p.
Proof.
  unfold stop_one, has_function. intros H.
  rewrite filter_cons, filter_nil.
  destruct (allModules app !! sec) as [r|];
    [ | destruct (inherited sec); simplify_eq/=; by rewrite map_app, app_nil_r].
  destruct (lookup_method own r "stop") as [stop|]; simpl.
  - try rewrite decide_True by done.
    destruct (stop []) as [[]|e]; simplify_eq/=;
      by rewrite map_app.
  - try rewrite decide_False by done. simplify_eq/=.
    by rewrite map_app, app_nil_r.
Qed.

Lemma map_stop_spec secs p p' :
  map_stop own app secs p = (p', Return tt) ->
  map slot_sec (slots p') = map slot_sec (slots p) ++ secs /\
  stop_calls p' = stop_calls p ++ filter stoppable secs /\
  allSettled p' = allSettled p /\
  uncaught p' = uncaught p.
Proof.
  revert p. induction secs as [|sec secs IH]; intros p H; simpl in H.
  - simplify_eq. by rewrite filter_nil, !app_nil_r.
  - destruct (stop_one own app sec p) as [p1 [[]|e]] eqn:H1; [ | done].
    apply stop_one_spec in H1 as (Hs1 & Hc1 & Ha1 & Hu1).
    apply IH in H as (Hs & Hc & Ha & Hu).
    rewrite Hs, Hc, Ha, Hu, Hs1, Hc1, Ha1, Hu1.
    rewrite (filter_cons _ sec secs), filter_cons, filter_nil.
    rewrite <- !app_assoc. simpl. split_and!; try done.
    by case_decide.
Qed.

Lemma _stop_spec names p0 :
  _stop own app names = (p0, Return tt) ->
  map slot_sec (slots p0)
    = filter (fun sec => sec ≠ mainAppName) (names_or_all names app) /\
  stop_calls p0
    = filter stoppable (filter (fun sec => sec ≠ mainAppName) (names_or_all names app)) /\
  coherent p0 /\
  uncaught p0 = None.
Proof.
  unfold _stop. intros H.
  destruct (map_stop own app _ stopping_init) as [p1 [[]|e]] eqn:H1; [ | done].
  apply map_stop_spec in H1 as (Hs & Hc & _ & Hu).
  simplify_eq. unfold coherent. cbn [set_slots slots stop_calls allSettled uncaught].
  rewrite Promise_allSettled_view. done.
Qed.

End Stop.

Lemma step_stop_calls ev p : stop_calls (step ev p) = stop_calls p.
Proof.
  apply (step_preserves (fun q => stop_calls q = stop_calls p)); try done.
  - by intros [] ?.
  - intros i q. unfold heard. by destruct (slots q !! i).
  - intros i st q _. unfold settle_slot.
    destruct (slots q !! i) as [s|]; [ | done]. by destruct (is_pending _).
Qed.

Lemma run_stop_calls evs p : stop_calls (run evs p) = stop_calls p.
Proof.
  apply (run_preserves (fun q => stop_calls q = stop_calls p)); [ | done].
  intros ev q <-. apply step_stop_calls.
Qed.

Lemma settled_view_joined l :
  is_rejected (joined (settled_view l)) = false /\
  (is_pending (joined (settled_view l)) = false
   <-> Forall (fun st => is_pending st = false) l) /\
  forall results, joined (settled_view l) = Fulfilled results ->
    Forall2 (fun st pm => entry_of st = Some pm) l results.
Proof.
  unfold settled_view. cbn [joined].
  assert (Hc : pending_count l = 0 <-> Forall (fun st => is_pending st = false) l).
  { induction l as [|st l IH]; simpl; [by split; [constructor|] | ].
    rewrite Forall_cons. destruct (is_pending st); simpl; [ | tauto].
    split; [lia | by intros [? _]]. }
  case_decide as H0; simpl; split_and!; try done.
  - split; [intros _; by apply Hc | done].
  - intros results [= <-]. apply Hc in H0. clear Hc.
    induction H0 as [|st l Hst _ IH]; simpl; constructor; [ | done].
    by destruct st.
  - split; [done | ]. intros Hall. by apply Hc in Hall.
Qed.


(** ** Slots keep their module, and settled slots keep their state *)

Lemma extends_refl q : extends q q.
Proof. split; [done | ]. intros i s Hi _. by exists s. Qed.

Lemma extends_heard q i p : extends q p -> extends q (heard i p).
Proof.
  intros [Hsec Hst]. unfold heard.
  destruct (slots p !! i) as [s|] eqn:Hi; [ | done].
  unfold set_slots. split; cbn [slots].
  - rewrite (list_fmap_insert slot_sec). cbn [slot_sec].
    rewrite list_insert_id; [done | by rewrite list_lookup_fmap, Hi].
  - intros k s0 Hk Hs0. destruct (Hst k s0 Hk Hs0) as (s' & Hk' & Hs').
    destruct (decide (i = k)) as [->|Hne].
    + rewrite list_lookup_insert_eq by (by eapply lookup_lt_Some).
      eexists. split; [done | ]. simplify_eq. done.
    + rewrite list_lookup_insert_ne by done. eauto.
Qed.

Lemma extends_settle_slot q i st p : extends q p -> extends q (settle_slot i st p).
Proof.
  intros [Hsec Hst]. unfold settle_slot.
  destruct (slots p !! i) as [s|] eqn:Hi; [ | done].
  destruct (is_pending (slot_state s)) eqn:Hs; [ | done].
  unfold set_slots. split; cbn [slots].
  - rewrite (list_fmap_insert slot_sec). cbn [slot_sec].
    rewrite list_insert_id; [done | by rewrite list_lookup_fmap, Hi].
  - intros k s0 Hk Hs0. destruct (Hst k s0 Hk Hs0) as (s' & Hk' & Hs').
    destruct (decide (i = k)) as [->|Hne].
    + simplify_eq. congruence.
    + rewrite list_lookup_insert_ne by done. eauto.
Qed.

Lemma step_extends q ev p : extends q p -> extends q (step ev p).
Proof.
  apply step_preserves; try done.
  - by intros [] ?.
  - intros. by apply extends_heard.
  - intros. by apply extends_settle_slot.
Qed.

Lemma run_extends evs p : extends p (run evs p).
Proof.
  apply (run_preserves (extends p)); [ | apply extends_refl].
  intros. by apply step_extends.
Qed.

(** ** Modules without a [stop] function *)

Lemma stop_one_returns own app sec p :
  registered app sec -> exists p', stop_one own app sec p = (p', Return tt).
Proof.
  intros [r Hr]. unfold stop_one. rewrite Hr.
  destruct (lookup_method own r "stop") as [stop|]; [ | eauto].
  destruct (stop []) as [[]|e]; eauto.
Qed.

Lemma map_stop_returns own app secs p :
  Forall (registered app) secs ->
  exists p', map_stop own app secs p = (p', Return tt).
Proof.
  intros Hall. revert p.
  induction Hall as [|sec secs Hsec _ IH]; intros p; simpl; [eauto | ].
  destruct (stop_one_returns own app sec p Hsec) as [p1 ->]. apply IH.
Qed.

Lemma _stop_returns own app names :
  Forall (fun sec => sec ≠ mainAppName -> registered app sec)
         (names_or_all names app) ->
  exists p0, _stop own app names = (p0, Return tt).
Proof.
  intros Hall. unfold _stop.
  destruct (map_stop_returns own app
              (filter (fun sec => sec ≠ mainAppName) (names_or_all names app))
              stopping_init) as [p1 ->]; [ | eauto].
  apply Forall_forall. intros sec [Hne Hin]%list_elem_of_filter.
  rewrite Forall_forall in Hall. auto.
Qed.

Lemma stop_one_unstoppable own app sec p p' :
  stop_one own app sec p = (p', Return tt) ->
  unstoppable_fulfilled own app p -> unstoppable_fulfilled own app p'.
Proof.
  unfold stop_one. intros H Hp i s Hi Hno.
  assert (Hnew : forall s0 q,
    slots q = slots p ->
    (has_function own app sec "stop" = false ->
     slot_state s0 = Fulfilled (VStr "stop MODULE_FUNCTION_NOT_FOUND")) ->
    slot_sec s0 = sec ->
    p' = push_slot s0 q ->
    slot_state s = Fulfilled (VStr "stop MODULE_FUNCTION_NOT_FOUND")).
  { intros s0 q Hq Hs0 Hsec ->. cbn [push_slot set_slots slots] in Hi.
    rewrite Hq in Hi.
    apply lookup_app_Some in Hi as [Hi | [_ Hi]]; [by eapply Hp | ].
    apply list_lookup_singleton_Some in Hi as [_ <-].
    apply Hs0. by rewrite <- Hsec. }
  destruct (allModules app !! sec) as [r|] eqn:Hr.
  2: { destruct (inherited sec); [ | done]. simplify_eq.
       eapply (Hnew _ p); [ | | | reflexivity]; done. }
  assert (Hhas : forall stop, lookup_method own r "stop" = Some stop ->
    has_function own app sec "stop" = false -> False).
  { intros stop Hstop. unfold has_function. by rewrite Hr, Hstop. }
  destruct (lookup_method own r "stop") as [stop|] eqn:Hstop.
  - destruct (stop []) as [[]|e]; simplify_eq;
      (eapply Hnew; [ | | | reflexivity]; [done | | done]);
      intros Hf; by destruct (Hhas stop eq_refl Hf).
  - simplify_eq. eapply (Hnew _ p); [ | | | reflexivity]; done.
Qed.

Lemma map_stop_unstoppable own app secs p p' :
  map_stop own app secs p = (p', Return tt) ->
  unstoppable_fulfilled own app p -> unstoppable_fulfilled own app p'.
Proof.
  revert p. induction secs as [|sec secs IH]; intros p H Hp; simpl in H.
  - by simplify_eq.
  - destruct (stop_one own app sec p) as [p1 [[]|e]] eqn:H1; [ | done].
    eapply IH; [done | ]. by eapply stop_one_unstoppable.
Qed.

Lemma _stop_unstoppable own app names p0 :
  _stop own app names = (p0, Return tt) -> unstoppable_fulfilled own app p0.
Proof.
  unfold _stop. intros H.
  destruct (map_stop own app _ stopping_init) as [p1 [[]|e]] eqn:H1; [ | done].
  simplify_eq. apply map_stop_unstoppable in H1; [done | ].
  intros i s Hi. done.
Qed.

Lemma run_unstoppable own app evs p :
  unstoppable_fulfilled own app p -> unstoppable_fulfilled own app (run evs p).
Proof.
  intros Hp i s Hi Hno. destruct (run_extends evs p) as [Hsec Hst].
  assert (Hi0 : exists s0, slots p !! i = Some s0 /\ slot_sec s0 = slot_sec s).
  { assert (Hl : map slot_sec (slots (run evs p)) !! i = Some (slot_sec s))
      by (by rewrite list_lookup_fmap, Hi).
    rewrite Hsec, list_lookup_fmap in Hl.
    destruct (slots p !! i) as [s0|]; simplify_eq/=. eauto. }
  destruct Hi0 as (s0 & Hi0 & Hsec0).
  assert (Hs0 : slot_state s0 = Fulfilled (VStr "stop MODULE_FUNCTION_NOT_FOUND"))
    by (apply (Hp i s0 Hi0); congruence).
  destruct (Hst i s0 Hi0) as (s' & Hi' & Hs'); [by rewrite Hs0 | ].
  simplify_eq. congruence.
Qed.

(** ** Stopping: the settle-all join *)


(** C5. For every module of the (sub)set that has no [stop] function, the
    promise [_stop] makes for it is fulfilled from the start, with the
    value ['stop MODULE_FUNCTION_NOT_FOUND'], and stays so; hence the promise
    returned by [_stop] is fulfilled as soon as the promises of the modules
    that do have a [stop] function are settled. *)
Theorem stop_without_stop_function_fulfilled own app names :
  Forall (fun sec => sec ≠ mainAppName -> registered app sec)
         (names_or_all names app) ->
  exists p0,
    _stop own app names = (p0, Return tt) /\
    forall evs,
      map slot_sec (slots (run evs p0))
        = filter (fun sec => sec ≠ mainAppName) (names_or_all names app) /\
      (forall i s, slots (run evs p0) !! i = Some s ->
         has_function own app (slot_sec s) "stop" = false ->
         slot_state s = Fulfilled (VStr "stop MODULE_FUNCTION_NOT_FOUND")) /\
      ((forall i s, slots (run evs p0) !! i = Some s ->
          has_function own app (slot_sec s) "stop" = true ->
          is_pending (slot_state s) = false) ->
       exists j results,
         allSettled (run evs p0) = Some j /\ joined j = Fulfilled results).
Proof.
  intros Hreg. destruct (_stop_returns own app names Hreg) as [p0 H].
  exists p0. split; [done | ]. intros evs.
  pose proof (run_unstoppable own app evs p0 (_stop_unstoppable _ _ _ _ H)) as Hun.
  apply _stop_spec in H as (Hs & _ & Hco & _).
  destruct (run_extends evs p0) as [Hsec _].
  split_and!; [by rewrite Hsec | done | ].
  intros Hstopped. pose proof (run_coherent evs p0 Hco) as Hrun.
  destruct (settled_view_joined (map slot_state (slots (run evs p0))))
    as (Hrej & Hpend & _).
  assert (Hall : Forall (fun st => is_pending st = false)
                        (map slot_state (slots (run evs p0)))).
  { rewrite Forall_fmap. apply Forall_lookup. intros i s Hi. simpl.
    destruct (has_function own app (slot_sec s) "stop") eqn:Hf.
    - by eapply Hstopped.
    - by rewrite (Hun i s Hi Hf). }
  apply Hpend in Hall.
  destruct (joined (settled_view (map slot_state (slots (run evs p0)))))
    as [|results|r] eqn:Hj; [done | | done].
  eexists _, results. split; [exact Hrun | done].
Qed.

(** ** Starting: the fail-fast join *)

Lemma unfulfilled_count_app l1 l2 :
  unfulfilled_count (l1 ++ l2) = unfulfilled_count l1 + unfulfilled_count l2.
Proof. induction l1 as [|st l1 IH]; simpl; [done | rewrite IH; lia]. Qed.

Lemma unfulfilled_count_0 l :
  unfulfilled_count l = 0 <-> Forall (fun st => is_fulfilled st = true) l.
Proof.
  induction l as [|st l IH]; simpl; [by split; [constructor|] | ].
  rewrite Forall_cons. destruct (is_fulfilled st); simpl; [tauto | ].
  split; [lia | by intros [? _]].
Qed.

Lemma notify_from_all_view pre suf :
  Forall (fun st => is_rejected st = false) suf ->
  notify_from all_notify (length pre) suf
    {| remaining := unfulfilled_count pre + length suf;
       gathered := map value_of pre ++ replicate (length suf) None;
       joined := if decide (unfulfilled_count pre + length suf = 0)
                 then Fulfilled (map (default VUndefined)
                                     (map value_of pre ++ replicate (length suf) None))
                 else Pending |}
  = all_view (pre ++ suf).
Proof.
  intros Hsuf. revert pre.
  induction Hsuf as [|st suf Hst _ IH]; intros pre.
  - simpl. rewrite !app_nil_r, Nat.add_0_r. reflexivity.
  - specialize (IH (pre ++ [st])).
    rewrite length_app, unfulfilled_count_app in IH. simpl in IH.
    rewrite <- app_assoc in IH. simpl in IH.
    replace (length pre + 1) with (S (length pre)) in IH by lia.
    rewrite <- IH. clear IH. cbn [notify_from]. f_equal.
    destruct st as [|v|r]; [ | | done]; cbn [all_notify is_fulfilled].
    + f_equal; [simpl; lia | by rewrite map_app, <- app_assoc | ].
      repeat case_decide; simpl in *; try lia; done.
    + unfold join_store, join_close. cbn [remaining gathered joined].
      assert (Hstore :
        <[length pre := Some v]> (map value_of pre ++ replicate (length (Fulfilled v :: suf)) None)
        = map value_of (pre ++ [Fulfilled v]) ++ replicate (length suf) None).
      { rewrite map_app, <- app_assoc. simpl.
        replace (length pre) with (length (map value_of pre) + 0)
          by (rewrite length_map; lia).
        by rewrite insert_app_r. }
      rewrite Hstore.
      f_equal; [simpl; lia | ].
      repeat case_decide; simpl in *; try lia; done.
Qed.

Lemma Promise_all_view l :
  Forall (fun st => is_rejected st = false) l -> Promise_all l = all_view l.
Proof.
  intros Hl. unfold Promise_all, join_open, join_close.
  cbn [remaining gathered joined].
  replace (1 + length l - 1) with (unfulfilled_count [] + length l) by (simpl; lia).
  exact (notify_from_all_view [] l Hl).
Qed.

Lemma all_view_coherent l :
  Forall (fun st => is_rejected st = false) l ->
  all_coherent {| elements := l; all := all_view l |}.
Proof.
  intros Hl. unfold all_coherent, all_view. cbn [elements all remaining gathered joined].
  split_and!; try done. case_decide; [done | ]. split; [lia | done].
Qed.

Lemma unfulfilled_count_fulfil l i v :
  l !! i = Some Pending ->
  S (unfulfilled_count (<[i := Fulfilled v]> l)) = unfulfilled_count l.
Proof.
  revert i. induction l as [|x l IH]; intros [|i] Hi; simplify_eq/=; [lia | ].
  rewrite <- (IH i Hi). lia.
Qed.

Lemma unfulfilled_count_reject l i r :
  l !! i = Some Pending ->
  unfulfilled_count (<[i := Rejected r]> l) = unfulfilled_count l.
Proof.
  revert i. induction l as [|x l IH]; intros [|i] Hi; simplify_eq/=; [lia | ].
  by rewrite (IH i Hi).
Qed.

Lemma value_of_reject l i r :
  l !! i = Some Pending ->
  map value_of (<[i := Rejected r]> l) = map value_of l.
Proof.
  intros Hi. rewrite (list_fmap_insert value_of). simpl.
  apply list_insert_id. by rewrite list_lookup_fmap, Hi.
Qed.

Lemma start_settles_coherent i o s :
  all_coherent s -> all_coherent (start_settles i o s).
Proof.
  intros (Hrem & Hgat & Hj). unfold start_settles.
  destruct (elements s !! i) as [[| |]|] eqn:Hi; try done.
  assert (Hlt : i < length (elements s)) by (by eapply lookup_lt_Some).
  destruct o as [v | r]; unfold all_coherent;
    cbn [pstate_of all_notify elements all].
  - pose proof (unfulfilled_count_fulfil _ _ v Hi) as Hc.
    unfold join_store, join_close. cbn [remaining gathered joined].
    rewrite Hrem, Hgat.
    change (Some v) with (value_of (Fulfilled v)).
    rewrite <- (list_fmap_insert value_of).
    split_and!; [lia | done | ].
    destruct (joined (all s)) as [|vs|r0]; simpl.
    + destruct Hj as [Hpos Hnorej]. case_decide as H0; simpl.
      * split; [lia | done].
      * split; [lia | ]. apply Forall_insert; done.
    + destruct Hj as [H0 _]. lia.
    + assert (Hin : Rejected r0 ∈ <[i := Fulfilled v]> (elements s)).
      { apply list_elem_of_lookup in Hj as [k Hk].
        apply list_elem_of_lookup. exists k.
        rewrite list_lookup_insert_ne; [done | ]. intros ->. congruence. }
      by case_decide.
  - unfold join_reject. cbn [remaining gathered joined].
    rewrite Hrem, Hgat, unfulfilled_count_reject, value_of_reject by done.
    split_and!; try done.
    destruct (joined (all s)) as [|vs|r0]; simpl.
    + apply list_elem_of_lookup. exists i. by rewrite list_lookup_insert_eq.
    + destruct Hj as [H0 _]. split; [done | ].
      apply unfulfilled_count_0 in H0.
      rewrite Forall_lookup in H0. by specialize (H0 i _ Hi).
    + apply list_elem_of_lookup in Hj as [k Hk].
      apply list_elem_of_lookup. exists k.
      rewrite list_lookup_insert_ne; [done | ]. intros ->. congruence.
Qed.

Lemma run_start_coherent evs s : all_coherent s -> all_coherent (run_start evs s).
Proof.
  unfold run_start. revert s.
  induction evs as [|[i o] evs IH]; intros s Hs; simpl; [done | ].
  apply IH. by apply start_settles_coherent.
Qed.

Section Start.
Variable own : string -> option method.
Variable app : Application.

Lemma filter_names_spec l secs :
  filter_names (start_wanted own app) l = Return secs ->
  secs = filter (start_target own app) l.
Proof.
  revert secs. induction l as [|sec l IH]; intros secs H; simpl in H.
  - by simplify_eq.
  - destruct (start_wanted own app sec) as [b|e] eqn:Hb; [ | done].
    destruct (filter_names (start_wanted own app) l) as [kept|e]; [ | done].
    simplify_eq. rewrite filter_cons, <- (IH kept eq_refl).
    unfold start_wanted in Hb. unfold start_target, has_function.
    destruct (String.eqb_spec sec mainAppName) as [->|Hne]; simpl in Hb.
    + simplify_eq. rewrite decide_False; [done | ]. by intros [? _].
    + destruct (allModules app !! sec) as [r|].
      2: { destruct (inherited sec); simplify_eq.
           rewrite decide_False; [done | ]. by intros [_ ?]. }
      simplify_eq.
      destruct (is_some (lookup_method own r "start")) eqn:Hs.
      * by rewrite decide_True.
      * rewrite decide_False; [done | ]. by intros [_ ?].
Qed.

Lemma filter_names_returns l :
  Forall (fun sec => sec ≠ mainAppName -> registered app sec) l ->
  exists secs, filter_names (start_wanted own app) l = Return secs.
Proof.
  induction 1 as [|sec l Hsec _ [kept IH]]; simpl; [eauto | ].
  rewrite IH. unfold start_wanted.
  destruct (String.eqb_spec sec mainAppName) as [->|Hne]; simpl; [eauto | ].
  destruct (Hsec Hne) as [r ->]. eauto.
Qed.

Lemma map_start_called l called res :
  map_start own app l = (called, res) ->
  called `prefix_of` l /\
  forall vs, res = Return vs -> called = l /\ length vs = length l.
Proof.
  revert called res. induction l as [|sec l IH]; intros called res H; simpl in H.
  - simplify_eq. split; [done | ]. by intros vs [= <-].
  - destruct (start_of own app sec) as [m|e].
    2: { simplify_eq. split; [apply prefix_nil | done]. }
    destruct (m []) as [v|e].
    + destruct (map_start own app l) as [called' [vs'|e']] eqn:Hl;
        destruct (IH _ _ eq_refl) as [Hpre Hret]; simplify_eq.
      * destruct (Hret vs' eq_refl) as [-> Hlen].
        split; [done | ]. intros vs [= <-]. simpl. by rewrite Hlen.
      * split; [by apply prefix_cons | done].
    + simplify_eq. split; [ | done]. by exists l.
Qed.

Lemma map_start_returns l vs :
  Forall2 (fun sec v => call_start own app sec = Return v) l vs ->
  map_start own app l = (l, Return vs).
Proof.
  induction 1 as [|sec v l vs Hsec _ IH]; simpl; [done | ].
  unfold call_start in Hsec.
  destruct (start_of own app sec) as [m|e]; [ | done]. by rewrite Hsec, IH.
Qed.

Lemma call_start_values l :
  Forall (fun sec => exists v, call_start own app sec = Return v) l ->
  exists vs, Forall2 (fun sec v => call_start own app sec = Return v) l vs.
Proof.
  induction 1 as [|sec l [v Hsec] _ [vs IH]]; [by exists [] | ].
  exists (v :: vs). by constructor.
Qed.

Lemma map_start_app l1 l2 :
  map_start own app (l1 ++ l2)
  = match map_start own app l1 with
    | (called, Throw e) => (called, Throw e)
    | (called, Return vs) =>
        match map_start own app l2 with
        | (called2, Throw e) => (called ++ called2, Throw e)
        | (called2, Return vs2) => (called ++ called2, Return (vs ++ vs2))
        end
    end.
Proof.
  induction l1 as [|sec l1 IH]; simpl.
  - by destruct (map_start own app l2) as [called2 [vs2|e]].
  - destruct (start_of own app sec) as [m|e]; [ | done].
    destruct (m []) as [v|e]; [ | done].
    rewrite IH. destruct (map_start own app l1) as [called [vs|e]]; [ | done].
    by destruct (map_start own app l2) as [called2 [vs2|e]].
Qed.

(** A [start()] that throws has been entered: its name is the last one in
    the list of calls. *)
Lemma map_start_throws before sec after e :
  Forall (fun s => exists v, call_start own app s = Return v) before ->
  has_function own app sec "start" = true ->
  call_start own app sec = Throw e ->
  map_start own app (before ++ sec :: after) = (before ++ [sec], Throw e).
Proof.
  intros Hbefore Hhas Hsec. rewrite map_start_app.
  destruct (call_start_values before Hbefore) as [vs Hvs].
  rewrite (map_start_returns _ _ Hvs). simpl.
  unfold call_start in Hsec. unfold has_function, start_of in *.
  destruct (allModules app !! sec) as [r|]; [ | done].
  destruct (lookup_method own r "start") as [m|]; [ | done].
  by rewrite Hsec.
Qed.

Lemma _start_sync_throw names before sec after e :
  Forall (fun s => s ≠ mainAppName -> registered app s) (names_or_all names app) ->
  filter (start_target own app) (names_or_all names app) = before ++ sec :: after ->
  Forall (fun s => exists v, call_start own app s = Return v) before ->
  call_start own app sec = Throw e ->
  _start own app names = (before ++ [sec], Throw e).
Proof.
  intros Hreg Hsecs Hbefore Hsec. unfold _start.
  destruct (filter_names_returns _ Hreg) as [kept Hkept].
  rewrite Hkept. apply filter_names_spec in Hkept as ->. rewrite Hsecs.
  rewrite (map_start_throws before sec after e); [done | done | | done].
  assert (Hin : sec ∈ filter (start_target own app) (names_or_all names app)).
  { rewrite Hsecs. apply elem_of_app. right. by left. }
  apply list_elem_of_filter in Hin as [[_ Hhas] _]. exact Hhas.
Qed.

End Start.

Lemma Promise_resolve_not_rejected vs :
  Forall (fun st => is_rejected st = false) (map Promise_resolve vs).
Proof. rewrite Forall_fmap. apply Forall_forall. by intros []. Qed.

Lemma start_settles_rejected_stays i o s r :
  joined (all s) = Rejected r -> joined (all (start_settles i o s)) = Rejected r.
Proof.
  intros Hr. unfold start_settles.
  destruct (elements s !! i) as [[| |]|]; try done.
  destruct o as [v | r']; cbn [pstate_of all_notify all];
    unfold join_store, join_close, join_reject; cbn [remaining gathered joined];
    rewrite Hr; [by case_decide | done].
Qed.

Lemma run_start_rejected_stays evs s r :
  joined (all s) = Rejected r -> joined (all (run_start evs s)) = Rejected r.
Proof.
  unfold run_start. revert s.
  induction evs as [|[i o] evs IH]; intros s Hs; simpl; [done | ].
  apply IH. by apply start_settles_rejected_stays.
Qed.

Lemma all_coherent_joined s :
  all_coherent s ->
  (is_fulfilled (joined (all s)) = true
   <-> Forall (fun st => is_fulfilled st = true) (elements s)) /\
  (is_rejected (joined (all s)) = true
   <-> Exists (fun st => is_rejected st = true) (elements s)).
Proof.
  intros (_ & _ & Hj). rewrite <- unfulfilled_count_0.
  destruct (joined (all s)) as [|vs|r]; simpl.
  - destruct Hj as [Hpos Hno]. split; (split; [done | ]).
    + lia.
    + intros Hex. apply Exists_exists in Hex as (st & Hin & Hst).
      rewrite Forall_forall in Hno. specialize (Hno st Hin). congruence.
  - destruct Hj as [H0 _]. split; (split; try done).
    intros Hex. apply Exists_exists in Hex as (st & Hin & Hst).
    apply unfulfilled_count_0 in H0. rewrite Forall_forall in H0.
    specialize (H0 st Hin). by destruct st.
  - split; (split; try done).
    + intros H0. apply unfulfilled_count_0 in H0. rewrite Forall_forall in H0.
      by specialize (H0 _ Hj).
    + intros _. apply Exists_exists. by exists (Rejected r).
Qed.

Lemma run_start_element evs s i :
  elements (run_start evs s) !! i
  = match elements s !! i with
    | Some Pending =>
        Some (match settlement evs i with
              | Some (Resolve w) => Fulfilled w
              | Some (Reject r) => Rejected r
              | None => Pending
              end)
    | st => st
    end.
Proof.
  unfold run_start. revert s.
  induction evs as [|[j o] evs IH]; intros s; simpl.
  - by destruct (elements s !! i) as [[| |]|].
  - rewrite IH. clear IH. unfold start_settles, settlement. simpl.
    destruct (Nat.eqb_spec j i) as [->|Hne].
    + destruct (elements s !! i) as [[| |]|] eqn:Hi; rewrite ?Hi; try done.
      cbn [elements]. rewrite list_lookup_insert_eq by (by eapply lookup_lt_Some).
      by destruct o.
    + destruct (elements s !! j) as [[| |]|] eqn:Hj; try done.
      cbn [elements]. by rewrite list_lookup_insert_ne.
Qed.

Lemma run_start_started evs vs j :
  elements (run_start evs {| elements := map Promise_resolve vs; all := j |})
  = imap (started_state evs) vs.
Proof.
  apply list_eq. intros i.
  rewrite run_start_element, list_lookup_imap. cbn [elements].
  rewrite list_lookup_fmap.
  destruct (vs !! i) as [v|]; [ | done]. simpl.
  unfold started_state. by destruct v.
Qed.

Lemma fulfilled_values l :
  Forall (fun st => is_fulfilled st = true) l ->
  l = map Fulfilled (map (default VUndefined) (map value_of l)).
Proof.
  induction 1 as [|st l Hst _ IH]; [done | ].
  destruct st; try done. simpl. by rewrite <- IH.
Qed.

Lemma values_fulfilled ws :
  map (default VUndefined) (map value_of (map Fulfilled ws)) = ws.
Proof. induction ws as [|w ws IH]; [done | ]. simpl. by rewrite IH. Qed.

Lemma all_coherent_fulfilled s ws :
  all_coherent s ->
  joined (all s) = Fulfilled ws <-> elements s = map Fulfilled ws.
Proof.
  intros (_ & _ & Hj). split.
  - intros Hful. rewrite Hful in Hj. destruct Hj as [H0 ->].
    apply unfulfilled_count_0 in H0. by apply fulfilled_values.
  - intros Hel. rewrite Hel in Hj.
    assert (H0 : unfulfilled_count (map Fulfilled ws) = 0).
    { apply unfulfilled_count_0. rewrite Forall_fmap. by apply Forall_forall. }
    destruct (joined (all s)) as [|vs|r].
    + destruct Hj as [Hpos _]. lia.
    + destruct Hj as [_ ->]. by rewrite values_fulfilled.
    + apply list_elem_of_fmap in Hj as (w & Hw & _). done.
Qed.

(** C6. For every list of registered modules, [_start] enters [start()] on
    exactly the instances of the (sub)set that have a [start] function (the
    main application's entry left out), in order and all during the call.
    If one of these calls throws, [_start] throws that exception after the
    calls made so far and returns no promise.  Otherwise it returns a
    promise over the values the calls returned: a promise of a module
    counts from its first settlement by the host, any other value as
    fulfilled.  That promise is fulfilled, with the values in order, if and
    only if every one of these starts is fulfilled; it is rejected if and
    only if one of them is, at the first rejection and with its reason,
    which it keeps. *)
Theorem start_all_or_nothing own app names :
  Forall (fun sec => sec ≠ mainAppName -> registered app sec)
         (names_or_all names app) ->
  let secs := filter (start_target own app) (names_or_all names app) in
  (forall before sec after e,
     secs = before ++ sec :: after ->
     Forall (fun s => exists v, call_start own app s = Return v) before ->
     call_start own app sec = Throw e ->
     _start own app names = (before ++ [sec], Throw e)) /\
  (forall vs,
     Forall2 (fun sec v => call_start own app sec = Return v) secs vs ->
     exists s0,
       _start own app names = (secs, Return s0) /\
       forall evs,
         let s := run_start evs s0 in
         elements s = imap (started_state evs) vs /\
         (forall ws, joined (all s) = Fulfilled ws <-> elements s = map Fulfilled ws) /\
         (is_rejected (joined (all s)) = true
          <-> Exists (fun st => is_rejected st = true) (elements s)) /\
         (forall i r, joined (all s) = Pending -> elements s !! i = Some Pending ->
            joined (all (start_settles i (Reject r) s)) = Rejected r) /\
         (forall r evs', joined (all s) = Rejected r ->
            joined (all (run_start evs' s)) = Rejected r)).
Proof.
  intros Hreg secs. split.
  - intros before sec after e. by apply _start_sync_throw.
  - intros vs Hvs. unfold _start.
    destruct (filter_names_returns own app _ Hreg) as [kept Hkept].
    rewrite Hkept. apply filter_names_spec in Hkept as ->. fold secs.
    rewrite (map_start_returns own app secs vs Hvs).
    eexists. split; [done | ].
    intros evs. set (s := run_start evs _).
    assert (Hco : all_coherent s).
    { apply run_start_coherent. rewrite Promise_all_view
        by apply Promise_resolve_not_rejected.
      apply all_view_coherent, Promise_resolve_not_rejected. }
    destruct (all_coherent_joined s Hco) as [_ Hrej].
    split_and!; [apply run_start_started | | done | | ].
    + intros ws. by apply all_coherent_fulfilled.
    + intros i r Hp Hi. unfold start_settles. rewrite Hi.
      cbn [pstate_of all_notify all join_reject joined]. by rewrite Hp.
    + intros r evs'. apply run_start_rejected_stays.
Qed.

(** ** Named dispatch *)

Lemma module_loop_app own app isAr func params l1 l2 results :
  module_loop own app isAr func params (l1 ++ l2) results
  = match module_loop own app isAr func params l1 results with
    | Throw e => Throw e
    | Return results' => module_loop own app isAr func params l2 results'
    end.
Proof.
  revert results. induction l1 as [|sec l1 IH]; intros results; simpl; [done | ].
  destruct (module_step own app isAr func params sec results); [apply IH | done].
Qed.

(** C7. For every registered instance that has no function [func], the
    dispatcher called with its name alone throws the error coded
    [<prefix>_MODULE_FUNCTION_NOT_FOUND]; called with an array of names it
    passes over that name without throwing, and what it returns, or throws,
    is what it does for the array without that name. *)
Theorem module_missing_function own app sec func params r :
  allModules app !! sec = Some r ->
  lookup_method own r func = None ->
  module own app (One sec) func params
    = Throw (Err "Error" "Error"
               (Some (mainModuleCodeUpper app +:+ "_" +:+ "MODULE_FUNCTION_NOT_FOUND"))) /\
  forall before after,
    module own app (Many (before ++ sec :: after)) func params
    = module own app (Many (before ++ after)) func params.
Proof.
  intros Hr Hf. split.
  - unfold module. cbn [isArray module_loop]. unfold module_step.
    by rewrite Hr, Hf.
  - intros before after. unfold module. cbn [isArray].
    rewrite !module_loop_app.
    destruct (module_loop own app true func params before []) as [res|e]; [ | done].
    cbn [module_loop]. unfold module_step at 1. by rewrite Hr, Hf.
Qed.

(** ** The error-code prefix *)

Lemma split_nonempty sep s : split sep s <> [].
Proof.
  destruct s as [|c s]; simpl; [done | ].
  destruct (Ascii.eqb c sep); [done | ]. by destruct (split sep s).
Qed.

Lemma join_split_hyphens s :
  join "_" (split "-" s) = hyphens_to_underscores s.
Proof.
  unfold join. induction s as [|c s IH]; simpl; [done | ].
  destruct (Ascii.eqb c "-").
  - destruct (split "-" s) as [|piece rest] eqn:Hs; [by apply split_nonempty in Hs | ].
    rewrite <- IH. reflexivity.
  - destruct (split "-" s) as [|piece rest] eqn:Hs; [by apply split_nonempty in Hs | ].
    rewrite <- IH. by destruct rest.
Qed.

(** C8. For every code string, [throwError] on an application made by the
    constructor builds an error whose [code] is the main application's name,
    hyphens replaced by underscores and upper-cased, then an underscore and
    the given code; with [justReturn] true the error is returned, otherwise
    it is thrown. *)
Theorem throwError_code config0 srcdir0 app main name errCode msg justReturn :
  Application_new config0 srcdir0 = Return app ->
  obj_get config0 mainAppName = Some main ->
  obj_get main "name" = Some (VStr name) ->
  let er := Err "Error" (default "Error" msg)
                (Some (code_prefix name +:+ "_" +:+ errCode)) in
  throwError app errCode msg justReturn
    = if default false justReturn then Return er else Throw er.
Proof.
  unfold Application_new. intros Hnew Hmain Hname. rewrite Hmain, Hname in Hnew.
  simplify_eq. unfold throwError, code_prefix. cbn [mainModuleCodeUpper err_name err_message].
  by rewrite join_split_hyphens.
Qed.

(** ** Dynamic registration by [require] *)

Lemma obj_set_absent {V} (o : list (string * V)) k v :
  hasOwnProperty o k = false -> obj_set o k v = o ++ [(k, v)].
Proof.
  unfold hasOwnProperty. induction o as [|[k' v'] o IH]; simpl; [done | ].
  destruct (String.eqb k' k); [done | ]. intros H. by rewrite IH.
Qed.

Lemma obj_get_set {V} (o : list (string * V)) k v k' :
  obj_get (obj_set o k v) k' = if String.eqb k k' then Some v else obj_get o k'.
Proof.
  induction o as [|[k0 v0] o IH]; simpl.
  - done.
  - destruct (String.eqb_spec k0 k) as [->|Hne]; simpl.
    + by destruct (String.eqb k k').
    + rewrite IH. destruct (String.eqb_spec k0 k') as [->|Hne'].
      * destruct (String.eqb_spec k k'); [congruence | done].
      * done.
Qed.

(** [Object.keys] lists the own keys, each as often as the list holds it. *)
Lemma Object_keys_Permutation {V} (o : list (string * V)) :
  Object_keys o ≡ₚ map fst o.
Proof.
  unfold Object_keys. rewrite merge_sort_Permutation.
  generalize (map fst o). clear. intros ks.
  induction ks as [|k ks IH]; [done | ].
  rewrite !filter_cons. destruct (array_index k) as [n|] eqn:Hk.
  - rewrite decide_True by (by eexists). rewrite decide_False by done.
    simpl. by rewrite IH.
  - rewrite decide_False by (by intros [? ?]). rewrite decide_True by done.
    rewrite <- Permutation_middle. by rewrite IH.
Qed.

Lemma obj_get_fst {V} (o : list (string * V)) k :
  hasOwnProperty o k = true <-> k ∈ map fst o.
Proof.
  unfold hasOwnProperty.
  induction o as [|[k' v] o IH]; simpl.
  - split; [done | ]. by intros ?%elem_of_nil.
  - rewrite elem_of_cons. destruct (String.eqb_spec k' k) as [->|Hne].
    + by split; [left | ].
    + rewrite IH. split; [by right | ]. by intros [->|].
Qed.

Lemma obj_get_keys {V} (o : list (string * V)) k :
  hasOwnProperty o k = true <-> k ∈ Object_keys o.
Proof. by rewrite Object_keys_Permutation, obj_get_fst. Qed.

Lemma Application_new_known config0 srcdir0 app :
  Application_new config0 srcdir0 = Return app ->
  NoDup (Object_keys config0) -> modules_known app.
Proof.
  unfold Application_new. intros H Hnd.
  destruct (obj_get config0 mainAppName) as [main|]; [ | done].
  destruct (obj_get main "name") as [[]|]; simplify_eq.
  split; cbn [modules config]; [done | ].
  apply Forall_forall. intros k. by rewrite obj_get_keys.
Qed.

Lemma lookup_assign_ne {A} (o : gmap string A) k v k' :
  k <> k' -> assign o k v !! k' = o !! k'.
Proof.
  intros Hne. unfold assign. destruct (_ && _)%bool; [done | ].
  by rewrite lookup_insert_ne.
Qed.

Lemma lookup_assign_eq {A} (o : gmap string A) k v :
  k <> "__proto__" -> assign o k v !! k = Some v.
Proof.
  intros Hne. unfold assign.
  destruct (String.eqb_spec k "__proto__"); [done | ]. simpl.
  by rewrite lookup_insert_eq.
Qed.

Lemma lookup_assign_Some {A} (o : gmap string A) k v k' x :
  assign o k v !! k' = Some x -> (k = k' /\ x = v) \/ o !! k' = Some x.
Proof.
  unfold assign. destruct (_ && _)%bool; [auto | ].
  intros [[-> ->]|[_ ?]]%lookup_insert_Some; auto.
Qed.

Lemma assign_proto {A} (o : gmap string A) v :
  o !! "__proto__" = None -> assign o "__proto__" v = o.
Proof.
  intros Hnone. unfold assign. by rewrite Hnone.
Qed.

Lemma lookup_assign_proto {A} (o : gmap string A) k v :
  o !! "__proto__" = None -> assign o k v !! "__proto__" = None.
Proof.
  intros Hnone. destruct (decide (k = "__proto__")) as [->|Hne].
  - by rewrite assign_proto.
  - by rewrite lookup_assign_ne.
Qed.

Lemma assign_same {A} (o : gmap string A) k v :
  o !! k = Some v -> assign o k v = o.
Proof.
  intros Hk. unfold assign. destruct (_ && _)%bool; [done | ]. by apply insert_id.
Qed.

Lemma obj_get_app {V} (o o' : list (string * V)) k :
  obj_get (o ++ o') k
  = match obj_get o k with Some v => Some v | None => obj_get o' k end.
Proof.
  induction o as [|[k0 v0] o IH]; simpl; [done | ].
  by destruct (String.eqb k0 k).
Qed.

Lemma obj_assign_absent {V} (o : list (string * V)) k v :
  hasOwnProperty o k = false ->
  obj_assign o k v = if String.eqb k "__proto__" then o else o ++ [(k, v)].
Proof.
  intros Hk. unfold obj_assign. rewrite Hk.
  destruct (String.eqb k "__proto__"); [done | ]. by apply obj_set_absent.
Qed.

Lemma forEach_app body l1 l2 app :
  forEach body (l1 ++ l2) app
  = match forEach body l1 app with
    | (a, Return _) => forEach body l2 a
    | (a, Throw e) => (a, Throw e)
    end.
Proof.
  revert app. induction l1 as [|sec l1 IH]; intros app; simpl; [done | ].
  destruct (body sec app) as [a [[]|e]]; [apply IH | done].
Qed.

Lemma forEach_cons_Return body sec l app app' :
  forEach body (sec :: l) app = (app', Return tt) ->
  exists a1, body sec app = (a1, Return tt) /\ forEach body l a1 = (app', Return tt).
Proof.
  simpl. destruct (body sec app) as [a1 [[]|e]]; [eauto | done].
Qed.

Lemma forEach_preserves (P : Application -> Prop) body l app :
  (forall sec a, P a -> P (fst (body sec a))) ->
  P app -> P (fst (forEach body l app)).
Proof.
  intros Hbody. revert app. induction l as [|sec l IH]; intros app Hp; simpl; [done | ].
  specialize (Hbody sec app Hp).
  destruct (body sec app) as [app' [[]|e]]; [by apply IH | done].
Qed.

Lemma require_keeps_refl a : require_keeps a a.
Proof. by repeat split. Qed.

Lemma require_keeps_trans a b c :
  require_keeps a b -> require_keeps b c -> require_keeps a c.
Proof.
  intros (Hs1 & Ha1 & Hp1 & Hi1 & Hc1 & Hm1) (Hs2 & Ha2 & Hp2 & Hi2 & Hc2 & Hm2).
  split_and!; try congruence.
  - intros k Hk. rewrite Hc2, Hc1; try done.
    unfold hasOwnProperty in *. rewrite Hc1 by done. done.
  - by etrans.
Qed.

Section Require.
Variable loader : string -> string -> result class.

Lemma require_step_fields conf sec a :
  let a' := fst (require_step loader conf sec a) in
  srcdir a' = srcdir a /\
  appConfig a' = appConfig a /\
  mainModuleCodeUpper a' = mainModuleCodeUpper a /\
  allModules a' = allModules a /\
  config a' = (if hasOwnProperty (config a) sec then config a
               else if String.eqb sec "__proto__" then config a
               else config a ++ [(sec, conf)]) /\
  modules a' = (if hasOwnProperty (config a) sec then modules a
                else modules a ++ [sec]) /\
  AllModules a' = match loader (srcdir a) sec with
                  | Return cls => assign (AllModules a) sec cls
                  | Throw _ => AllModules a
                  end.
Proof.
  unfold require_step.
  destruct (hasOwnProperty (config a) sec) eqn:Hsec; cbn [negb srcdir];
    destruct (loader (srcdir a) sec);
    cbn [fst config srcdir appConfig mainModuleCodeUpper modules AllModules allModules];
    rewrite ?obj_assign_absent by done; done.
Qed.

Lemma require_step_result conf sec a :
  snd (require_step loader conf sec a)
  = match loader (srcdir a) sec with Return _ => Return tt | Throw e => Throw e end.
Proof.
  unfold require_step.
  destruct (negb _); cbn [srcdir]; by destruct (loader (srcdir a) sec).
Qed.

Lemma require_step_own conf sec a k :
  hasOwnProperty (config (fst (require_step loader conf sec a))) k
  = ((String.eqb sec k && negb (String.eqb sec "__proto__"))
     || hasOwnProperty (config a) k)%bool.
Proof.
  destruct (require_step_fields conf sec a) as (_ & _ & _ & _ & -> & _).
  destruct (hasOwnProperty (config a) sec) eqn:Hsec.
  - destruct (String.eqb_spec sec k) as [<-|]; [ | done].
    rewrite Hsec. by destruct (negb _).
  - destruct (String.eqb sec "__proto__"); [by rewrite andb_false_r | ].
    unfold hasOwnProperty. rewrite obj_get_app. simpl.
    destruct (obj_get (config a) k); [by rewrite orb_true_r | ].
    by destruct (String.eqb sec k).
Qed.

Lemma require_step_keeps conf sec a :
  require_keeps a (fst (require_step loader conf sec a)) /\
  (forall k, k <> sec ->
     AllModules (fst (require_step loader conf sec a)) !! k = AllModules a !! k) /\
  (modules_cover a -> modules_cover (fst (require_step loader conf sec a))) /\
  (classes_configured a -> classes_configured (fst (require_step loader conf sec a))).
Proof.
  pose proof (require_step_own conf sec a) as Hown.
  destruct (require_step_fields conf sec a) as (Hs & Ha & Hp & Hi & Hc & Hm & Hcl).
  set (a' := fst (require_step loader conf sec a)) in *.
  split_and!.
  - unfold require_keeps. split_and!; try done.
    + intros k Hk. rewrite Hc. destruct (hasOwnProperty (config a) sec) eqn:Hsec; [done | ].
      destruct (String.eqb sec "__proto__"); [done | ].
      rewrite obj_get_app. unfold hasOwnProperty in Hk.
      by destruct (obj_get (config a) k).
    + rewrite Hm. destruct (hasOwnProperty (config a) sec); [done | by exists [sec]].
  - intros k Hk. rewrite Hcl. destruct (loader (srcdir a) sec); [ | done].
    by rewrite lookup_assign_ne.
  - intros Hcover k. rewrite Hown, Hm. intros Hk.
    destruct (hasOwnProperty (config a) sec) eqn:Hsec.
    + apply Hcover. destruct (String.eqb_spec sec k) as [Heq|Hne];
        [by rewrite <- Heq | ].
      by rewrite andb_false_l in Hk.
    + apply elem_of_app. destruct (String.eqb_spec sec k) as [Heq|Hne].
      * right. by apply list_elem_of_singleton.
      * left. apply Hcover. by rewrite andb_false_l in Hk.
  - intros Hconf k Hk. rewrite Hown. rewrite Hcl in Hk.
    destruct (loader (srcdir a) sec) as [cls|e];
      [ | rewrite (Hconf k Hk); by rewrite orb_true_r].
    unfold assign in Hk.
    destruct (String.eqb_spec sec "__proto__") as [Hp'|Hp']; cbn [andb negb] in *.
    + case_bool_decide as Hd; cbn [negb] in Hk.
      * apply lookup_insert_is_Some in Hk as [Heq|[_ Hk]].
        -- rewrite <- Heq, (Hconf sec Hd). by rewrite orb_true_r.
        -- rewrite (Hconf k Hk). by rewrite orb_true_r.
      * rewrite (Hconf k Hk). by rewrite orb_true_r.
    + apply lookup_insert_is_Some in Hk as [Heq|[_ Hk]].
      * by rewrite <- Heq, String.eqb_refl.
      * rewrite (Hconf k Hk). by rewrite orb_true_r.
Qed.

Lemma forEach_require_keeps conf l a :
  require_keeps a (fst (forEach (require_step loader conf) l a)) /\
  (forall k, k ∉ l ->
     AllModules (fst (forEach (require_step loader conf) l a)) !! k = AllModules a !! k) /\
  (modules_cover a -> modules_cover (fst (forEach (require_step loader conf) l a))) /\
  (classes_configured a ->
   classes_configured (fst (forEach (require_step loader conf) l a))).
Proof.
  revert a. induction l as [|sec l IH]; intros a.
  - simpl. split_and!; [apply require_keeps_refl | done..].
  - destruct (require_step_keeps conf sec a) as (Hk1 & Ho1 & Hc1 & Hcl1).
    cbn [forEach]. destruct (require_step loader conf sec a) as [a1 [[]|e]];
      cbn [fst] in *.
    + destruct (IH a1) as (Hk2 & Ho2 & Hc2 & Hcl2).
      split_and!; [by eapply require_keeps_trans | | auto | auto].
      intros k [Hne Hk]%not_elem_of_cons. rewrite Ho2, Ho1; done.
    + split_and!; try done.
      intros k [Hne Hk]%not_elem_of_cons. by apply Ho1.
Qed.

(** No [require] gives the class registry a property ["__proto__"]. *)
Lemma forEach_require_proto conf l a :
  AllModules a !! "__proto__" = None ->
  AllModules (fst (forEach (require_step loader conf) l a)) !! "__proto__" = None.
Proof.
  apply (forEach_preserves (fun a => AllModules a !! "__proto__" = None)).
  clear. intros sec a Ha.
  destruct (require_step_fields conf sec a) as (_ & _ & _ & _ & _ & _ & ->).
  destruct (loader (srcdir a) sec); [by apply lookup_assign_proto | done].
Qed.

Lemma require_step_known conf sec app :
  sec <> "__proto__" ->
  modules_known app -> modules_known (fst (require_step loader conf sec app)).
Proof.
  intros Hp [Hnd Hown].
  pose proof (require_step_own conf sec app) as Hown'.
  destruct (require_step_fields conf sec app) as (_ & _ & _ & _ & _ & Hm & _).
  apply String.eqb_neq in Hp.
  split; rewrite Hm.
  - destruct (hasOwnProperty (config app) sec) eqn:Hsec; [done | ].
    apply NoDup_app. split_and!; [done | | apply NoDup_singleton].
    intros k Hk ->%list_elem_of_singleton.
    rewrite Forall_forall in Hown. specialize (Hown _ Hk). congruence.
  - assert (Hold : Forall (fun k => hasOwnProperty
               (config (fst (require_step loader conf sec app))) k = true) (modules app)).
    { eapply Forall_impl; [exact Hown | ]. intros k Hk. cbn beta in Hk.
      rewrite Hown', Hk. by rewrite orb_true_r. }
    destruct (hasOwnProperty (config app) sec); [done | ].
    apply Forall_app. split; [done | ]. constructor; [ | done].
    by rewrite Hown', String.eqb_refl, Hp.
Qed.

Lemma forEach_require_known conf l a :
  "__proto__" ∉ l ->
  modules_known a -> modules_known (fst (forEach (require_step loader conf) l a)).
Proof.
  revert a. induction l as [|s l IH]; intros a Hp Hknown; [done | ].
  apply not_elem_of_cons in Hp as [Hs Hp]. cbn [forEach].
  pose proof (require_step_known conf s a (not_eq_sym Hs) Hknown) as Hk.
  destruct (require_step loader conf s a) as [a1 [[]|e]]; cbn [fst] in *; auto.
Qed.

(** What a [require] that returns has done, name by name. *)
Lemma require_Return_spec names conf app app' :
  require loader names conf app = (app', Return tt) ->
  forall sec, sec ∈ names_or_all names app ->
    (sec <> "__proto__" -> hasOwnProperty (config app') sec = true) /\
    (exists cls, loader (srcdir app) sec = Return cls /\
                 (sec <> "__proto__" -> AllModules app' !! sec = Some cls)) /\
    (modules_cover app -> sec ∈ modules app').
Proof.
  unfold require. generalize (names_or_all names app) as l. intros l.
  assert (Hgen : forall l a, forEach (require_step loader (default [] conf)) l a = (app', Return tt) ->
    forall sec, sec ∈ l ->
      (sec <> "__proto__" -> hasOwnProperty (config app') sec = true) /\
      (exists cls, loader (srcdir a) sec = Return cls /\
                   (sec <> "__proto__" -> AllModules app' !! sec = Some cls)) /\
      (modules_cover a -> sec ∈ modules app')).
  { clear l. induction l as [|s l IH]; intros a H sec Hin; [by apply elem_of_nil in Hin | ].
    apply forEach_cons_Return in H as (a1 & H1 & H2).
    destruct (require_step_keeps (default [] conf) s a) as (Hk1 & _ & Hc1 & _).
    pose proof (require_step_own (default [] conf) s a s) as Hown1.
    pose proof (require_step_result (default [] conf) s a) as Hres1.
    destruct (require_step_fields (default [] conf) s a)
      as (Hs1 & _ & _ & _ & _ & Hm1 & Hcl1).
    rewrite H1 in Hk1, Hown1, Hc1, Hs1, Hcl1, Hres1, Hm1. cbn [fst snd] in *.
    destruct (decide (sec ∈ l)) as [Hl | Hl].
    { destruct (IH a1 H2 sec Hl) as (? & ? & ?). rewrite Hs1 in *. auto. }
    apply elem_of_cons in Hin as [-> | ?]; [ | done].
    destruct (forEach_require_keeps (default [] conf) l a1) as (Hk2 & Ho2 & Hc2 & _).
    rewrite H2 in Hk2, Ho2, Hc2. cbn [fst] in *.
    destruct Hk2 as (_ & _ & _ & _ & Hcfg2 & Hm2).
    rewrite String.eqb_refl in Hown1.
    split_and!.
    - intros Hp%String.eqb_neq. rewrite Hp in Hown1. simpl in Hown1.
      unfold hasOwnProperty in *. rewrite Hcfg2 by done. done.
    - destruct (loader (srcdir a) s) as [cls|e] eqn:Hload; [ | done].
      exists cls. split; [done | ]. intros Hp. rewrite Ho2 by done. rewrite Hcl1.
      by apply lookup_assign_eq.
    - intros Hcover. destruct Hm2 as [rest ->]. apply elem_of_app. left.
      rewrite Hm1. destruct (hasOwnProperty (config a) s) eqn:Hs.
      + by apply Hcover.
      + apply elem_of_app. right. by apply list_elem_of_singleton. }
  apply Hgen.
Qed.

(** The names [require] has added: each name of the list that the
    configuration lacked, once. *)
Lemma forEach_require_added conf l a a' :
  "__proto__" ∉ l ->
  forEach (require_step loader conf) l a = (a', Return tt) ->
  exists added,
    config a' = config a ++ map (fun sec => (sec, conf)) added /\
    modules a' = modules a ++ added /\
    NoDup added /\
    added `sublist_of` l /\
    forall sec, sec ∈ added <-> sec ∈ l /\ hasOwnProperty (config a) sec = false.
Proof.
  revert a. induction l as [|s l IH]; intros a Hp H.
  - simpl in H. simplify_eq. exists []. rewrite !app_nil_r.
    split_and!; [done | done | constructor | done | ].
    intros sec. split; [by intros ?%elem_of_nil | by intros [?%elem_of_nil _]].
  - apply not_elem_of_cons in Hp as [Hs Hp].
    apply forEach_cons_Return in H as (a1 & H1 & H2).
    pose proof (require_step_own conf s a) as Hown1.
    destruct (require_step_fields conf s a) as (_ & _ & _ & _ & Hc1 & Hm1 & _).
    rewrite H1 in Hown1, Hc1, Hm1. cbn [fst] in *.
    assert (Hsp : String.eqb s "__proto__" = false) by (by apply String.eqb_neq).
    rewrite Hsp in Hc1.
    destruct (IH a1 Hp H2) as (added & Hc & Hm & Hnd & Hsub & Hin).
    destruct (hasOwnProperty (config a) s) eqn:Hhas.
    + exists added. rewrite Hc, Hm, Hc1, Hm1.
      split_and!; [done | done | done | by apply sublist_cons | ].
      intros sec. rewrite Hin, Hown1, Hsp, elem_of_cons. cbn [negb].
      rewrite andb_true_r. split.
      * intros [Hl Hno]. apply orb_false_iff in Hno as [_ Hno]. auto.
      * intros [[->|Hl] Hno]; [congruence | ]. split; [done | ].
        apply orb_false_iff. split; [ | done].
        apply String.eqb_neq. intros ->. congruence.
    + exists (s :: added). rewrite Hc, Hm, Hc1, Hm1, <- !app_assoc.
      split_and!; [done | done | | by apply sublist_skip | ].
      * constructor; [ | done]. rewrite Hin, Hown1, String.eqb_refl, Hsp.
        by intros [_ ?].
      * intros sec. rewrite !elem_of_cons, Hin, Hown1, Hsp. cbn [negb].
        rewrite andb_true_r. split.
        -- intros [->|[Hl Hno]]; [auto | ].
           apply orb_false_iff in Hno as [_ Hno]. auto.
        -- intros [[->|Hl] Hno]; [auto | ].
           destruct (String.eqb_spec s sec) as [<-|Hne]; [auto | ]. right. by split.
Qed.

(** Requiring once more the names of a [require] that returned changes
    nothing. *)
Lemma forEach_require_again conf2 l a :
  "__proto__" ∉ l ->
  Forall (fun sec => hasOwnProperty (config a) sec = true /\
            exists cls, loader (srcdir a) sec = Return cls /\
                        AllModules a !! sec = Some cls) l ->
  forEach (require_step loader conf2) l a = (a, Return tt).
Proof.
  intros Hp Hall. induction Hall as [|s l (Hs & cls & Hload & Hcls) _ IH];
    [done | ].
  apply not_elem_of_cons in Hp as [_ Hp]. cbn [forEach].
  assert (Hstep : require_step loader conf2 s a = (a, Return tt)).
  { unfold require_step. rewrite Hs. cbn [negb]. rewrite Hload.
    rewrite assign_same by done. by destruct a. }
  rewrite Hstep. by apply IH.
Qed.

(** C9. For every list of names other than ["__proto__"]: when [require]
    returns, the configuration has grown by the given default configuration
    under each name of the list that it lacked, once per name and in one
    block at its end, and the module-name set has grown by the same names in
    the same order; a name the configuration had keeps its configuration and
    is not appended; every name of the list has the class the loader gave
    for it; the instances are untouched; a duplicate-free module-name set
    stays duplicate-free; and requiring the same list once more, with any
    default, changes nothing.  For the name ["__proto__"] on a
    configuration without such a key, the assignment of the default creates
    no key, the name is appended all the same, and requiring it once more
    appends it again. *)
Theorem require_registers_once app conf :
  (forall names app',
     "__proto__" ∉ names_or_all names app ->
     require loader names conf app = (app', Return tt) ->
     (exists added,
        config app' = config app ++ map (fun sec => (sec, default [] conf)) added /\
        modules app' = modules app ++ added /\
        NoDup added /\
        added `sublist_of` names_or_all names app /\
        forall sec, sec ∈ added <->
          sec ∈ names_or_all names app /\ hasOwnProperty (config app) sec = false) /\
     (forall sec, sec ∈ names_or_all names app ->
        obj_get (config app') sec
        = (if hasOwnProperty (config app) sec then obj_get (config app) sec
           else Some (default [] conf)) /\
        exists cls, loader (srcdir app) sec = Return cls /\
                    AllModules app' !! sec = Some cls) /\
     allModules app' = allModules app /\
     (modules_known app -> modules_known app') /\
     (forall conf2,
        require loader (Some (names_or_all names app)) conf2 app' = (app', Return tt))) /\
  (hasOwnProperty (config app) "__proto__" = false ->
   AllModules app !! "__proto__" = None ->
   let app1 := fst (require loader (Some ["__proto__"]) conf app) in
   config app1 = config app /\
   modules app1 = modules app ++ ["__proto__"] /\
   AllModules app1 = AllModules app /\
   modules (fst (require loader (Some ["__proto__"]) conf app1))
   = modules app ++ ["__proto__"; "__proto__"]).
Proof.
  split.
  - intros names app' Hp Hreq.
    pose proof (require_Return_spec names conf app app' Hreq) as Hspec.
    unfold require in *.
    set (l := names_or_all names app) in *.
    destruct (forEach_require_added _ _ _ _ Hp Hreq)
      as (added & Hc & Hm & Hnd & Hsub & Hin).
    destruct (forEach_require_keeps (default [] conf) l app)
      as ((Hsrc & _ & _ & Hi & Hcfg & _) & _).
    rewrite Hreq in Hsrc, Hi, Hcfg. cbn [fst] in *.
    assert (Hne : forall sec, sec ∈ l -> sec <> "__proto__").
    { intros sec Hsec ->. done. }
    split_and!.
    + exists added. done.
    + intros sec Hsec. destruct (Hspec sec Hsec) as (Hown & (cls & Hload & Hcls) & _).
      split; [ | exists cls; auto].
      destruct (hasOwnProperty (config app) sec) eqn:Hhas; [by apply Hcfg | ].
      assert (Hadd : sec ∈ added) by (by apply Hin).
      rewrite Hc, obj_get_app. unfold hasOwnProperty in Hhas.
      destruct (obj_get (config app) sec); [done | ].
      clear -Hadd. induction added as [|s added IH]; [by apply elem_of_nil in Hadd | ].
      simpl. destruct (String.eqb_spec s sec) as [->|Hne]; [done | ].
      apply elem_of_cons in Hadd as [->|Hadd]; [done | auto].
    + done.
    + intros Hknown.
      pose proof (forEach_require_known (default [] conf) l app Hp Hknown) as Hk.
      by rewrite Hreq in Hk.
    + intros conf2. cbn [names_or_all]. apply forEach_require_again; [done | ].
      apply Forall_forall. intros sec Hsec.
      destruct (Hspec sec Hsec) as (Hown & (cls & Hload & Hcls) & _).
      rewrite Hsrc. split; [auto | ]. exists cls. auto.
  - intros Hhas Hcls app1.
    assert (H1 : config app1 = config app /\
                 modules app1 = modules app ++ ["__proto__"] /\
                 AllModules app1 = AllModules app).
    { subst app1. unfold require. cbn [names_or_all forEach].
      destruct (require_step_fields (default [] conf) "__proto__" app)
        as (_ & _ & _ & _ & Hc & Hm & Ha).
      rewrite Hhas in Hc, Hm. cbn [String.eqb] in Hc.
      destruct (require_step loader (default [] conf) "__proto__" app) as [a [[]|e]];
        cbn [fst] in *; (split_and!; [done | done | ]);
        rewrite Ha; destruct (loader (srcdir app) "__proto__"); try done;
        by apply assign_proto. }
    destruct H1 as (Hc1 & Hm1 & Ha1). split_and!; [done..| ].
    unfold require. cbn [names_or_all forEach].
    destruct (require_step_fields (default [] conf) "__proto__" app1)
      as (_ & _ & _ & _ & _ & Hm & _).
    rewrite Hc1, Hhas, Hm1, <- app_assoc in Hm.
    by destruct (require_step loader (default [] conf) "__proto__" app1) as [a [[]|e]].
Qed.

End Require.

(** ** The main application's entry *)

Lemma init_step_other sec app app' :
  sec <> mainAppName ->
  init_step sec app = (app', Return tt) ->
  exists i, app' = set_instance app sec (Mod i).
Proof.
  intros Hne. unfold init_step.
  destruct (String.eqb_spec sec mainAppName); [done | ].
  destruct (AllModules app !! sec) as [cls|].
  - destruct (construct cls _ _) as [i|e]; [ | done].
    intros [= <-]. eauto.
  - destruct (String.eqb sec "constructor"); [ | done].
    intros [= <-]. eauto.
Qed.

Lemma init_step_fst sec app :
  fst (init_step sec app) = app \/
  (sec = mainAppName /\ fst (init_step sec app) = set_instance app sec SelfApp) \/
  (sec <> mainAppName /\ exists i, fst (init_step sec app) = set_instance app sec (Mod i)).
Proof.
  unfold init_step. destruct (String.eqb_spec sec mainAppName) as [->|Hne]; [auto | ].
  destruct (AllModules app !! sec) as [cls|].
  - destruct (construct cls _ _) as [i|e]; [ | auto].
    right. right. eauto.
  - destruct (String.eqb sec "constructor"); [ | auto].
    right. right. eauto.
Qed.

Lemma init_binds_main l app app' :
  forEach init_step l app = (app', Return tt) ->
  mainAppName ∈ l \/ allModules app !! mainAppName = Some SelfApp ->
  allModules app' !! mainAppName = Some SelfApp.
Proof.
  revert app. induction l as [|sec l IH]; intros app H Hin; simpl in H.
  - simplify_eq. destruct Hin as [Hin | ?]; [ | done]. by apply elem_of_nil in Hin.
  - destruct (init_step sec app) as [app1 [[]|e]] eqn:H1; [ | done].
    apply (IH app1 H). destruct (decide (sec = mainAppName)) as [->|Hne].
    + right. unfold init_step in H1. simpl in H1. simplify_eq.
      cbn [set_instance allModules]. by apply lookup_assign_eq.
    + destruct Hin as [Hin | Hb].
      * apply elem_of_cons in Hin as [? | ?]; [congruence | by left].
      * right. apply init_step_other in H1 as [i ->]; [ | done].
        cbn [set_instance allModules]. by rewrite lookup_assign_ne.
Qed.

Lemma init_self_only names app :
  self_only_at_main app -> self_only_at_main (fst (init names app)).
Proof.
  unfold init. apply (forEach_preserves self_only_at_main).
  intros sec a Ha k.
  destruct (init_step_fst sec a) as [-> | [[-> ->] | [Hne [i ->]]]]; [apply Ha | | ];
    cbn [set_instance allModules]; intros Hk.
  - apply lookup_assign_Some in Hk as [[<- _]|Hk]; [done | by apply Ha].
  - apply lookup_assign_Some in Hk as [[_ ?]|Hk]; [done | by apply Ha].
Qed.

Section Calls.
Variable own : string -> option method.
Variable app : Application.

Local Abbreviation stoppable := (fun sec => has_function own app sec "stop" = true).

(** Whether it returns or throws, the map of [_stop] has made a slot for a
    prefix of the names, and entered [stop()] for those of them that have
    the function. *)
Lemma map_stop_prefix secs p p' res :
  map_stop own app secs p = (p', res) ->
  exists made,
    made `prefix_of` secs /\
    map slot_sec (slots p') = map slot_sec (slots p) ++ made /\
    stop_calls p' = stop_calls p ++ filter stoppable made.
Proof.
  revert p. induction secs as [|sec secs IH]; intros p H; simpl in H.
  - simplify_eq. exists []. by rewrite filter_nil, !app_nil_r.
  - destruct (stop_one own app sec p) as [p1 [[]|e]] eqn:H1.
    + apply stop_one_spec in H1 as (Hs1 & Hc1 & _).
      apply IH in H as (made & Hpre & Hs & Hc).
      exists (sec :: made). split_and!; [by apply prefix_cons | | ].
      * by rewrite Hs, Hs1, <- app_assoc.
      * rewrite Hc, Hc1, <- app_assoc. f_equal.
        rewrite (filter_cons _ sec made), filter_cons, filter_nil.
        by case_decide.
    + simplify_eq. exists []. split; [apply prefix_nil | ].
      unfold stop_one in H1.
      destruct (allModules app !! sec) as [r|];
        [ | destruct (inherited sec); simplify_eq; by rewrite !app_nil_r].
      destruct (lookup_method own r "stop") as [stop|]; [ | done].
      by destruct (stop []) as [[]|].
Qed.

Lemma _stop_prefix names :
  exists made,
    made `prefix_of` filter (fun sec => sec ≠ mainAppName) (names_or_all names app) /\
    map slot_sec (slots (fst (_stop own app names))) = made /\
    stop_calls (fst (_stop own app names)) = filter stoppable made.
Proof.
  unfold _stop.
  destruct (map_stop own app _ stopping_init) as [p1 res] eqn:H1.
  apply map_stop_prefix in H1 as (made & Hpre & Hs & Hc).
  exists made. by destruct res as [[]|e].
Qed.

Lemma _start_prefix names :
  fst (_start own app names)
    `prefix_of` filter (start_target own app) (names_or_all names app).
Proof.
  unfold _start.
  destruct (filter_names _ _) as [secs|e] eqn:Hf; [ | apply prefix_nil].
  apply filter_names_spec in Hf as <-.
  destruct (map_start own app secs) as [called res] eqn:Hm.
  apply map_start_called in Hm as [Hpre _]. by destruct res.
Qed.

End Calls.

(** C10. In the [Application] that keeps the main application's key in the
    module-name set: [init] binds that name to the application itself,
    whatever the class registry holds, so without constructing a class; and
    neither [_start] nor [_stop] enters a function under that name or makes
    a promise for it, so that on a registry filled by [init] every [start()]
    and [stop()] entered by a lifecycle operation is that of a module. *)
Theorem main_app_outside_lifecycle own app names :
  init_step mainAppName app = (set_instance app mainAppName SelfApp, Return tt) /\
  (forall app', init names app = (app', Return tt) ->
     mainAppName ∈ names_or_all names app ->
     allModules app' !! mainAppName = Some SelfApp) /\
  (self_only_at_main app -> self_only_at_main (fst (init names app))) /\
  (mainAppName ∉ fst (_start own app names)) /\
  (forall evs,
     (mainAppName ∉ stop_calls (run evs (fst (_stop own app names)))) /\
     (mainAppName ∉ map slot_sec (slots (run evs (fst (_stop own app names)))))) /\
  (self_only_at_main app ->
     forall sec evs,
       sec ∈ fst (_start own app names)
       \/ sec ∈ stop_calls (run evs (fst (_stop own app names))) ->
       exists i, allModules app !! sec = Some (Mod i)).
Proof.
  destruct (_stop_prefix own app names) as (made & Hpre & Hslots & Hcalls).
  pose proof (_start_prefix own app names) as Hstart.
  assert (Hmade : forall sec, sec ∈ made -> sec <> mainAppName).
  { intros sec Hin. destruct Hpre as [rest Hpre].
    assert (Hin' : sec ∈ filter (fun sec => sec ≠ mainAppName) (names_or_all names app))
      by (rewrite Hpre; apply elem_of_app; by left).
    by apply list_elem_of_filter in Hin' as [? _]. }
  assert (Hstarted : forall sec, sec ∈ fst (_start own app names) ->
            start_target own app sec).
  { intros sec Hin. destruct Hstart as [rest Hstart].
    assert (Hin' : sec ∈ filter (start_target own app) (names_or_all names app))
      by (rewrite Hstart; apply elem_of_app; by left).
    by apply list_elem_of_filter in Hin' as [? _]. }
  split_and!.
  - done.
  - intros app' Hinit Hin. unfold init in Hinit.
    eapply init_binds_main; [done | by left].
  - apply init_self_only.
  - intros Hin. by destruct (Hstarted _ Hin) as [? _].
  - intros evs. rewrite run_stop_calls.
    destruct (run_extends evs (fst (_stop own app names))) as [-> _].
    rewrite Hslots, Hcalls. split.
    + intros [_ Hin]%list_elem_of_filter. by apply (Hmade _ Hin).
    + intros Hin. by apply (Hmade _ Hin).
  - intros Hself sec evs Hsec.
    assert (Hfun : sec <> mainAppName /\
                   exists f, has_function own app sec f = true).
    { destruct Hsec as [Hin | Hin].
      - destruct (Hstarted _ Hin) as [? ?]. eauto.
      - rewrite run_stop_calls, Hcalls in Hin.
        apply list_elem_of_filter in Hin as [? Hin]. split; [by apply Hmade | eauto]. }
    destruct Hfun as (Hne & f & Hf). unfold has_function in Hf.
    destruct (allModules app !! sec) as [[|i]|] eqn:Hr; [ | eauto | done].
    by apply Hself in Hr.
Qed.

(** ** The exit status after an interrupt *)

Lemma find_unfulfilled_spec results :
  truthy (find_unfulfilled results) = true
  <-> Exists (fun pm => exists r, pm = StatusRejected r) results.
Proof.
  unfold find_unfulfilled. induction results as [|pm results IH]; simpl.
  - split; [done | by intros ?%Exists_nil].
  - rewrite Exists_cons. destruct pm as [v|r]; simpl.
    + rewrite IH. split; [auto | ]. by intros [[? ?] | ?].
    + split; [eauto | done].
Qed.

(** The status handed to [process.exit] is 0 exactly when some entry is
    rejected, and 1 exactly when every entry is fulfilled. *)
Lemma exit_code_zero_iff_some_rejected results :
  (exit_code results = 0 <-> Exists (fun pm => exists r, pm = StatusRejected r) results) /\
  (exit_code results = 1 <-> Forall (fun pm => exists v, pm = StatusFulfilled v) results).
Proof.
  unfold exit_code. pose proof (find_unfulfilled_spec results) as Hfind.
  assert (Hall : Forall (fun pm => exists v, pm = StatusFulfilled v) results
                 <-> ~ Exists (fun pm => exists r, pm = StatusRejected r) results).
  { rewrite <- Forall_Exists_neg. apply Forall_iff. intros [v|r].
    - split; [by intros _ [? ?] | eauto].
    - split; [by intros [? ?] | intros H; destruct H; eauto]. }
  rewrite Hall, <- Hfind.
  destruct (truthy (find_unfulfilled results)); split; split; try done.
Qed.

(** ** Timers *)

Lemma stop_one_timers own app sec p p' :
  stop_one own app sec p = (p', Return tt) ->
  map (fun t => (timer_sec t, timer_ms t)) (timers p')
  = map (fun t => (timer_sec t, timer_ms t)) (timers p)
    ++ map (fun s => (s, timeout_for app s))
           (filter (fun s => has_function own app s "stop" = true) [sec]).
Proof.
  unfold stop_one, has_function. intros H.
  rewrite filter_cons, filter_nil.
  destruct (allModules app !! sec) as [r|] eqn:Hr;
    [ | destruct (inherited sec); simplify_eq/=; by rewrite app_nil_r].
  destruct (lookup_method own r "stop") as [stop|]; simpl.
  - unfold timeout_for. rewrite Hr.
    destruct (stop []) as [[]|e]; simplify_eq/=;
      rewrite map_app; simpl; by destruct (timeout_of r).
  - simplify_eq/=. by rewrite app_nil_r.
Qed.

(** One timer is set per module that has a [stop] function, for the
    module's [stopTimeout] when it is defined and for 2000 ms otherwise. *)
Lemma _stop_timers own app names p0 :
  _stop own app names = (p0, Return tt) ->
  map (fun t => (timer_sec t, timer_ms t)) (timers p0)
  = map (fun s => (s, timeout_for app s))
        (filter (fun s => has_function own app s "stop" = true)
                (filter (fun sec => sec ≠ mainAppName) (names_or_all names app))).
Proof.
  unfold _stop. intros H.
  destruct (map_stop own app _ stopping_init) as [p1 [[]|e]] eqn:H1; [ | done].
  simplify_eq. cbn [set_slots timers].
  assert (Hgen : forall secs p p',
    map_stop own app secs p = (p', Return tt) ->
    map (fun t => (timer_sec t, timer_ms t)) (timers p')
    = map (fun t => (timer_sec t, timer_ms t)) (timers p)
      ++ map (fun s => (s, timeout_for app s))
             (filter (fun s => has_function own app s "stop" = true) secs)).
  { clear. induction secs as [|sec secs IH]; intros p p' H; simpl in H.
    - simplify_eq. by rewrite filter_nil, app_nil_r.
    - destruct (stop_one own app sec p) as [p1 [[]|e]] eqn:H1; [ | done].
      rewrite (IH _ _ H), (stop_one_timers _ _ _ _ _ H1), <- app_assoc.
      f_equal. rewrite <- map_app. f_equal.
      rewrite (filter_cons _ sec secs), filter_cons, filter_nil.
      by case_decide. }
  by rewrite (Hgen _ _ _ H1).
Qed.

(** A timer that comes due runs [tmFunc] on the [Timeout] object: the
    message is logged, the read of [this.throwError] yields [undefined], the
    call throws, [reject] is not reached and the exception is uncaught. *)
Lemma timer_due_uncaught id p t :
  uncaught p = None -> find_timer id p = Some t ->
  step (TimerDue id) p
  = crash (TypeError "this.throwError is not a function")
      (console_error
         [VStr (("Stopping of " +:+ timer_sec t +:+ " timed out after "
                 +:+ pretty (timer_ms t) +:+ " ms!") +:+ nl)]
         (clearTimeout (Handle id) p)).
Proof. intros Hu Ht. unfold step. by rewrite Hu, Ht. Qed.

(** After an uncaught exception nothing runs. *)
Lemma crashed_final evs p e : uncaught p = Some e -> run evs p = p.
Proof.
  intros He. unfold run. induction evs as [|ev evs IH]; simpl; [done | ].
  unfold step at 2. by rewrite He.
Qed.

(** The handlers given to [stop().then] leave every timer set:
    [clearTimeout] is handed the callback, not the handle. *)
Lemma settles_keeps_timers i o p : timers (step (Settles i o) p) = timers p.
Proof.
  unfold step. destruct (uncaught p); [done | ].
  destruct (slots p !! i) as [s|] eqn:Hi; [ | done].
  destruct (slot_awaiting s); [ | done].
  assert (Hh : timers (heard i p) = timers p)
    by (unfold heard; by rewrite Hi).
  destruct o as [v | er]; unfold on_stopped, on_stop_failed, settle_slot;
    cbn [clearTimeout console_error slots];
    destruct (slots (heard i p) !! i) as [s'|]; try done;
    by destruct (is_pending (slot_state s')).
Qed.

(** Run on the application, [tmFunc] would reject the module's promise with
    the error coded [<prefix>_STOP_TIMED_OUT] whose message names the module
    and the duration. *)
Lemma tmFunc_on_application app sec tm i p s :
  slots p !! i = Some s -> slot_state s = Pending ->
  exists p',
    tmFunc (ThisApplication app) sec tm i p = (p', Return tt) /\
    (slot_state <$> slots p' !! i)
    = Some (Rejected (VError (Err "Error"
        ("Stopping of " +:+ sec +:+ " timed out after " +:+ pretty tm +:+ " ms!")
        (Some (mainModuleCodeUpper app +:+ "_" +:+ "STOP_TIMED_OUT"))))).
Proof.
  intros Hi Hs. eexists. split; [reflexivity | ].
  unfold settle_slot. cbn [console_error slots]. rewrite Hi, Hs.
  cbn [is_pending set_slots slots].
  rewrite list_lookup_insert_eq by (by eapply lookup_lt_Some). done.
Qed.

(** C3, at a failing input. [sample_app.stop()] sets a timer of 2000 ms for
    [db] and one of 500 ms for [cache]. When the timer of [cache] comes due
    before its [stop()] has settled, the message is logged, but the promise
    of [cache] is not rejected: it stays pending, the exception thrown by the
    callback is uncaught, and the later settling of the [stop()] of [db] is
    never heard, so that the returned promise stays pending. *)
Theorem stop_timeout_leaves_slot_pending :
  let p := run [TimerDue 1; Settles 0 (Resolve VUndefined)] sample_stopping in
  timers sample_stopping = [Timer 0 "db" 2000 0; Timer 1 "cache" 500 1] /\
  map slot_state (slots p)
    = [Pending; Pending; Fulfilled (VStr "stop MODULE_FUNCTION_NOT_FOUND")] /\
  stderr p = [[VStr ("Stopping of cache timed out after 500 ms!" +:+ nl)]] /\
  uncaught p = Some (TypeError "this.throwError is not a function") /\
  (joined <$> allSettled p) = Some Pending.
Proof. vm_compute. repeat split. Qed.

(** C4, at a failing input. After the [stop()] of [cache] has been
    fulfilled, its promise is fulfilled with the module's value, but its
    timer is still set; when the timer comes due the time-out message is
    logged for [cache] and the callback throws. *)
Theorem settled_stop_timer_still_fires :
  let p1 := run [Settles 1 (Resolve (VStr "closed"))] sample_stopping in
  let p2 := run [Settles 1 (Resolve (VStr "closed")); TimerDue 1] sample_stopping in
  (slot_state <$> slots p1 !! 1) = Some (Fulfilled (VStr "closed")) /\
  timers p1 = [Timer 0 "db" 2000 0; Timer 1 "cache" 500 1] /\
  stderr p2 = [[VStr ("Stopping of cache timed out after 500 ms!" +:+ nl)]] /\
  uncaught p2 = Some (TypeError "this.throwError is not a function").
Proof. vm_compute. repeat split. Qed.

(** C2, at failing inputs. With every entry fulfilled the status handed to
    [process.exit] is 1, and with a rejected entry it is 0; after a stop of
    [sample_app] in which both [stop()] promises are fulfilled,
    [signalInterrupt] exits with 1. *)
Theorem exit_code_inverted :
  exit_code [StatusFulfilled VUndefined; StatusFulfilled VUndefined] = 1 /\
  exit_code [StatusFulfilled VUndefined; StatusRejected (VStr "down")] = 0 /\
  signalInterrupt
    (run [Settles 0 (Resolve VUndefined); Settles 1 (Resolve VUndefined)]
         sample_stopping) = Some 1.
Proof. vm_compute. repeat split. Qed.

End Properties.

(** ** The theorems at the sample application *)

Section Sample.
#[local] Existing Instance sample_host.

Lemma sample_app_built :
  exists app0,
    Application_new sample_config "/srv/lib" = Return app0 /\
    fst (init None (fst (require sample_loader None None app0))) = sample_app.
Proof. eexists. split; [reflexivity | ]. vm_compute. reflexivity. Qed.

Lemma sample_registered :
  Forall (fun sec => sec ≠ mainAppName -> registered sample_app sec)
         (names_or_all None sample_app).
Proof. repeat constructor; intros _; vm_compute; eexists; reflexivity. Defined.


Lemma stop_without_stop_function_fulfilled_witness :
  Forall (fun sec => sec ≠ mainAppName -> registered sample_app sec)
         (names_or_all None sample_app) /\
  exists p0,
    _stop sample_own sample_app None = (p0, Return tt) /\
    forall evs i s, slots (run evs p0) !! i = Some s ->
      has_function sample_own sample_app (slot_sec s) "stop" = false ->
      slot_state s = Fulfilled (VStr "stop MODULE_FUNCTION_NOT_FOUND").
Proof.
  split; [exact sample_registered | ].
  destruct (stop_without_stop_function_fulfilled sample_own sample_app None
              sample_registered) as (p0 & H0 & Hrun).
  exists p0. split; [exact H0 | ]. intros evs.
  destruct (Hrun evs) as (_ & Hun & _). exact Hun.
Defined.

Lemma start_all_or_nothing_witness :
  (_start sample_own sample_app_faulty (Some ["db"; "net"; "cache"])
   = (["db"; "net"], Throw (Err "Error" "no route" None))) /\
  exists s0,
    _start sample_own sample_app None = (["db"], Return s0) /\
    forall evs,
      elements (run_start evs s0) = imap (started_state evs) [VPromise] /\
      forall ws, joined (all (run_start evs s0)) = Fulfilled ws
                 <-> elements (run_start evs s0) = map Fulfilled ws.
Proof.
  split.
  - assert (Hreg : Forall (fun s => s ≠ mainAppName -> registered sample_app_faulty s)
                     (names_or_all (Some ["db"; "net"; "cache"]) sample_app_faulty))
      by (repeat constructor; intros _; vm_compute; eexists; reflexivity).
    apply (proj1 (start_all_or_nothing sample_own sample_app_faulty
                    (Some ["db"; "net"; "cache"]) Hreg) ["db"] "net" []).
    + vm_compute. reflexivity.
    + repeat constructor. eexists. vm_compute. reflexivity.
    + vm_compute. reflexivity.
  - assert (Hvs : Forall2 (fun sec v => call_start sample_own sample_app sec = Return v)
                    (filter (start_target sample_own sample_app)
                            (names_or_all None sample_app)) [VPromise])
      by (vm_compute; repeat constructor).
    destruct (proj2 (start_all_or_nothing sample_own sample_app None sample_registered)
                [VPromise] Hvs) as (s0 & H0 & Hrun).
    exists s0. split; [exact H0 | ]. intros evs.
    destruct (Hrun evs) as (Hel & Hful & _). split; [exact Hel | exact Hful].
Defined.

Lemma module_missing_function_witness :
  module sample_own sample_app (One "log") "start" []
    = Throw (Err "Error" "Error" (Some "MY_APP_MODULE_FUNCTION_NOT_FOUND")) /\
  module sample_own sample_app (Many ["db"; "log"; "cache"]) "stop" []
    = module sample_own sample_app (Many ["db"; "cache"]) "stop" [].
Proof.
  split.
  - exact (proj1 (module_missing_function sample_own sample_app "log" "start" []
                    (Mod sample_log) eq_refl eq_refl)).
  - exact (proj2 (module_missing_function sample_own sample_app "log" "stop" []
                    (Mod sample_log) eq_refl eq_refl) ["db"] ["cache"]).
Defined.

Lemma throwError_code_witness :
  exists app,
    Application_new sample_config "/srv/lib" = Return app /\
    throwError app "STOP_TIMED_OUT" None (Some true)
      = Return (Err "Error" "Error" (Some "MY_APP_STOP_TIMED_OUT")) /\
    throwError app "MODULE_NOT_FOUND" (Some "no such module") None
      = Throw (Err "Error" "no such module" (Some "MY_APP_MODULE_NOT_FOUND")).
Proof.
  eexists. split; [reflexivity | ]. split.
  - exact (throwError_code sample_config "/srv/lib" _ _ "my-app" "STOP_TIMED_OUT"
             None (Some true) eq_refl eq_refl eq_refl).
  - exact (throwError_code sample_config "/srv/lib" _ _ "my-app" "MODULE_NOT_FOUND"
             (Some "no such module") None eq_refl eq_refl eq_refl).
Defined.

Lemma require_registers_once_witness :
  (exists app',
     require sample_loader (Some ["db"; "log"; "db"]) None sample_app_fresh
     = (app', Return tt) /\
     modules app' = ["mbjs-app"; "db"; "log"] /\
     forall conf2,
       require sample_loader (Some ["db"; "log"; "db"]) conf2 app' = (app', Return tt)) /\
  modules (fst (require sample_loader (Some ["__proto__"]) None
                  (fst (require sample_loader (Some ["__proto__"]) None sample_app_fresh))))
  = ["mbjs-app"; "__proto__"; "__proto__"].
Proof.
  split.
  - eexists. split; [vm_compute; reflexivity | ]. split; [reflexivity | ].
    assert (Hp : "__proto__" ∉ names_or_all (Some ["db"; "log"; "db"]) sample_app_fresh)
      by (apply (bool_decide_unpack _); vm_compute; exact I).
    refine (proj2 (proj2 (proj2 (proj2
      (proj1 (require_registers_once sample_loader sample_app_fresh None)
         (Some ["db"; "log"; "db"]) _ Hp _))))).
    vm_compute. reflexivity.
  - exact (proj2 (proj2 (proj2
      (proj2 (require_registers_once sample_loader sample_app_fresh None)
         eq_refl eq_refl)))).
Defined.

Lemma sample_self_only : self_only_at_main sample_app.
Proof.
  intros sec H. unfold sample_app in H. cbn [allModules] in H.
  repeat (apply lookup_insert_Some in H as [[_ H] | [_ H]]; [discriminate H | ]).
  apply lookup_insert_Some in H as [[<- _] | [_ H]]; [reflexivity | ].
  by rewrite lookup_empty in H.
Defined.

Lemma main_app_outside_lifecycle_witness :
  self_only_at_main sample_app /\
  allModules sample_app !! mainAppName = Some SelfApp /\
  (mainAppName ∉ fst (_start sample_own sample_app None)) /\
  forall sec evs,
    sec ∈ stop_calls (run evs sample_stopping) ->
    exists i, allModules sample_app !! sec = Some (Mod i).
Proof.
  pose proof (main_app_outside_lifecycle sample_own sample_app None)
    as (_ & _ & _ & Hstart & _ & Hmods).
  split_and!; [exact sample_self_only | reflexivity | exact Hstart | ].
  intros sec evs Hin. apply (Hmods sample_self_only sec evs). right. exact Hin.
Defined.

End Sample.

(** * Further properties *)

Section Further.
Context `{host : Host}.

(** ** The constructor *)

Lemma Application_new_fields config0 srcdir0 app :
  Application_new config0 srcdir0 = Return app ->
  (exists main name,
     obj_get config0 mainAppName = Some main /\
     obj_get main "name" = Some (VStr name) /\
     appConfig app = Some main) /\
  config app = config0 /\
  srcdir app = srcdir0 /\
  modules app = Object_keys config0 /\
  mainAppName ∈ modules app /\
  AllModules app = ∅ /\ allModules app = ∅ /\
  modules_cover app /\ classes_configured app /\
  (NoDup (Object_keys config0) -> modules_known app).
Proof.
  intros Hnew. pose proof (Application_new_known _ _ _ Hnew) as Hknown.
  unfold Application_new in Hnew.
  destruct (obj_get config0 mainAppName) as [main|] eqn:Hmain; [ | done].
  destruct (obj_get main "name") as [[| | |name| |]|] eqn:Hname; simplify_eq.
  cbn [appConfig config srcdir modules AllModules allModules].
  split_and!; try done.
  - eauto.
  - apply obj_get_keys. unfold hasOwnProperty. by rewrite Hmain.
  - intros sec Hsec. cbn [config modules] in *. by apply obj_get_keys.
  - intros sec [cls Hcls]. cbn [AllModules] in Hcls. by rewrite lookup_empty in Hcls.
Qed.

(** X1. The constructor returns exactly when the configuration has the main
    application's entry with a string [name]: with such an entry it returns
    an application that has the keys of the configuration as module names,
    the main application's name among them, both registries empty, and the
    invariants that [require] relies on; it returns in no other case, and
    without such an entry it throws a [TypeError]. *)
Theorem Application_new_spec (config0 : list (string * cfg)) srcdir0 :
  (forall (main : cfg) name,
     obj_get config0 mainAppName = Some main ->
     obj_get main "name" = Some (VStr name) ->
     exists app,
       Application_new config0 srcdir0 = Return app /\
       appConfig app = Some main /\
       config app = config0 /\
       srcdir app = srcdir0 /\
       modules app = Object_keys config0 /\
       mainAppName ∈ modules app /\
       AllModules app = ∅ /\ allModules app = ∅ /\
       modules_cover app /\ classes_configured app /\
       (NoDup (Object_keys config0) -> modules_known app)) /\
  (forall app, Application_new config0 srcdir0 = Return app ->
     exists main name,
       obj_get config0 mainAppName = Some main /\
       obj_get main "name" = Some (VStr name)) /\
  ((forall main name, obj_get config0 mainAppName = Some main ->
      obj_get main "name" <> Some (VStr name)) ->
   exists msg, Application_new config0 srcdir0 = Throw (TypeError msg)).
Proof.
  split_and!.
  - intros main name Hmain Hname.
    assert (Hret : exists app, Application_new config0 srcdir0 = Return app).
    { unfold Application_new. rewrite Hmain, Hname. eauto. }
    destruct Hret as [app Hnew]. exists app. split; [done | ].
    destruct (Application_new_fields _ _ _ Hnew)
      as ((main' & name' & Hm' & _ & Ha) & H2 & H3 & H4 & H5 & H6 & H7 & H8 & H9 & H10).
    split_and!; try done. congruence.
  - intros app Hnew.
    destruct (Application_new_fields _ _ _ Hnew) as ((main & name & Hm & Hn & _) & _).
    eauto.
  - intros Hnone. unfold Application_new.
    destruct (obj_get config0 mainAppName) as [main|] eqn:Hmain; [ | eauto].
    specialize (Hnone main).
    destruct (obj_get main "name") as [[| | |name| |]|] eqn:Hname; eauto.
    by destruct (Hnone name eq_refl).
Qed.

(** ** [require] *)

Section RequireMore.
Variable loader : string -> string -> result class.

(** X2. Whatever [require] is given and whether it returns or throws, it
    leaves the source directory, the prefix and the instances as they were,
    it changes the configuration of no key that was there, the module names
    it found stay the first names in their order, and the class of a name
    outside the list is untouched. *)
Theorem require_keeps_what_was_there names conf app :
  require_keeps app (fst (require loader names conf app)) /\
  forall k, k ∉ names_or_all names app ->
    AllModules (fst (require loader names conf app)) !! k = AllModules app !! k.
Proof.
  unfold require.
  destruct (forEach_require_keeps loader (default [] conf) (names_or_all names app) app)
    as (Hk & Ho & _). done.
Qed.

(** X3. When [require] returns, every name of its list has been loaded,
    and every such name other than ["__proto__"] is a key of the
    configuration and has in the class registry the class the loader gave
    for it; on an application whose module-name set covers the configuration
    keys, every name of the list is in the module-name set. *)
Theorem require_registers_every_name names conf app app' :
  require loader names conf app = (app', Return tt) ->
  forall sec, sec ∈ names_or_all names app ->
    (sec <> "__proto__" -> hasOwnProperty (config app') sec = true) /\
    (exists cls, loader (srcdir app) sec = Return cls /\
                 (sec <> "__proto__" -> AllModules app' !! sec = Some cls)) /\
    (modules_cover app -> sec ∈ modules app').
Proof. apply require_Return_spec. Qed.

(** X4. When the loader throws for a name, [require] stops there with that
    exception: the names before it are registered as if they had been
    required alone, the failing name has no class written, the names after
    it are not looked at; yet the failing name, if the configuration lacked
    it, has already been appended to the module-name set and, unless it is
    ["__proto__"], been given the default configuration as a new last
    property. *)
Theorem require_stops_at_failure conf app before sec after app1 e :
  require loader (Some before) conf app = (app1, Return tt) ->
  loader (srcdir app) sec = Throw e ->
  exists app2,
    require loader (Some (before ++ sec :: after)) conf app = (app2, Throw e) /\
    AllModules app2 = AllModules app1 /\
    allModules app2 = allModules app1 /\
    (hasOwnProperty (config app1) sec = true -> app2 = app1) /\
    (hasOwnProperty (config app1) sec = false ->
       modules app2 = modules app1 ++ [sec] /\
       config app2 = if String.eqb sec "__proto__" then config app1
                     else config app1 ++ [(sec, default [] conf)]).
Proof.
  unfold require. cbn [names_or_all]. intros H1 Hload.
  rewrite forEach_app, H1. cbn [forEach].
  destruct (forEach_require_keeps loader (default [] conf) before app) as ((Hs & _) & _).
  rewrite H1 in Hs. cbn [fst] in Hs.
  unfold require_step.
  destruct (hasOwnProperty (config app1) sec) eqn:Hsec; cbn [negb srcdir];
    rewrite ?Hs, Hload; eexists; (split; [reflexivity | ]);
    cbn [AllModules allModules config modules]; split_and!; try done.
  intros _. split; [done | ]. by apply obj_assign_absent.
Qed.

End RequireMore.

(** ** [init] *)

Lemma init_step_Return sec a a' :
  init_step sec a = (a', Return tt) ->
  (sec = mainAppName /\ a' = set_instance a sec SelfApp) \/
  (sec <> mainAppName /\
   exists i,
     made_by_init a sec i /\
     a' = set_instance a sec (Mod i)).
Proof.
  unfold init_step, made_by_init.
  destruct (String.eqb_spec sec mainAppName) as [->|Hne].
  - intros [= <-]. by left.
  - destruct (AllModules a !! sec) as [cls|] eqn:Hcls.
    + destruct (construct cls _ _) as [i|e] eqn:Hi; [ | done].
      intros [= <-]. right. split; [done | ]. by exists i.
    + destruct (String.eqb_spec sec "constructor") as [->|]; [ | done].
      intros [= <-]. right. split; [done | ]. eauto.
Qed.

Lemma made_by_init_frame a b sec i :
  config b = config a -> AllModules b = AllModules a ->
  mainModuleCodeUpper b = mainModuleCodeUpper a ->
  made_by_init b sec i -> made_by_init a sec i.
Proof. unfold made_by_init. by intros -> -> ->. Qed.

Lemma init_Return_spec names app app' :
  init names app = (app', Return tt) ->
  config app' = config app /\
  modules app' = modules app /\
  AllModules app' = AllModules app /\
  mainModuleCodeUpper app' = mainModuleCodeUpper app /\
  (forall sec, sec ∈ names_or_all names app ->
     (sec = mainAppName /\ allModules app' !! sec = Some SelfApp) \/
     (sec <> mainAppName /\
      exists i,
        made_by_init app sec i /\
        (sec <> "__proto__" -> allModules app' !! sec = Some (Mod i)))) /\
  (forall k, k ∉ names_or_all names app -> allModules app' !! k = allModules app !! k).
Proof.
  unfold init. generalize (names_or_all names app) as l. intros l. revert app.
  induction l as [|s l IH]; intros app H.
  - simpl in H. simplify_eq. split_and!; try done.
    intros sec Hin. by apply elem_of_nil in Hin.
  - apply forEach_cons_Return in H as (a1 & H1 & H2).
    destruct (IH a1 H2) as (Hc & Hm & Hcl & Hp & Hin & Hout). clear IH.
    assert (Hframe : config a1 = config app /\ modules a1 = modules app /\
                     AllModules a1 = AllModules app /\
                     mainModuleCodeUpper a1 = mainModuleCodeUpper app /\
                     forall k, k <> s -> allModules a1 !! k = allModules app !! k).
    { apply init_step_Return in H1 as [[-> ->] | (Hne & i & _ & ->)];
        cbn [set_instance config modules AllModules mainModuleCodeUpper allModules];
        split_and!; try done; intros k Hk; by rewrite lookup_assign_ne. }
    destruct Hframe as (Hc1 & Hm1 & Hcl1 & Hp1 & Hout1).
    split_and!; try congruence.
    + intros sec Hsec. destruct (decide (sec ∈ l)) as [Hl | Hl].
      { destruct (Hin sec Hl) as [? | (Hne & i & Hi & Hreg)]; [by left | ].
        right. split; [done | ]. exists i. split; [ | done].
        by eapply made_by_init_frame. }
      apply elem_of_cons in Hsec as [-> | ?]; [ | done].
      rewrite (Hout s Hl).
      apply init_step_Return in H1 as [[-> ->] | (Hne & i & Hi & ->)];
        cbn [set_instance allModules].
      * left. split; [done | ]. by apply lookup_assign_eq.
      * right. split; [done | ]. exists i. split; [done | ].
        intros Hp'. by apply lookup_assign_eq.
    + intros k [Hne Hk]%not_elem_of_cons. rewrite (Hout k Hk). by apply Hout1.
Qed.



(** X7. Every name that has a class in the registry has a configuration:
    this holds of a fresh application, is kept by [require] and by [init],
    and makes [init] hand every constructor a configuration object, never
    [undefined]. *)
Theorem classes_stay_configured loader app :
  classes_configured app ->
  (forall names conf, classes_configured (fst (require loader names conf app))) /\
  (forall names, classes_configured (fst (init names app))) /\
  (forall sec cls, AllModules app !! sec = Some cls ->
     exists c, obj_get (config app) sec = Some c).
Proof.
  intros Hcl. split_and!.
  - intros names conf. unfold require.
    by apply (forEach_require_keeps loader).
  - intros names. unfold init. apply (forEach_preserves classes_configured); [ | done].
    intros sec a Ha k.
    destruct (init_step_fst sec a) as [-> | [[_ ->] | [_ [i ->]]]]; apply Ha.
  - intros sec cls Hsec. specialize (Hcl sec (ex_intro _ cls Hsec)).
    unfold hasOwnProperty in Hcl. destruct (obj_get (config app) sec); [eauto | done].
Qed.

(** ** Named dispatch, further *)

(** X8. A name that is not registered makes the dispatcher throw the error
    coded [<prefix>_MODULE_NOT_FOUND], for a single name and inside an array
    alike: in an array the names before it are called first, and unless one
    of them throws, the error replaces whatever they returned. *)
Theorem module_not_found own app sec func params :
  allModules app !! sec = None ->
  let not_found :=
    Err "Error" "Error" (Some (mainModuleCodeUpper app +:+ "_" +:+ "MODULE_NOT_FOUND")) in
  module own app (One sec) func params = Throw not_found /\
  forall before after,
    module own app (Many (before ++ sec :: after)) func params
    = match module own app (Many before) func params with
      | Throw e => Throw e
      | Return _ => Throw not_found
      end.
Proof.
  intros Hsec not_found. split.
  - unfold module. cbn [isArray module_loop]. unfold module_step. by rewrite Hsec.
  - intros before after. unfold module. cbn [isArray].
    rewrite module_loop_app.
    destruct (module_loop own app true func params before []) as [res|e]; [ | done].
    cbn [module_loop]. unfold module_step at 1. by rewrite Hsec.
Qed.

Lemma module_loop_values own app isAr func params names results :
  Forall (fun sec =>
    exists r, allModules app !! sec = Some r /\
      match lookup_method own r func with
      | Some m => exists v, m params = Return v
      | None => isAr = true
      end) names ->
  module_loop own app isAr func params names results
  = Return (results ++ omap (call_value own app func params) names).
Proof.
  intros Hall. revert results.
  induction Hall as [|sec names (r & Hr & Hm) _ IH]; intros results;
    cbn [module_loop omap list_omap].
  - by rewrite app_nil_r.
  - unfold module_step, call_value at 1. rewrite Hr.
    destruct (lookup_method own r func) as [m|].
    + destruct Hm as [v ->]. rewrite IH, <- app_assoc. done.
    + subst isAr. cbn [negb]. apply IH.
Qed.

(** X9. When every name of an array is registered and no function called
    throws, the dispatcher returns the values of the instances that have
    the function, in the order of the names, at most one per name; for a
    single name whose instance has the function it returns that function's
    value itself; and an exception thrown by the function is thrown by the
    dispatcher. *)
Theorem module_collects_in_order own app func params :
  (forall names,
     Forall (fun sec =>
       exists r, allModules app !! sec = Some r /\
         forall m, lookup_method own r func = Some m -> exists v, m params = Return v)
       names ->
     module own app (Many names) func params
       = Return (Results (omap (call_value own app func params) names)) /\
     length (omap (call_value own app func params) names) <= length names) /\
  (forall sec r m,
     allModules app !! sec = Some r -> lookup_method own r func = Some m ->
     module own app (One sec) func params
     = match m params with
       | Return v => Return (Popped v)
       | Throw e => Throw e
       end).
Proof.
  split.
  - intros names Hall. split.
    + unfold module. cbn [isArray]. rewrite module_loop_values; [done | ].
      eapply Forall_impl; [exact Hall | ]. intros sec (r & Hr & Hm).
      exists r. split; [done | ].
      destruct (lookup_method own r func) as [m|]; [by apply Hm | done].
    + clear. induction names as [|sec names IH]; cbn [omap list_omap]; [done | ].
      change (list_omap _ _ ?f names) with (omap f names).
      destruct (call_value own app func params sec); simpl; lia.
  - intros sec r m Hr Hm. unfold module. cbn [isArray module_loop].
    unfold module_step. rewrite Hr, Hm.
    destruct (m params) as [v|e]; [ | done]. by rewrite last_snoc.
Qed.

(** ** [_start], further *)




(** X11. When the [start()] of one module throws synchronously, [_start]
    throws that exception and returns no promise; the [start()] of every
    module before it in the list has been entered and is left running, and
    that of the modules after it is never entered. *)
Theorem start_stops_at_sync_throw own app names before sec after e :
  Forall (fun s => s ≠ mainAppName -> registered app s) (names_or_all names app) ->
  filter (start_target own app) (names_or_all names app) = before ++ sec :: after ->
  Forall (fun s => exists v, call_start own app s = Return v) before ->
  call_start own app sec = Throw e ->
  _start own app names = (before ++ [sec], Throw e).
Proof.
  apply _start_sync_throw.
Qed.

(** X12. When no name of the list is a module with a [start] function,
    [_start] enters nothing and returns a promise that is already fulfilled
    with the empty array. *)
Theorem start_nothing_to_start own app names :
  Forall (fun s => s ≠ mainAppName -> registered app s) (names_or_all names app) ->
  Forall (fun s => ~ start_target own app s) (names_or_all names app) ->
  _start own app names
  = ([], Return {| elements := [];
                   all := {| remaining := 0; gathered := []; joined := Fulfilled [] |} |}).
Proof.
  intros Hreg Hnone. unfold _start.
  destruct (filter_names_returns own app _ Hreg) as [kept Hkept].
  rewrite Hkept. apply filter_names_spec in Hkept as ->.
  assert (Hnil : filter (start_target own app) (names_or_all names app) = []).
  { clear -Hnone. induction Hnone as [|s l Hs _ IH]; [done | ].
    rewrite filter_cons. by rewrite decide_False. }
  by rewrite Hnil.
Qed.

(** ** [_stop], further *)





Lemma stop_one_made own app sec p p' :
  stop_one own app sec p = (p', Return tt) ->
  exists s,
    slots p' = slots p ++ [s] /\ slot_sec s = sec /\ slot_as_made own app s /\
    slot_awaiting s = is_pending (slot_state s) /\
    (timers p' = timers p /\ next_timer p' = next_timer p \/
     exists tm, timers p' = timers p ++ [Timer (next_timer p) sec tm (length (slots p))] /\
                next_timer p' = S (next_timer p)).
Proof.
  unfold stop_one, slot_as_made. intros H.
  destruct (allModules app !! sec) as [r|] eqn:Hr.
  2: { destruct (inherited sec); simplify_eq. eexists.
       cbn [push_slot set_slots slots slot_sec].
       split_and!; [reflexivity | reflexivity | | reflexivity | left; done].
       cbn [slot_sec]. rewrite Hr. done. }
  destruct (lookup_method own r "stop") as [m|] eqn:Hm.
  - destruct (m []) as [v|e] eqn:Hv.
    + destruct v; simplify_eq; eexists; cbn [push_slot set_slots slots slot_sec];
        (split_and!; [reflexivity | reflexivity | | reflexivity | right; eauto]);
        cbn [slot_sec]; rewrite Hr, Hm, Hv; done.
    + simplify_eq. eexists. cbn [push_slot set_slots slots slot_sec].
      split_and!; [reflexivity | reflexivity | | reflexivity | right; eauto].
      cbn [slot_sec]. rewrite Hr, Hm, Hv. done.
  - simplify_eq. eexists. cbn [push_slot set_slots slots slot_sec].
    split_and!; [reflexivity | reflexivity | | reflexivity | left; done].
    cbn [slot_sec]. rewrite Hr, Hm. done.
Qed.

Lemma map_stop_made own app secs p p' :
  map_stop own app secs p = (p', Return tt) ->
  timers_fit p -> Forall (slot_as_made own app) (slots p) ->
  timers_fit p' /\ Forall (slot_as_made own app) (slots p').
Proof.
  revert p. induction secs as [|sec secs IH]; intros p H Hfit Hmade; simpl in H.
  - by simplify_eq.
  - destruct (stop_one own app sec p) as [p1 [[]|e]] eqn:H1; [ | done].
    apply (IH p1 H); clear IH H.
    + apply stop_one_made in H1 as (s & Hs & Hsec & _ & Haw & Ht).
      destruct Hfit as [Hids Hpoint].
      assert (Hold : Forall (fun t => exists s0, slots p1 !! timer_slot t = Some s0 /\
                             slot_sec s0 = timer_sec t /\
                             slot_awaiting s0 = is_pending (slot_state s0)) (timers p)).
      { eapply Forall_impl; [exact Hpoint | ]. intros t (s0 & Ht0 & Hs0).
        exists s0. split; [ | done]. rewrite Hs. by apply lookup_app_l_Some. }
      unfold timers_fit.
      destruct Ht as [[Ht Hn] | (tm & Ht & Hn)]; rewrite Ht, Hn; split; try done.
      * rewrite map_app, Hids, seq_S. done.
      * apply Forall_app. split; [done | ]. constructor; [ | done].
        exists s. cbn [timer_slot timer_sec]. split; [ | done].
        rewrite Hs. by apply list_lookup_middle.
    + apply stop_one_made in H1 as (s & -> & _ & Hs & _).
      apply Forall_app. split; [done | by constructor].
Qed.

Lemma _stop_made own app names p0 :
  _stop own app names = (p0, Return tt) ->
  timers_fit p0 /\ Forall (slot_as_made own app) (slots p0).
Proof.
  unfold _stop. intros H.
  destruct (map_stop own app _ stopping_init) as [p1 [[]|e]] eqn:H1; [ | done].
  simplify_eq. apply map_stop_made in H1 as [Hfit Hmade]; [done | | done].
  split; [done | constructor].
Qed.

(** X14. For every module of the list that has a [stop] function, the
    promise [_stop] makes starts out by what [stop()] did: pending and
    awaited when it returned a promise, rejected with the exception when it
    threw, rejected with a [TypeError] when it returned anything else; a
    synchronous failure of one [stop()] thus never makes [_stop] throw. *)
Theorem stop_first_slot_states own app names :
  Forall (fun sec => sec ≠ mainAppName -> registered app sec)
         (names_or_all names app) ->
  exists p0,
    _stop own app names = (p0, Return tt) /\
    forall i s r m,
      slots p0 !! i = Some s ->
      allModules app !! slot_sec s = Some r ->
      lookup_method own r "stop" = Some m ->
      (slot_state s, slot_awaiting s) = first_slot_state (m []).
Proof.
  intros Hreg. destruct (_stop_returns own app names Hreg) as [p0 H].
  exists p0. split; [done | ]. intros i s r m Hi Hr Hm.
  apply _stop_made in H as [_ Hmade]. rewrite Forall_lookup in Hmade.
  specialize (Hmade i s Hi). unfold slot_as_made in Hmade.
  by rewrite Hr, Hm in Hmade.
Qed.

(** X15. [_stop] sets exactly one timer per module of the list that has a
    [stop] function, in the order of the list, for the module's
    [stopTimeout] when it is defined and for 2000 ms otherwise; and each
    timer closes over the promise made for its own module. *)
Theorem stop_sets_one_timer_per_module own app names :
  Forall (fun sec => sec ≠ mainAppName -> registered app sec)
         (names_or_all names app) ->
  exists p0,
    _stop own app names = (p0, Return tt) /\
    map (fun t => (timer_sec t, timer_ms t)) (timers p0)
    = map (fun s => (s, timeout_for app s))
          (filter (fun s => has_function own app s "stop" = true)
                  (filter (fun sec => sec ≠ mainAppName) (names_or_all names app))) /\
    forall t, t ∈ timers p0 ->
      exists s, slots p0 !! timer_slot t = Some s /\ slot_sec s = timer_sec t.
Proof.
  intros Hreg. destruct (_stop_returns own app names Hreg) as [p0 H].
  exists p0. split; [done | ].
  pose proof (_stop_timers _ _ _ _ H) as Ht.
  apply _stop_made in H as [[Hids Hpoint] _].
  split; [done | ].
  intros t Hin. rewrite Forall_forall in Hpoint.
  destruct (Hpoint t Hin) as (s & Hs & Hsec & _). eauto.
Qed.

(** ** The event loop, further *)

Lemma heard_slot i p s :
  slots p !! i = Some s ->
  slots (heard i p) = <[i := Slot (slot_sec s) (slot_state s) false]> (slots p) /\
  timers (heard i p) = timers p /\ stderr (heard i p) = stderr p /\
  stop_calls (heard i p) = stop_calls p /\ allSettled (heard i p) = allSettled p /\
  uncaught (heard i p) = uncaught p.
Proof. intros Hi. unfold heard. by rewrite Hi. Qed.

(** X16. When the promise returned by a module's [stop()] settles while the
    promise made for the module is pending, that promise takes the module's
    own outcome and [Promise.allSettled] hears of it; a rejection writes two
    entries to the error stream, the first naming the module and the second
    holding the reason, and a fulfilment writes none; no timer is cleared
    and no other promise changes. *)
Theorem stop_settlement_reaches_slot i o p s :
  uncaught p = None ->
  slots p !! i = Some s ->
  slot_awaiting s = true ->
  slot_state s = Pending ->
  let p' := step (Settles i o) p in
  slots p' = <[i := Slot (slot_sec s) (pstate_of o) false]> (slots p) /\
  allSettled p' = allSettled_notify i (pstate_of o) <$> allSettled p /\
  stderr p'
  = stderr p ++ match o with
                | Resolve _ => []
                | Reject er => [[VStr (slot_sec s +:+ " could not be stopped!" +:+ nl)];
                                [er; VStr nl]]
                end /\
  timers p' = timers p /\
  stop_calls p' = stop_calls p /\
  uncaught p' = None.
Proof.
  intros Hu Hi Haw Hst p'. subst p'. unfold step. rewrite Hu, Hi, Haw.
  destruct (heard_slot i p s Hi) as (Hsl & Ht & He & Hc & Ha & Hun).
  assert (Hlt : i < length (slots p)) by (by eapply lookup_lt_Some).
  assert (Hi' : slots (heard i p) !! i = Some (Slot (slot_sec s) (slot_state s) false))
    by (rewrite Hsl; by apply list_lookup_insert_eq).
  destruct o as [v | er]; unfold on_stopped, on_stop_failed, settle_slot;
    cbn [clearTimeout console_error slots pstate_of];
    rewrite Hi'; cbn [slot_state slot_sec slot_awaiting]; rewrite Hst;
    cbn [is_pending set_slots slots allSettled stderr timers stop_calls uncaught];
    rewrite Hsl, list_insert_insert_eq, ?Ht, ?He, ?Hc, ?Ha, ?Hun, ?Hu;
    split_and!; try done;
    cbn [console_error allSettled stderr uncaught timers stop_calls];
    rewrite ?Ht, ?He, ?Hc, ?Ha, ?Hun, ?Hu, ?app_nil_r, <- ?app_assoc; done.
Qed.

Lemma step_settles_unawaited i o p :
  (forall s, slots p !! i = Some s -> slot_awaiting s = false) ->
  step (Settles i o) p = p.
Proof.
  intros Hno. unfold step. destruct (uncaught p); [done | ].
  destruct (slots p !! i) as [s|] eqn:Hi; [ | done]. by rewrite (Hno s eq_refl).
Qed.


(** X17. A promise made by [_stop] that is settled keeps its state and its
    module under every further event, be it a later settling of a module's
    [stop()] promise or a timer coming due. *)
Theorem slot_settles_once p evs i s :
  slots p !! i = Some s -> is_pending (slot_state s) = false ->
  exists s', slots (run evs p) !! i = Some s' /\
             slot_state s' = slot_state s /\ slot_sec s' = slot_sec s.
Proof.
  intros Hi Hs. destruct (run_extends evs p) as [Hsec Hst].
  destruct (Hst i s Hi Hs) as (s' & Hi' & Hs'). exists s'. split_and!; try done.
  assert (Hl : map slot_sec (slots (run evs p)) !! i = Some (slot_sec s'))
    by (by rewrite list_lookup_fmap, Hi').
  rewrite Hsec, list_lookup_fmap, Hi in Hl. by simplify_eq/=.
Qed.

(** X18. Once a timer set by [_stop] comes due, its callback logs the
    time-out message of its module and throws; from then on the process
    runs nothing: no promise settles, the promise returned by [_stop] keeps
    the state it had, and no further entry reaches the error stream. *)
Theorem timer_due_ends_process id p t evs :
  uncaught p = None ->
  find_timer id p = Some t ->
  let p' := run (TimerDue id :: evs) p in
  slots p' = slots p /\
  allSettled p' = allSettled p /\
  stderr p'
  = stderr p ++ [[VStr (("Stopping of " +:+ timer_sec t +:+ " timed out after "
                         +:+ pretty (timer_ms t) +:+ " ms!") +:+ nl)]] /\
  uncaught p' = Some (TypeError "this.throwError is not a function").
Proof.
  intros Hu Ht p'. subst p'. unfold run. cbn [fold_left].
  rewrite (timer_due_uncaught id p t Hu Ht).
  change (fold_left _ evs ?q) with (run evs q).
  by rewrite (crashed_final evs _ (TypeError "this.throwError is not a function")).
Qed.

Lemma entry_mirrors_state st pm :
  entry_of st = Some pm ->
  ((exists v, pm = StatusFulfilled v) <-> is_fulfilled st = true) /\
  ((exists r, pm = StatusRejected r) <-> is_rejected st = true).
Proof.
  destruct st as [|v|r]; intros [= <-]; simpl; split; split; try done; eauto.
  - by intros [? ?].
  - by intros [? ?].
Qed.

Lemma entries_mirror_slots sl results :
  Forall2 (fun s pm => entry_of (slot_state s) = Some pm) sl results ->
  (Forall (fun pm => exists v, pm = StatusFulfilled v) results
   <-> Forall (fun s => is_fulfilled (slot_state s) = true) sl) /\
  (Exists (fun pm => exists r, pm = StatusRejected r) results
   <-> Exists (fun s => is_rejected (slot_state s) = true) sl).
Proof.
  induction 1 as [|s pm sl results Hs _ [IHf IHr]].
  - split; [done | ]. split; by intros ?%Exists_nil.
  - destruct (entry_mirrors_state _ _ Hs) as [Hf Hr].
    rewrite !Forall_cons, !Exists_cons. tauto.
Qed.

(** X19. After an interrupt the process is exited only when every promise
    made by [_stop] is settled, and then with the status computed from the
    settled promises: 1 when they are all fulfilled, 0 when one of them is
    rejected. *)
Theorem signalInterrupt_waits_for_all own app names p0 evs :
  _stop own app names = (p0, Return tt) ->
  (is_Some (signalInterrupt (run evs p0)) <-> all_slots_settled (run evs p0)) /\
  (forall c, signalInterrupt (run evs p0) = Some c ->
     (c = 1 <-> Forall (fun s => is_fulfilled (slot_state s) = true)
                       (slots (run evs p0))) /\
     (c = 0 <-> Exists (fun s => is_rejected (slot_state s) = true)
                       (slots (run evs p0)))).
Proof.
  intros H. apply _stop_spec in H as (_ & _ & Hco & _).
  pose proof (run_coherent evs p0 Hco) as Hrun.
  destruct (settled_view_joined (map slot_state (slots (run evs p0))))
    as (Hrej & Hpend & Hres).
  assert (Hsig : signalInterrupt (run evs p0)
                 = match joined (settled_view (map slot_state (slots (run evs p0)))) with
                   | Fulfilled results => Some (exit_code results)
                   | _ => None
                   end)
    by (unfold signalInterrupt; by rewrite Hrun).
  rewrite !Hsig. clear Hsig.
  destruct (joined (settled_view (map slot_state (slots (run evs p0)))))
    as [|results|r] eqn:Hj; [ | | done].
  - split.
    + split; [by intros [? ?] | ]. intros Hall. unfold all_slots_settled in Hall.
      apply (proj2 (Forall_fmap slot_state (fun st => is_pending st = false) _)) in Hall.
      by apply Hpend in Hall.
    + done.
  - assert (Hall : all_slots_settled (run evs p0)).
    { apply (proj1 (Forall_fmap slot_state (fun st => is_pending st = false) _)).
      by apply Hpend. }
    split; [by split; [ | eauto] | ].
    intros c [= <-]. specialize (Hres results eq_refl).
    apply Forall2_fmap_l in Hres.
    destruct (exit_code_zero_iff_some_rejected results) as [H0 H1].
    rewrite H0, H1. by destruct (entries_mirror_slots _ _ Hres).
Qed.

(** X20. When no module of the list has a [stop] function, [_stop] enters
    nothing and sets no timer, the promise it returns is already fulfilled
    with one fulfilled entry per module, and no event changes the process
    afterwards. *)
Theorem stop_nothing_to_stop own app names :
  Forall (fun sec => sec ≠ mainAppName -> registered app sec)
         (names_or_all names app) ->
  Forall (fun sec => has_function own app sec "stop" = false)
         (filter (fun sec => sec ≠ mainAppName) (names_or_all names app)) ->
  exists p0,
    _stop own app names = (p0, Return tt) /\
    stop_calls p0 = [] /\ timers p0 = [] /\
    (exists j, allSettled p0 = Some j /\
       joined j = Fulfilled
         (map (fun _ => StatusFulfilled (VStr "stop MODULE_FUNCTION_NOT_FOUND"))
              (filter (fun sec => sec ≠ mainAppName) (names_or_all names app)))) /\
    forall evs, run evs p0 = p0.
Proof.
  intros Hreg Hnone. destruct (_stop_returns own app names Hreg) as [p0 H].
  exists p0. split; [done | ].
  pose proof (_stop_timers _ _ _ _ H) as Ht.
  pose proof (_stop_made _ _ _ _ H) as [_ Hmade].
  apply _stop_spec in H as (Hs & Hc & Hco & _).
  set (secs := filter (fun sec => sec ≠ mainAppName) (names_or_all names app)) in *.
  assert (Hfil : filter (fun s => has_function own app s "stop" = true) secs = []).
  { clear -Hnone. induction Hnone as [|s l Hs' _ IH]; [done | ].
    rewrite filter_cons, decide_False; [done | congruence]. }
  rewrite Hfil in Hc, Ht. apply fmap_nil_inv in Ht.
  assert (Hslots : Forall (fun s => slot_state s
                     = Fulfilled (VStr "stop MODULE_FUNCTION_NOT_FOUND") /\
                     slot_awaiting s = false) (slots p0)).
  { apply Forall_lookup. intros i s Hi.
    rewrite Forall_lookup in Hmade. pose proof (Hmade i s Hi) as Hst.
    assert (Hin : slot_sec s ∈ secs).
    { rewrite <- Hs. apply list_elem_of_fmap. exists s. split; [done | ].
      by eapply list_elem_of_lookup_2. }
    rewrite Forall_forall in Hnone. specialize (Hnone _ Hin).
    unfold has_function in Hnone. unfold slot_as_made in Hst.
    destruct (allModules app !! slot_sec s) as [r|]; [ | done].
    by destruct (lookup_method own r "stop"). }
  split_and!; [done | done | | ].
  - eexists. split; [exact Hco | ].
    assert (Hst : map slot_state (slots p0)
              = map (fun _ => Fulfilled (VStr "stop MODULE_FUNCTION_NOT_FOUND")) secs).
    { rewrite <- Hs. clear -Hslots. induction Hslots as [|s l [Hs' _] _ IH]; [done | ].
      simpl. by rewrite Hs', IH. }
    rewrite Hst. clear. unfold settled_view. cbn [joined].
    assert (Hcount : pending_count
              (map (fun _ : string => Fulfilled (VStr "stop MODULE_FUNCTION_NOT_FOUND")) secs) = 0)
      by (induction secs; done).
    rewrite Hcount. simpl. f_equal. induction secs as [|s l IH]; [done | ].
    simpl. by rewrite IH.
  - intros evs. unfold run. induction evs as [|ev evs IH]; [done | ].
    cbn [fold_left].
    assert (Hstep : step ev p0 = p0); [ | by rewrite Hstep].
    destruct ev as [i o | id].
    + apply step_settles_unawaited. intros s Hi.
      rewrite Forall_lookup in Hslots. by destruct (Hslots i s Hi).
    + unfold step, find_timer. rewrite Ht. by destruct (uncaught p0).
Qed.


(** ** [Application.main] *)

Lemma require_all_present loader conf l a :
  Forall (fun sec => hasOwnProperty (config a) sec = true) l ->
  config (fst (forEach (require_step loader conf) l a)) = config a /\
  modules (fst (forEach (require_step loader conf) l a)) = modules a.
Proof.
  revert a. induction l as [|sec l IH]; intros a Hall; [done | ].
  apply Forall_cons in Hall as [Hsec Hall].
  destruct (require_step_fields loader conf sec a) as (_ & _ & _ & _ & Hc & Hm & _).
  rewrite Hsec in Hc, Hm. cbn [forEach].
  destruct (require_step loader conf sec a) as [a1 [[]|e]]; cbn [fst] in *; [ | done].
  destruct (IH a1) as [Hc2 Hm2]; [by rewrite Hc | ]. by rewrite Hc2, Hm2.
Qed.

Lemma forEach_require_throws loader conf l a sec e :
  sec ∈ l -> loader (srcdir a) sec = Throw e ->
  exists sec' e', sec' ∈ l /\ loader (srcdir a) sec' = Throw e' /\
    snd (forEach (require_step loader conf) l a) = Throw e'.
Proof.
  revert a. induction l as [|s l IH]; intros a Hin Hsec; [by apply elem_of_nil in Hin | ].
  cbn [forEach].
  destruct (require_step_fields loader conf s a) as (Hs & _).
  destruct (require_step loader conf s a) as [a1 [[]|e1]] eqn:H1; cbn [fst snd] in *.
  - apply elem_of_cons in Hin as [-> | Hin].
    { unfold require_step in H1. destruct (negb _) in H1; cbn [srcdir] in H1;
        rewrite Hsec in H1; done. }
    destruct (IH a1 Hin) as (sec' & e' & Hin' & Hl & Hr); [by rewrite Hs | ].
    exists sec', e'. rewrite Hs in Hl. split_and!; [by right | done | done].
  - exists s, e1. split_and!; [by left | | done].
    unfold require_step in H1. destruct (negb _) in H1; cbn [srcdir] in H1;
      destruct (loader (srcdir a) s); by simplify_eq.
Qed.

Lemma _start_Return_called own app names called s :
  _start own app names = (called, Return s) ->
  called = filter (start_target own app) (names_or_all names app).
Proof.
  unfold _start. destruct (filter_names _ _) as [secs|e] eqn:Hf; [ | done].
  apply filter_names_spec in Hf as <-.
  destruct (map_start own app secs) as [called' [vs|e]] eqn:Hm; [ | done].
  intros [= <- _]. apply map_start_called in Hm as [_ Hm].
  by destruct (Hm vs eq_refl).
Qed.

(** X21. When the synchronous part of [main] goes through, the SIGINT
    handler is bound once, the configuration and its keys are those given,
    every configured name has the class the loader gave and is registered,
    the main application's name with the application itself and no other
    name with it, [start()] has been entered on exactly the modules with a
    [start] function, and a later [_stop] over all modules returns a
    promise instead of throwing. *)
Theorem main_registers_every_module loader own srcdir0 conf yargs called n app s :
  main loader own srcdir0 conf yargs = (called, n, Return (app, s)) ->
  n = 1 /\
  config app = conf /\ modules app = Object_keys conf /\
  (forall sec, sec ∈ modules app ->
     registered app sec /\
     exists cls, loader srcdir0 sec = Return cls /\ AllModules app !! sec = Some cls) /\
  allModules app !! mainAppName = Some SelfApp /\
  self_only_at_main app /\
  called = filter (start_target own app) (modules app) /\
  exists p0, _stop own app None = (p0, Return tt).
Proof.
  unfold main. destruct (Application_new conf srcdir0) as [app0|e0] eqn:Hnew; [ | done].
  destruct (Application_new_fields _ _ _ Hnew)
    as (_ & Hc0 & Hs0 & Hm0 & Hmain0 & HA0 & Hi0 & Hcover0 & _).
  destruct (require loader None None app0) as [app1 [[]|e1]] eqn:Hreq; [ | done].
  destruct (init None app1) as [app2 [[]|e2]] eqn:Hinit; [ | done].
  destruct (module own app2 _ _ _) as [d|e3]; [ | done].
  unfold start, process_on.
  destruct (_start own app2 None) as [called' [s'|e4]] eqn:Hstart; [ | done].
  intros [= <- <- <- <-].
  assert (Hpresent : Forall (fun sec => hasOwnProperty (config app0) sec = true)
                            (modules app0)).
  { rewrite Hm0, Hc0. apply Forall_forall. intros sec. apply obj_get_keys. }
  destruct (require_all_present loader [] (modules app0) app0 Hpresent) as [Hc1 Hm1].
  destruct (forEach_require_keeps loader [] (modules app0) app0)
    as ((_ & _ & _ & Hi1 & _) & _).
  pose proof (require_Return_spec loader None None app0 app1 Hreq) as Hcls.
  pose proof (forEach_require_proto loader [] (modules app0) app0) as Hproto.
  unfold require in Hc1, Hm1, Hi1. cbn [names_or_all default] in *.
  unfold require in Hreq. cbn [names_or_all default] in Hreq.
  rewrite Hreq in Hc1, Hm1, Hi1, Hproto. cbn [fst] in *.
  rewrite HA0 in Hproto. specialize (Hproto (lookup_empty _)).
  destruct (init_Return_spec None app1 app2 Hinit) as (Hc2 & Hm2 & Hcl2 & _ & Hin2 & _).
  cbn [names_or_all] in Hin2.
  assert (Hnp : forall sec, sec ∈ modules app1 -> sec <> "__proto__").
  { intros sec Hsec ->.
    destruct (Hin2 _ Hsec) as [[? _] | (_ & i & Hmade & _)]; [done | ].
    unfold made_by_init in Hmade. rewrite Hproto in Hmade. by destruct Hmade. }
  assert (Hreg : forall sec, sec ∈ modules app2 -> registered app2 sec).
  { intros sec Hsec. rewrite Hm2 in Hsec.
    destruct (Hin2 sec Hsec) as [[_ Hr] | (_ & i & _ & Hr)];
      unfold registered; rewrite Hr; eauto. }
  split_and!.
  - done.
  - congruence.
  - congruence.
  - intros sec Hsec. split; [by apply Hreg | ].
    rewrite Hm2 in Hsec. pose proof (Hnp sec Hsec) as Hp.
    rewrite Hm1 in Hsec. destruct (Hcls sec Hsec) as (_ & (cls & Hl & Hcl) & _).
    exists cls. rewrite Hcl2, <- Hs0. auto.
  - destruct (Hin2 mainAppName) as [[_ Hr] | [Hne _]]; [congruence | done | done].
  - pose proof (init_self_only None app1) as Hself. rewrite Hinit in Hself.
    apply Hself. intros sec. rewrite Hi1, Hi0. by rewrite lookup_empty.
  - by apply _start_Return_called in Hstart.
  - apply _stop_returns. cbn [names_or_all]. apply Forall_forall. intros sec Hsec _.
    by apply Hreg.
Qed.

(** X22. When the loader throws for any configured name, the main
    application's included, [main] is rejected with a loader exception
    before a single [start()] is entered and without binding the SIGINT
    handler. *)
Theorem main_fails_before_start loader own srcdir0 conf yargs app0 sec e :
  Application_new conf srcdir0 = Return app0 ->
  sec ∈ Object_keys conf ->
  loader srcdir0 sec = Throw e ->
  exists sec' e',
    sec' ∈ Object_keys conf /\ loader srcdir0 sec' = Throw e' /\
    main loader own srcdir0 conf yargs = ([], 0, Throw e').
Proof.
  intros Hnew Hsec Hload. unfold main. rewrite Hnew.
  destruct (Application_new_fields _ _ _ Hnew) as (_ & _ & Hs0 & Hm0 & _).
  destruct (forEach_require_throws loader [] (modules app0) app0 sec e)
    as (sec' & e' & Hin & Hl & Hr); [by rewrite Hm0 | by rewrite Hs0 | ].
  exists sec', e'. rewrite Hm0 in Hin. rewrite Hs0 in Hl. split_and!; [done | done | ].
  unfold require. cbn [names_or_all default].
  destruct (forEach _ _ app0) as [a1 r]. cbn [snd] in Hr. by rewrite Hr.
Qed.

(** ** The shape of the error-code prefix *)

Lemma upper_char_shape c :
  prefix_char (upper_char (if Ascii.eqb c "-" then "_"%char else c)).
Proof.
  destruct c as [[] [] [] [] [] [] [] []]; vm_compute; split; congruence.
Qed.

Lemma ascii_only_hyphens name :
  ascii_only name -> ascii_only (hyphens_to_underscores name).
Proof.
  unfold ascii_only. induction name as [|c name IH]; [done | ].
  cbn [hyphens_to_underscores string_chars]. intros [Hc Hname]%Forall_cons.
  constructor; [ | by apply IH].
  destruct (Ascii.eqb c "-"); [vm_compute; lia | done].
Qed.

Lemma upper_shape name :
  String.length (upper (hyphens_to_underscores name)) = String.length name /\
  Forall prefix_char (string_chars (upper (hyphens_to_underscores name))).
Proof.
  induction name as [|c name [IHl IHc]]; [by split | ].
  cbn [hyphens_to_underscores upper string_chars String.length].
  split; [by rewrite IHl | ]. constructor; [apply upper_char_shape | done].
Qed.

(** X23. The error-code prefix the constructor computes from a name of
    ASCII characters has the length of the name and holds no hyphen and
    none of the letters a-z. *)
Theorem code_prefix_shape config0 srcdir0 app main name :
  Application_new config0 srcdir0 = Return app ->
  obj_get config0 mainAppName = Some main ->
  obj_get main "name" = Some (VStr name) ->
  ascii_only name ->
  String.length (mainModuleCodeUpper app) = String.length name /\
  Forall prefix_char (string_chars (mainModuleCodeUpper app)).
Proof.
  unfold Application_new. intros Hnew Hmain Hname Hascii. rewrite Hmain, Hname in Hnew.
  simplify_eq. cbn [mainModuleCodeUpper]. rewrite join_split_hyphens.
  rewrite toUpperCase_ascii by (by apply ascii_only_hyphens).
  apply upper_shape.
Qed.

(** ** The older [Application] *)

Lemma Legacy_stop_one_slot own app sec p :
  exists s,
    slots (Legacy.stop_one own app sec p) = slots p ++ [s] /\
    slot_sec s = sec /\
    allSettled (Legacy.stop_one own app sec p) = allSettled p /\
    match allModules app !! sec with
    | None =>
        is_rejected (slot_state s) = true /\ slot_awaiting s = false /\
        timers (Legacy.stop_one own app sec p)
        = timers p ++ (if inherited sec
                       then [Timer (next_timer p) sec 2000 (length (slots p))]
                       else []) /\
        stop_calls (Legacy.stop_one own app sec p) = stop_calls p
    | Some r =>
        timers (Legacy.stop_one own app sec p)
        = timers p ++ [Timer (next_timer p) sec (default 2000 (timeout_of r))
                             (length (slots p))] /\
        match lookup_method own r "stop" with
        | None =>
            s = Slot sec (Rejected (VError (TypeError
                  "this.allModules[sec].stop is not a function"))) false /\
            stop_calls (Legacy.stop_one own app sec p) = stop_calls p
        | Some m =>
            (slot_state s, slot_awaiting s) = first_slot_state (m []) /\
            stop_calls (Legacy.stop_one own app sec p) = stop_calls p ++ [sec]
        end
    end.
Proof.
  unfold Legacy.stop_one.
  destruct (allModules app !! sec) as [r|];
    [ | destruct (inherited sec); eexists;
        cbn [push_slot set_slots setTimeout slots timers stop_calls allSettled];
        rewrite ?app_nil_r; by split_and!].
  assert (Htm : match timeout_of r with Some t => t | None => 2000 end
                = default 2000 (timeout_of r)) by (by destruct (timeout_of r)).
  rewrite Htm.
  destruct (lookup_method own r "stop") as [m|]; [ | eexists; by split_and!].
  destruct (m []) as [[]|e]; eexists; by split_and!.
Qed.

Lemma Legacy_stop_fold own app l p :
  let p' := fold_left (fun p sec => Legacy.stop_one own app sec p) l p in
  map slot_sec (slots p') = map slot_sec (slots p) ++ l /\
  allSettled p' = allSettled p /\
  map (fun t => (timer_sec t, timer_ms t)) (timers p')
  = map (fun t => (timer_sec t, timer_ms t)) (timers p)
    ++ map (fun s => (s, timeout_for app s)) (filter (reads app) l) /\
  stop_calls p'
  = stop_calls p ++ filter (fun s => has_function own app s "stop" = true) l /\
  (forall i s, slots p' !! i = Some s -> length (slots p) <= i ->
     match allModules app !! slot_sec s with
     | None => is_rejected (slot_state s) = true /\ slot_awaiting s = false
     | Some r =>
         match lookup_method own r "stop" with
         | None => is_rejected (slot_state s) = true /\ slot_awaiting s = false
         | Some m => (slot_state s, slot_awaiting s) = first_slot_state (m [])
         end
     end).
Proof.
  revert p. induction l as [|sec l IH]; intros p; cbv zeta; cbn [fold_left].
  - rewrite !filter_nil, !app_nil_r. split_and!; try done.
    intros i s Hi Hle. apply lookup_lt_Some in Hi. lia.
  - destruct (IH (Legacy.stop_one own app sec p)) as (Hs & Ha & Ht & Hc & Hst).
    clear IH. cbv zeta in *.
    destruct (Legacy_stop_one_slot own app sec p) as (s0 & Hs0 & Hsec0 & Ha0 & H0).
    rewrite Hs, Ha, Ht, Hc, Hs0, Ha0.
    rewrite (filter_cons (reads app) sec l),
      (filter_cons (fun s => has_function own app s "stop" = true) sec l).
    split_and!.
    + by rewrite map_app, <- app_assoc, <- Hsec0.
    + done.
    + case_decide as Hrd; unfold reads, registered in Hrd;
        destruct (allModules app !! sec) as [r|] eqn:Hr.
      * destruct H0 as [-> _].
        rewrite map_app, <- app_assoc. simpl. unfold timeout_for at 2. by rewrite Hr.
      * destruct H0 as (_ & _ & -> & _). destruct Hrd as [[? ?] | ->]; [done | ].
        rewrite map_app, <- app_assoc. simpl. unfold timeout_for at 2. by rewrite Hr.
      * destruct Hrd. left. eauto.
      * destruct H0 as (_ & _ & -> & _).
        destruct (inherited sec); [destruct Hrd; by right | by rewrite app_nil_r].
    + unfold has_function. destruct (allModules app !! sec) as [r|] eqn:Hr.
      * destruct H0 as [_ H0]. destruct (lookup_method own r "stop") as [m|]; simpl.
        -- destruct H0 as [_ ->]. by rewrite <- app_assoc.
        -- by destruct H0 as [_ ->].
      * simpl. by destruct H0 as (_ & _ & _ & ->).
    + intros i s Hi Hle.
      destruct (decide (i = length (slots p))) as [-> | Hne].
      * assert (Hold : slots (Legacy.stop_one own app sec p) !! length (slots p) = Some s0)
          by (rewrite Hs0; by apply list_lookup_middle).
        assert (Hkeep : forall q l' i' s', slots q !! i' = Some s' ->
          slots (fold_left (fun p sec => Legacy.stop_one own app sec p) l' q) !! i'
          = Some s').
        { clear. intros q l'. revert q. induction l' as [|x l' IH]; intros q i' s' H; [done | ].
          cbn [fold_left]. apply IH.
          destruct (Legacy_stop_one_slot own app x q) as (s1 & -> & _).
          by apply lookup_app_l_Some. }
        rewrite (Hkeep _ l _ _ Hold) in Hi.
        assert (s = s0) as -> by congruence. rewrite Hsec0.
        destruct (allModules app !! sec) as [r|].
        -- destruct H0 as [_ H0]. destruct (lookup_method own r "stop"); [by destruct H0 | ].
           by destruct H0 as [-> _].
        -- by destruct H0 as (? & ? & _).
      * apply (Hst i s Hi). rewrite Hs0, length_app. simpl. lia.
Qed.

Lemma Legacy_stop_coherent own app names : coherent (Legacy.stop own app names).
Proof.
  unfold coherent, Legacy.stop. cbn [set_slots allSettled slots].
  by rewrite Promise_allSettled_view.
Qed.

(** X24. In the older class the main application's name is left out of
    the module-name set by the constructor, so that [start()] and [stop()]
    over all modules never enter a function or make a promise under that
    name. *)
Theorem Legacy_main_app_not_a_module own config0 srcdir0 app :
  Legacy.Application_new config0 srcdir0 = Return app ->
  modules app = filter (fun nm => nm ≠ Legacy.mainAppName) (Object_keys config0) /\
  (Legacy.mainAppName ∉ modules app) /\
  (Legacy.mainAppName ∉ fst (Legacy.start own app None)) /\
  forall evs,
    map slot_sec (slots (run evs (Legacy.stop own app None))) = modules app.
Proof.
  intros Hnew.
  assert (Hm : modules app
               = filter (fun nm => nm ≠ Legacy.mainAppName) (Object_keys config0)).
  { unfold Legacy.Application_new in Hnew.
    destruct (obj_get config0 Legacy.mainAppName); [ | done].
    destruct (obj_get _ "name") as [[| | |name| |]|]; by simplify_eq. }
  assert (Hnot : Legacy.mainAppName ∉ modules app).
  { rewrite Hm. by intros [? _]%list_elem_of_filter. }
  split_and!; [done | done | | ].
  - unfold Legacy.start. cbn [names_or_all].
    destruct (map_start own app (modules app)) as [called res] eqn:Hs.
    apply map_start_called in Hs as [[rest Hpre] _].
    intros Hin. apply Hnot. rewrite Hpre. apply elem_of_app. left.
    by destruct res.
  - intros evs. destruct (run_extends evs (Legacy.stop own app None)) as [-> _].
    unfold Legacy.stop. cbn [set_slots slots names_or_all].
    by destruct (Legacy_stop_fold own app (modules app) stopping_init) as [-> _].
Qed.

(** X25. In the older class [require] compares [typeof sec] with ['sec']:
    for every non-empty list it throws the assertion error at the first
    name, before the loader is asked, and it never changes the application;
    only an empty list returns. *)
Theorem Legacy_require_registers_nothing loader names conf app :
  fst (Legacy.require loader names conf app) = app /\
  snd (Legacy.require loader names conf app)
  = match names_or_all names app with
    | [] => Return tt
    | _ :: _ => Throw (AssertionError "modules MUST_BE_STRING")
    end.
Proof.
  unfold Legacy.require. by destruct (names_or_all names app).
Qed.

(** X26. In the older class [stop] never throws: it makes one promise per
    name of the list, in order; the promise of a name without an instance
    of its own, or whose instance has no [stop] function, is rejected from
    the start and stays so; and a timer is set for every name under which
    the registry reads something, an instance of its own, with or without a
    [stop] function, or a value it inherits. *)
Theorem Legacy_stop_rejects_unstoppable own app names :
  let p0 := Legacy.stop own app names in
  map slot_sec (slots p0) = names_or_all names app /\
  map (fun t => (timer_sec t, timer_ms t)) (timers p0)
  = map (fun s => (s, timeout_for app s)) (filter (reads app) (names_or_all names app)) /\
  stop_calls p0
  = filter (fun s => has_function own app s "stop" = true) (names_or_all names app) /\
  forall i s, slots p0 !! i = Some s ->
    has_function own app (slot_sec s) "stop" = false ->
    forall evs, exists s',
      slots (run evs p0) !! i = Some s' /\ is_rejected (slot_state s') = true.
Proof.
  intros p0. subst p0. unfold Legacy.stop.
  destruct (Legacy_stop_fold own app (names_or_all names app) stopping_init)
    as (Hs & _ & Ht & Hc & Hst).
  cbn [set_slots slots timers stop_calls].
  split_and!; [done | done | done | ].
  intros i s Hi Hno evs.
  specialize (Hst i s Hi (Nat.le_0_l _)). unfold has_function in Hno.
  assert (Hrej : is_rejected (slot_state s) = true).
  { destruct (allModules app !! slot_sec s) as [r|]; [ | by destruct Hst].
    destruct (lookup_method own r "stop"); [done | by destruct Hst]. }
  match goal with |- context [run evs ?q] => set (p0 := q) end.
  destruct (run_extends evs p0) as [_ Hkeep].
  destruct (Hkeep i s Hi) as (s' & Hi' & Hs'); [by destruct (slot_state s) | ].
  exists s'. split; [done | by rewrite Hs'].
Qed.

(** X27. In the older class too the promise returned by [stop] is never
    rejected and is settled exactly when every per-module promise is
    settled, whatever the modules' promises and the timers do. *)
Theorem Legacy_stop_settles_when_all_settled own app names evs :
  exists j,
    allSettled (run evs (Legacy.stop own app names)) = Some j /\
    is_rejected (joined j) = false /\
    (is_pending (joined j) = false
     <-> all_slots_settled (run evs (Legacy.stop own app names))).
Proof.
  pose proof (run_coherent evs _ (Legacy_stop_coherent own app names)) as Hrun.
  eexists. split; [exact Hrun | ].
  destruct (settled_view_joined
              (map slot_state (slots (run evs (Legacy.stop own app names)))))
    as (Hrej & Hpend & _).
  split; [done | ]. rewrite Hpend. unfold all_slots_settled. by rewrite Forall_fmap.
Qed.

(** X28. In the older class [start] maps over every name without looking
    for a [start] function: at the first name without an instance of its
    own, or whose instance has no [start] function, it throws a [TypeError]
    and returns no promise; it has then entered the [start()] of the names
    before it and of no other. *)
Theorem Legacy_start_has_no_filter own app names before sec after :
  names_or_all names app = before ++ sec :: after ->
  Forall (fun s => exists v, call_start own app s = Return v) before ->
  has_function own app sec "start" = false ->
  exists msg,
    Legacy.start own app names = (before, Throw (TypeError msg)).
Proof.
  intros Hnames Hbefore Hno. unfold Legacy.start. rewrite Hnames, map_start_app.
  destruct (call_start_values own app before Hbefore) as [vs Hvs].
  rewrite (map_start_returns own app before vs Hvs).
  cbn [map_start]. unfold start_of, has_function in *.
  destruct (allModules app !! sec) as [r|];
    [ | destruct (inherited sec); rewrite app_nil_r; eauto].
  destruct (lookup_method own r "start"); [done | rewrite app_nil_r; eauto].
Qed.

End Further.

(** ** The further theorems at the sample application *)

Section SampleFurther.
#[local] Existing Instance sample_host.

Lemma Application_new_spec_witness :
  exists app,
    Application_new sample_config "/srv/lib" = Return app /\
    modules app = ["mbjs-app"; "db"; "cache"; "log"] /\
    AllModules app = ∅ /\ allModules app = ∅.
Proof.
  destruct (proj1 (Application_new_spec sample_config "/srv/lib")
              [("name", VStr "my-app")] "my-app" eq_refl eq_refl)
    as (app & Hnew & _ & _ & _ & Hm & _ & HA & Ha & _).
  exists app. split; [exact Hnew | ]. split; [ | split; [exact HA | exact Ha]].
  rewrite Hm. vm_compute. reflexivity.
Defined.

Lemma require_registers_every_name_witness :
  require sample_loader (Some ["db"; "cache"]) None sample_app
  = (fst (require sample_loader (Some ["db"; "cache"]) None sample_app), Return tt) /\
  (("db" <> "__proto__" ->
    hasOwnProperty
      (config (fst (require sample_loader (Some ["db"; "cache"]) None sample_app))) "db"
    = true) /\
   "db" ∈ modules (fst (require sample_loader (Some ["db"; "cache"]) None sample_app))).
Proof.
  assert (H : require sample_loader (Some ["db"; "cache"]) None sample_app
              = (fst (require sample_loader (Some ["db"; "cache"]) None sample_app), Return tt))
    by (vm_compute; reflexivity).
  split; [exact H | ].
  assert (Hin : "db" ∈ names_or_all (Some ["db"; "cache"]) sample_app)
    by (apply (bool_decide_unpack _); vm_compute; exact I).
  assert (Hcover : modules_cover sample_app).
  { intros sec Hsec. apply obj_get_fst in Hsec. exact Hsec. }
  pose proof (require_registers_every_name sample_loader _ _ _ _ H "db" Hin)
    as (Hown & _ & Hmod).
  split; [exact Hown | exact (Hmod Hcover)].
Defined.

Lemma require_stops_at_failure_witness :
  require sample_loader (Some ["db"]) None sample_app
  = (fst (require sample_loader (Some ["db"]) None sample_app), Return tt) /\
  sample_loader (srcdir sample_app) "queue"
  = Throw (Err "Error" "Cannot find module queue" (Some "MODULE_NOT_FOUND")) /\
  exists app2,
    require sample_loader (Some (["db"] ++ "queue" :: ["cache"])) None sample_app
    = (app2, Throw (Err "Error" "Cannot find module queue" (Some "MODULE_NOT_FOUND"))) /\
    modules app2 = ["mbjs-app"; "db"; "cache"; "log"; "queue"].
Proof.
  assert (H : require sample_loader (Some ["db"]) None sample_app
    = (fst (require sample_loader (Some ["db"]) None sample_app), Return tt))
    by (vm_compute; reflexivity).
  assert (Hl : sample_loader (srcdir sample_app) "queue"
    = Throw (Err "Error" "Cannot find module queue" (Some "MODULE_NOT_FOUND")))
    by (vm_compute; reflexivity).
  split; [exact H | ]. split; [exact Hl | ].
  destruct (require_stops_at_failure sample_loader None sample_app ["db"] "queue"
              ["cache"] _ _ H Hl) as (app2 & H2 & _ & _ & _ & Hnew).
  exists app2. split; [exact H2 | ].
  exact (proj1 (Hnew eq_refl)).
Defined.



Lemma sample_classes_configured : classes_configured sample_app.
Proof.
  intros sec [cls H]. unfold sample_app in H. cbn [AllModules] in H.
  repeat (apply lookup_insert_Some in H as [[<- _] | [_ H]]; [reflexivity | ]).
  by rewrite lookup_empty in H.
Defined.

Lemma classes_stay_configured_witness :
  classes_configured sample_app /\
  classes_configured (fst (require sample_loader (Some ["queue"]) None sample_app)) /\
  exists c, obj_get (config sample_app) "db" = Some c.
Proof.
  destruct (classes_stay_configured sample_loader sample_app sample_classes_configured)
    as (Hreq & _ & Hget).
  split; [exact sample_classes_configured | ]. split; [apply Hreq | ].
  exact (Hget "db" _ eq_refl).
Defined.

Lemma module_not_found_witness :
  allModules sample_app !! "queue" = None /\
  module sample_own sample_app (One "queue") "setCli" []
  = Throw (Err "Error" "Error" (Some "MY_APP_MODULE_NOT_FOUND")).
Proof.
  split; [reflexivity | ].
  exact (proj1 (module_not_found sample_own sample_app "queue" "setCli" [] eq_refl)).
Defined.


Lemma sample_faulty_registered :
  Forall (fun s => s ≠ mainAppName -> registered sample_app_faulty s)
         (names_or_all (Some ["db"; "net"; "cache"]) sample_app_faulty).
Proof. repeat constructor; intros _; vm_compute; eexists; reflexivity. Defined.

Lemma start_stops_at_sync_throw_witness :
  filter (start_target sample_own sample_app_faulty)
         (names_or_all (Some ["db"; "net"; "cache"]) sample_app_faulty)
  = ["db"] ++ "net" :: [] /\
  _start sample_own sample_app_faulty (Some ["db"; "net"; "cache"])
  = (["db"] ++ ["net"], Throw (Err "Error" "no route" None)).
Proof.
  assert (Hf : filter (start_target sample_own sample_app_faulty)
                 (names_or_all (Some ["db"; "net"; "cache"]) sample_app_faulty)
               = ["db"] ++ "net" :: []) by (vm_compute; reflexivity).
  split; [exact Hf | ].
  apply (start_stops_at_sync_throw sample_own sample_app_faulty _ ["db"] "net" []
           _ sample_faulty_registered Hf).
  - repeat constructor. eexists. vm_compute. reflexivity.
  - vm_compute. reflexivity.
Defined.

Lemma start_nothing_to_start_witness :
  Forall (fun s => ~ start_target sample_own sample_app s)
         (names_or_all (Some ["cache"; "log"]) sample_app) /\
  fst (_start sample_own sample_app (Some ["cache"; "log"])) = [].
Proof.
  assert (Hnone : Forall (fun s => ~ start_target sample_own sample_app s)
                         (names_or_all (Some ["cache"; "log"]) sample_app)).
  { repeat constructor; intros [_ H]; vm_compute in H; discriminate H. }
  split; [exact Hnone | ].
  rewrite (start_nothing_to_start sample_own sample_app (Some ["cache"; "log"]));
    [reflexivity | | exact Hnone].
  repeat constructor; intros _; vm_compute; eexists; reflexivity.
Defined.


Lemma stop_first_slot_states_witness :
  exists p0,
    _stop sample_own sample_app_faulty (Some ["db"; "net"; "cache"]) = (p0, Return tt) /\
    forall s, slots p0 !! 1 = Some s ->
      slot_state s = Rejected (VError (Err "Error" "no route" None)).
Proof.
  destruct (stop_first_slot_states sample_own sample_app_faulty
              (Some ["db"; "net"; "cache"]) sample_faulty_registered) as (p0 & H0 & Hst).
  exists p0. split; [exact H0 | ]. intros s Hs.
  assert (Hp : p0 = fst (_stop sample_own sample_app_faulty (Some ["db"; "net"; "cache"])))
    by (by rewrite H0).
  assert (Hsec : slot_sec s = "net").
  { pose proof Hs as Hs'. rewrite Hp in Hs'. vm_compute in Hs'. by injection Hs' as <-. }
  assert (Hr : allModules sample_app_faulty !! slot_sec s = Some (Mod sample_faulty))
    by (rewrite Hsec; reflexivity).
  pose proof (Hst 1 s (Mod sample_faulty) _ Hs Hr eq_refl) as Hfirst.
  by injection Hfirst as -> _.
Defined.

Lemma stop_sets_one_timer_per_module_witness :
  exists p0,
    _stop sample_own sample_app None = (p0, Return tt) /\
    map (fun t => (timer_sec t, timer_ms t)) (timers p0) = [("db", 2000); ("cache", 500)].
Proof.
  destruct (stop_sets_one_timer_per_module sample_own sample_app None sample_registered)
    as (p0 & H0 & Ht & _).
  exists p0. split; [exact H0 | ]. rewrite Ht. vm_compute. reflexivity.
Defined.

Lemma stop_settlement_reaches_slot_witness :
  slots sample_stopping !! 0 = Some (Slot "db" Pending true) /\
  stderr (step (Settles 0 (Reject (VStr "busy"))) sample_stopping)
  = [[VStr ("db" +:+ " could not be stopped!" +:+ nl)]; [VStr "busy"; VStr nl]].
Proof.
  split; [reflexivity | ].
  exact (proj1 (proj2 (proj2 (stop_settlement_reaches_slot 0 (Reject (VStr "busy"))
           sample_stopping (Slot "db" Pending true) eq_refl eq_refl eq_refl eq_refl)))).
Defined.

Lemma timer_due_ends_process_witness :
  find_timer 1 sample_stopping = Some (Timer 1 "cache" 500 1) /\
  slots (run [TimerDue 1; Settles 0 (Resolve VUndefined)] sample_stopping)
  = slots sample_stopping.
Proof.
  split; [reflexivity | ].
  exact (proj1 (timer_due_ends_process 1 sample_stopping (Timer 1 "cache" 500 1)
                  [Settles 0 (Resolve VUndefined)] eq_refl eq_refl)).
Defined.

Lemma signalInterrupt_waits_for_all_witness :
  _stop sample_own sample_app None = (sample_stopping, Return tt) /\
  (is_Some (signalInterrupt (run [Settles 0 (Resolve VUndefined)] sample_stopping))
   <-> all_slots_settled (run [Settles 0 (Resolve VUndefined)] sample_stopping)).
Proof.
  assert (H : _stop sample_own sample_app None = (sample_stopping, Return tt))
    by (vm_compute; reflexivity).
  split; [exact H | ].
  exact (proj1 (signalInterrupt_waits_for_all sample_own sample_app None _
                  [Settles 0 (Resolve VUndefined)] H)).
Defined.

Lemma stop_nothing_to_stop_witness :
  Forall (fun sec => has_function sample_own sample_app sec "stop" = false)
         (filter (fun sec => sec ≠ mainAppName)
                 (names_or_all (Some ["log"; "mbjs-app"]) sample_app)) /\
  exists p0,
    _stop sample_own sample_app (Some ["log"; "mbjs-app"]) = (p0, Return tt) /\
    forall evs, run evs p0 = p0.
Proof.
  assert (Hnone : Forall (fun sec => has_function sample_own sample_app sec "stop" = false)
         (filter (fun sec => sec ≠ mainAppName)
                 (names_or_all (Some ["log"; "mbjs-app"]) sample_app)))
    by (vm_compute; repeat constructor).
  split; [exact Hnone | ].
  destruct (stop_nothing_to_stop sample_own sample_app (Some ["log"; "mbjs-app"]))
    as (p0 & H0 & _ & _ & _ & Hrun); [ | exact Hnone | ].
  - repeat constructor; intros _; vm_compute; eexists; reflexivity.
  - exists p0. split; [exact H0 | exact Hrun].
Defined.

Lemma main_registers_every_module_witness :
  main sample_loader sample_own "/srv/lib" sample_config VUndefined
  = (["db"], 1, Return (sample_app, Starting [Pending] (Joining 1 [None] Pending))) /\
  (forall sec, sec ∈ modules sample_app -> registered sample_app sec) /\
  exists p0, _stop sample_own sample_app None = (p0, Return tt).
Proof.
  assert (H : main sample_loader sample_own "/srv/lib" sample_config VUndefined
    = (["db"], 1, Return (sample_app, Starting [Pending] (Joining 1 [None] Pending))))
    by (vm_compute; reflexivity).
  split; [exact H | ].
  destruct (main_registers_every_module _ _ _ _ _ _ _ _ _ H)
    as (_ & _ & _ & Hreg & _ & _ & _ & Hstop).
  split; [ | exact Hstop]. intros sec Hsec. exact (proj1 (Hreg sec Hsec)).
Defined.

Lemma main_fails_before_start_witness :
  "queue" ∈ Object_keys sample_config_missing /\
  exists sec' e',
    main sample_loader sample_own "/srv/lib" sample_config_missing VUndefined
    = ([], 0, Throw e') /\
    sample_loader "/srv/lib" sec' = Throw e'.
Proof.
  assert (Hin : "queue" ∈ Object_keys sample_config_missing)
    by (apply (bool_decide_unpack _); vm_compute; exact I).
  split; [exact Hin | ].
  destruct (main_fails_before_start sample_loader sample_own "/srv/lib"
              sample_config_missing VUndefined _ "queue" _ eq_refl Hin eq_refl)
    as (sec' & e' & _ & Hl & Hm).
  exists sec', e'. split; [exact Hm | exact Hl].
Defined.

Lemma code_prefix_shape_witness :
  exists app,
    Application_new sample_config "/srv/lib" = Return app /\
    String.length (mainModuleCodeUpper app) = 6 /\
    Forall prefix_char (string_chars (mainModuleCodeUpper app)).
Proof.
  eexists. split; [reflexivity | ].
  refine (code_prefix_shape sample_config "/srv/lib" _ _ "my-app" eq_refl eq_refl eq_refl _).
  apply (bool_decide_unpack _). vm_compute. exact I.
Defined.

Lemma Legacy_main_app_not_a_module_witness :
  exists app,
    Legacy.Application_new sample_config_legacy "/srv/lib" = Return app /\
    modules app = ["db"] /\
    (Legacy.mainAppName ∉ fst (Legacy.start sample_own app None)).
Proof.
  eexists. split; [reflexivity | ].
  destruct (Legacy_main_app_not_a_module sample_own sample_config_legacy "/srv/lib" _ eq_refl)
    as (Hm & _ & Hs & _).
  split; [exact Hm | exact Hs].
Defined.

Lemma Legacy_start_has_no_filter_witness :
  has_function sample_own sample_app "cache" "start" = false /\
  exists msg,
    Legacy.start sample_own sample_app (Some ["db"; "cache"])
    = (["db"], Throw (TypeError msg)).
Proof.
  split; [reflexivity | ].
  apply (Legacy_start_has_no_filter sample_own sample_app _ ["db"] "cache" []);
    [reflexivity | | reflexivity].
  repeat constructor. eexists. vm_compute. reflexivity.
Defined.

Lemma slot_settles_once_witness :
  slots sample_stopping !! 2
  = Some (Slot "log" (Fulfilled (VStr "stop MODULE_FUNCTION_NOT_FOUND")) false) /\
  exists s', slots (run [Settles 2 (Reject (VStr "late")); TimerDue 0] sample_stopping) !! 2
             = Some s' /\
             slot_state s' = Fulfilled (VStr "stop MODULE_FUNCTION_NOT_FOUND").
Proof.
  split; [reflexivity | ].
  destruct (slot_settles_once sample_stopping
              [Settles 2 (Reject (VStr "late")); TimerDue 0] 2
              (Slot "log" (Fulfilled (VStr "stop MODULE_FUNCTION_NOT_FOUND")) false)
              eq_refl eq_refl) as (s' & Hs' & Hst & _).
  exists s'. split; [exact Hs' | exact Hst].
Defined.

End SampleFurther.
